(** * Phase cross-correlation registration (cucim.skimage.registration)

    A shallow embedding of
    [src/python/cucim/src/cucim/skimage/registration/_phase_cross_correlation.py]
    and the properties of its subpixel registration pipeline.

    Numbers.  The arrays of the program hold floating-point numbers.  They
    are idealised here: a finite value is a real number and arithmetic on
    finite values is exact; [NaN] is the one non-number and it is absorbing,
    as in IEEE 754.  Rounding, overflow, the infinities and the sign of zero
    are not represented (a division by zero yields [NaN]). *)

From Stdlib Require Import String Ascii.
From Stdlib Require Import Reals Lra Lia ZArith Bool Arith List.
Import ListNotations.

Open Scope R_scope.

(** ** Scalars *)

Inductive float : Type :=
| Fin (x : R)
| NaN.

Definition Rltb (x y : R) : bool := if Rlt_dec x y then true else false.
Definition Rleb (x y : R) : bool := if Rle_dec x y then true else false.
Definition Reqb (x y : R) : bool := if Req_dec_T x y then true else false.

Definition lift1 (f : R -> R) (a : float) : float :=
  match a with Fin x => Fin (f x) | NaN => NaN end.

Definition lift2 (f : R -> R -> R) (a b : float) : float :=
  match a, b with Fin x, Fin y => Fin (f x y) | _, _ => NaN end.

Definition fadd : float -> float -> float := lift2 Rplus.
Definition fsub : float -> float -> float := lift2 Rminus.
Definition fmul : float -> float -> float := lift2 Rmult.
Definition fneg : float -> float := lift1 Ropp.
Definition fabs : float -> float := lift1 Rabs.

Definition fdiv (a b : float) : float :=
  match a, b with
  | Fin x, Fin y => if Reqb y 0 then NaN else Fin (x / y)
  | _, _ => NaN
  end.

(** [cp.sqrt] on a real number: not-a-number below zero. *)
Definition fsqrt (a : float) : float :=
  match a with
  | Fin x => if Rltb x 0 then NaN else Fin (sqrt x)
  | NaN => NaN
  end.

Definition isnan (a : float) : bool :=
  match a with Fin _ => false | NaN => true end.

(** [a > b] on floats; any comparison with [NaN] is false. *)
Definition fgtb (a b : float) : bool :=
  match a, b with Fin x, Fin y => Rltb y x | _, _ => false end.

Definition of_nat (n : nat) : float := Fin (INR n).
Definition of_Z (z : Z) : float := Fin (IZR z).

(** ** Complex scalars *)

Record complex : Type := Cx { re : float; im : float }.

Definition c0 : complex := Cx (Fin 0) (Fin 0).
Definition of_real (a : float) : complex := Cx a (Fin 0).

Definition cadd (a b : complex) : complex :=
  Cx (fadd (re a) (re b)) (fadd (im a) (im b)).

Definition csub (a b : complex) : complex :=
  Cx (fsub (re a) (re b)) (fsub (im a) (im b)).

Definition cmul (a b : complex) : complex :=
  Cx (fsub (fmul (re a) (re b)) (fmul (im a) (im b)))
     (fadd (fmul (re a) (im b)) (fmul (im a) (re b))).

Definition cneg (a : complex) : complex := Cx (fneg (re a)) (fneg (im a)).

(** [z.conj()] *)
Definition conj (a : complex) : complex := Cx (re a) (fneg (im a)).

(** Division of a complex number by a real one. *)
Definition cdiv_real (a : complex) (r : float) : complex :=
  Cx (fdiv (re a) r) (fdiv (im a) r).

(** [cp.abs] of a complex number: its modulus. *)
Definition cabs (a : complex) : float :=
  fsqrt (fadd (fmul (re a) (re a)) (fmul (im a) (im a))).

(** [cp.isnan] of a complex number. *)
Definition cisnan (a : complex) : bool := isnan (re a) || isnan (im a).

(** [cp.exp] of a complex number. *)
Definition cexp (a : complex) : complex :=
  match re a, im a with
  | Fin x, Fin y => Cx (Fin (exp x * cos y)) (Fin (exp x * sin y))
  | _, _ => Cx NaN NaN
  end.

(** [cp.arctan2(y, x)] on finite numbers, through the quadrants.  Zero has
    no sign here: for [y = 0] and [x < 0] the angle is [PI], which the
    program returns for [y = 0.0], while it returns [- PI] for [y = -0.0]. *)
Definition Ratan2 (y x : R) : R :=
  if Rltb 0 x then atan (y / x)
  else if Rltb x 0 then (if Rleb 0 y then atan (y / x) + PI else atan (y / x) - PI)
  else if Rltb 0 y then PI / 2
  else if Rltb y 0 then - (PI / 2)
  else 0.

Definition arctan2 : float -> float -> float := lift2 Ratan2.

(** ** Rounding *)

(** [math.floor] and [math.ceil]. *)
Definition Rfloor (x : R) : Z := Int_part x.
Definition Rceil (x : R) : Z := (- Int_part (- x))%Z.

(** [np.fix]: round towards zero. *)
Definition Rfix (x : R) : Z := if Rleb 0 x then Rfloor x else Rceil x.

(** [cp.around]: round to the nearest integer, ties to the even one. *)
Definition Raround (x : R) : Z :=
  let f := Rfloor x in
  let d := x - IZR f in
  if Rltb d (1 / 2) then f
  else if Rltb (1 / 2) d then (f + 1)%Z
  else if Z.even f then f else (f + 1)%Z.

Definition fix_ : float -> float := lift1 (fun x => IZR (Rfix x)).
Definition around : float -> float := lift1 (fun x => IZR (Raround x)).

(** ** N-dimensional arrays

    An array is its shape and its elements in C (row-major) order. *)

Record ndarray (A : Type) : Type := NdArray { shape : list nat; data : list A }.
Arguments NdArray {A} shape data.
Arguments shape {A} _.
Arguments data {A} _.

Definition ndim {A} (a : ndarray A) : nat := length (shape a).
Definition prod_shape (s : list nat) : nat := fold_right Nat.mul 1%nat s.
(** [a.size] *)
Definition size {A} (a : ndarray A) : nat := prod_shape (shape a).

(** The array invariant: as many elements as the shape announces. *)
Definition wf {A} (a : ndarray A) : Prop := length (data a) = size a.

Definition amap {A B} (f : A -> B) (a : ndarray A) : ndarray B :=
  NdArray (shape a) (map f (data a)).

(** Elementwise product of two arrays of the same shape. *)
Definition amul (a b : ndarray complex) : ndarray complex :=
  NdArray (shape a) (map (fun p => cmul (fst p) (snd p)) (combine (data a) (data b))).

Definition fsum (l : list float) : float := fold_right fadd (Fin 0) l.
Definition csum (l : list complex) : complex := fold_right cadd c0 l.

(** All multi-indices of a shape, in C order. *)
Fixpoint indices (s : list nat) : list (list nat) :=
  match s with
  | [] => [[]]
  | n :: s' => flat_map (fun i => map (cons i) (indices s')) (seq 0 n)
  end.

(** The flat position of a multi-index (Horner's rule over the axes). *)
Definition ravel (s idx : list nat) : nat :=
  fold_left (fun acc p => (acc * fst p + snd p)%nat) (combine s idx) 0%nat.

(** [a[idx]] for a full multi-index [idx]; positions outside the buffer are
    never read by the program. *)
Definition item (a : ndarray complex) (idx : list nat) : complex :=
  nth (ravel (shape a) idx) (data a) c0.

(** [cp.unravel_index(i, shape)]: the multi-index of a flat position. *)
Fixpoint unravel_rev (i : nat) (rev_shape : list nat) : list nat :=
  match rev_shape with
  | [] => []
  | d :: rest => (i mod d)%nat :: unravel_rev (i / d)%nat rest
  end.

Definition unravel_index (i : nat) (s : list nat) : list nat :=
  rev (unravel_rev i (rev s)).

(** ** Errors *)

Inductive reason : Type :=
| region_sizes_mismatch   (* shape of upsampled region sizes must be equal to
                             input data's number of dimensions. *)
| axis_offsets_mismatch   (* number of axis offsets must be equal to input
                             data's number of dimensions. *)
| images_not_same_shape   (* images must be same shape *)
| bad_space_argument      (* space argument must be 'real' of 'fourier' *)
| nan_values_found        (* NaN values found, please remove NaNs from your
                             input data or use the reference_mask/moving_mask
                             keywords ... *)
| empty_argmax            (* raised by cp.argmax on an empty array *)
| empty_stack.            (* raised by cp.stack on an empty sequence *)

Inductive exn : Type :=
| ValueError (why : reason)
| IndexError
| UnboundLocalError.

Inductive result (A : Type) : Type :=
| Raise (e : exn)
| Return (a : A).
Arguments Raise {A} e.
Arguments Return {A} a.

Definition rbind {A B} (m : result A) (f : A -> result B) : result B :=
  match m with Raise e => Raise e | Return a => f a end.

Declare Scope result_scope.
Delimit Scope result_scope with result.
Notation "x <- m ;; k" := (rbind m (fun x => k))
  (at level 61, m at next level, right associativity) : result_scope.

(** ** Array library *)

(** [cp.arange(n)] for an integer [n]. *)
Definition arange (n : Z) : list float := map of_nat (seq 0 (Z.to_nat n)).

(** Modelled from the spec: [fft.fftfreq(n, d)] of the repository's
    [_shared.fft] module, the standard per-sample frequency grid of length [n]
    with sample spacing [d]:
    [0, 1, ..., (n-1)//2, -(n//2), ..., -1] / n / d. *)
Definition fftfreq (n : nat) (d : R) : list float :=
  let pos := map (fun i => Z.of_nat i) (seq 0 (Z.to_nat ((Z.of_nat n - 1) / 2 + 1))) in
  let neg := map (fun i => (Z.of_nat i - Z.of_nat (n / 2))%Z) (seq 0 (n / 2)) in
  map (fun k => fdiv (fdiv (of_Z k) (of_nat n)) (Fin d)) (pos ++ neg).

(** The rows of length [n] of a flat buffer. *)
Definition rows {A} (n : nat) (d : list A) (count : nat) : list (list A) :=
  map (fun r => firstn n (skipn (r * n) d)) (seq 0 count).

Definition dot (k row : list complex) : complex :=
  csum (map (fun p => cmul (fst p) (snd p)) (combine k row)).

(** [cp.tensordot(kernel, a, axes=(1, -1))]: contracts the columns of the
    matrix [kernel] (a list of rows) with the last axis of [a]; the rows of
    [kernel] become the first axis of the result. *)
Definition tensordot (kernel : list (list complex)) (a : ndarray complex)
  : ndarray complex :=
  let outer := removelast (shape a) in
  let n := last (shape a) 0%nat in
  NdArray (length kernel :: outer)
          (flat_map (fun krow => map (dot krow) (rows n (data a) (prod_shape outer)))
                    kernel).

(** [cp.argmax] of a flat buffer: the first position of the maximum, where
    a not-a-number counts as the maximum; an empty buffer is an error. *)
Definition better (x best : float) : bool :=
  match best, x with
  | NaN, _ => false
  | Fin _, NaN => true
  | Fin b, Fin v => Rltb b v
  end.

Fixpoint argmax_from (best : nat) (bv : float) (i : nat) (l : list float) : nat :=
  match l with
  | [] => best
  | x :: l' =>
      if better x bv then argmax_from i x (S i) l' else argmax_from best bv (S i) l'
  end.

Definition argmax (l : list float) : result nat :=
  match l with
  | [] => Raise (ValueError empty_argmax)
  | x :: l' => Return (argmax_from 0 x 1 l')
  end.

(** [cp.stack] of a sequence of scalars. *)
Definition stack (l : list float) : result (list float) :=
  match l with
  | [] => Raise (ValueError empty_stack)
  | _ => Return l
  end.

(** Modelled from the spec: [fft.fftn] and [fft.ifftn] of the repository's
    [_shared.fft] module, the N-dimensional complex discrete Fourier
    transform over all axes and its inverse:
    [X[k] = sum_j x[j] * exp(-2 pi i * sum_a k_a j_a / n_a)], the inverse
    with the opposite sign and divided by the number of samples. *)
Definition dft_phase (s k j : list nat) : R :=
  fold_right Rplus 0
    (map (fun p => INR (fst (snd p) * snd (snd p)) / INR (fst p))
         (combine s (combine k j))).

Definition twiddle (sign : R) (s k j : list nat) : complex :=
  cexp (Cx (Fin 0) (Fin (sign * (2 * PI * dft_phase s k j)))).

Definition dftn (sign : R) (a : ndarray complex) : list complex :=
  map (fun k =>
         csum (map (fun j => cmul (item a j) (twiddle sign (shape a) k j))
                   (indices (shape a))))
      (indices (shape a)).

Definition fftn (a : ndarray complex) : ndarray complex :=
  NdArray (shape a) (dftn (-1) a).

Definition ifftn (a : ndarray complex) : ndarray complex :=
  NdArray (shape a) (map (fun z => cdiv_real z (of_nat (size a))) (dftn 1 a)).

(** ** The upsampled DFT by matrix multiplication *)

(** [upsampled_region_size]: one integer or a sequence of integers. *)
Inductive region_size : Type :=
| Int (n : Z)
| Sizes (l : list Z).

(** [im2pi = 1j * 2 * np.pi] *)
Definition im2pi : complex :=
  cmul (cmul (Cx (Fin 0) (Fin 1)) (of_real (Fin 2))) (of_real (Fin PI)).

(** The kernel of one axis:
    [exp(-im2pi * (arange(ups_size) - ax_offset)[:, None]
                 * fftfreq(n_items, upsample_factor))]. *)
Definition kernel (n_items : nat) (ups_size : Z) (ax_offset : float)
           (upsample_factor : R) : list (list complex) :=
  map (fun k =>
         map (fun f => cexp (cmul (cneg im2pi) (of_real (fmul (fsub k ax_offset) f))))
             (fftfreq n_items upsample_factor))
      (arange ups_size).

(** The body of the loop over the axes: the kernel of the axis, contracted
    with the last axis of the running array. *)
Definition contract_axis (upsample_factor : R) (data : ndarray complex)
           (p : nat * (Z * float)) : ndarray complex :=
  let '(n_items, (ups_size, ax_offset)) := p in
  tensordot (kernel n_items ups_size ax_offset upsample_factor) data.

Definition _upsampled_dft (data : ndarray complex)
           (upsampled_region_size : region_size)
           (upsample_factor : R) (axis_offsets : option (list float))
  : result (ndarray complex) :=
  ((* if people pass in an integer, expand it to a list of equal-sized
      sections *)
   upsampled_region_size <-
     match upsampled_region_size with
     | Int n => Return (repeat n (ndim data))
     | Sizes l =>
         if negb (length l =? ndim data)%nat
         then Raise (ValueError region_sizes_mismatch)
         else Return l
     end ;;
   axis_offsets <-
     match axis_offsets with
     | None => Return (repeat (Fin 0) (ndim data))
     | Some l =>
         if negb (length l =? ndim data)%nat
         then Raise (ValueError axis_offsets_mismatch)
         else Return l
     end ;;
   let dim_properties :=
     combine (shape data) (combine upsampled_region_size axis_offsets) in
   Return (fold_left (contract_axis upsample_factor) (rev dim_properties) data)
  )%result.

(** ** Error and phase metrics *)

Definition _compute_phasediff (cross_correlation_max : complex) : float :=
  arctan2 (im cross_correlation_max) (re cross_correlation_max).

Definition _compute_error (cross_correlation_max : complex)
           (src_amp target_amp : float) : float :=
  let error :=
    csub (of_real (Fin 1))
         (cdiv_real (cmul cross_correlation_max (conj cross_correlation_max))
                    (fmul src_amp target_amp)) in
  fsqrt (cabs error).

(** ** The registration entry point *)

(** What [phase_cross_correlation] returns: the shifts alone, or the shifts
    with the error and the phase difference. *)
Inductive output : Type :=
| Shifts (shifts : list float)
| ShiftsErrorPhase (shifts : list float) (error : float) (phasediff : float).

Definition shifts_of (o : output) : list float :=
  match o with Shifts s => s | ShiftsErrorPhase s _ _ => s end.

Definition mask : Type := ndarray bool.

(** The calls that [phase_cross_correlation] makes to the transforms, to the
    masked collaborator and to the helpers of its module, with their
    arguments, in the order in which they are made. *)
Inductive call : Type :=
| call_masked (reference_image moving_image : ndarray complex)
              (reference_mask moving_mask : option mask) (overlap_ratio : float)
| call_fftn (a : ndarray complex)
| call_ifftn (a : ndarray complex)
| call_upsampled_dft (data : ndarray complex) (upsampled_region_size : region_size)
                     (upsample_factor : R) (axis_offsets : option (list float))
| call_compute_error (cross_correlation_max : complex) (src_amp target_amp : float)
| call_compute_phasediff (cross_correlation_max : complex).

(** A computation that logs its calls and returns or raises. *)
Definition M (A : Type) : Type := (list call * result A)%type.

Definition ret {A} (a : A) : M A := ([], Return a).
Definition raise {A} (e : exn) : M A := ([], Raise e).
Definition lift {A} (r : result A) : M A := ([], r).
Definition invoke {A} (c : call) (r : result A) : M A := ([c], r).

Definition bind {A B} (m : M A) (f : A -> M B) : M B :=
  match m with
  | (t, Raise e) => (t, Raise e)
  | (t, Return a) => let (t', r) := f a in (t ++ t', r)
  end.

Declare Scope trace_scope.
Delimit Scope trace_scope with trace.
Notation "x <- m ;; k" := (bind m (fun x => k))
  (at level 61, m at next level, right associativity) : trace_scope.
Notation "' p <- m ;; k" := (bind m (fun x => let p := x in k))
  (at level 61, p pattern, m at next level, right associativity) : trace_scope.

(** [s.lower()] on the ASCII letters. *)
Definition lower_ascii (c : ascii) : ascii :=
  let n := nat_of_ascii c in
  if ((65 <=? n) && (n <=? 90))%nat then ascii_of_nat (n + 32) else c.

Fixpoint lower (s : string) : string :=
  match s with
  | EmptyString => EmptyString
  | String c s' => String (lower_ascii c) (lower s')
  end.

(** [l[i] = v] *)
Fixpoint setitem (l : list float) (i : nat) (v : float) : result (list float) :=
  match l, i with
  | [], _ => Raise IndexError
  | _ :: l', O => Return (v :: l')
  | x :: l', S i' => rbind (setitem l' i' v) (fun r => Return (x :: r))
  end.

(** [sabs = cp.abs(a); sabs *= sabs; sum(sabs)] *)
Definition energy (a : ndarray complex) : float :=
  fsum (map (fun z => let sabs := cabs z in fmul sabs sabs) (data a)).

(** [cp.unravel_index(cp.argmax(cp.abs(a)), a.shape)] *)
Definition locate_maximum (a : ndarray complex) : result (list nat) :=
  rbind (argmax (map cabs (data a))) (fun i => Return (unravel_index i (shape a))).

(** [shifts[shifts > midpoints] -= cp.asarray(shape)[shifts > midpoints]] *)
Definition wrap_shifts (shifts midpoints : list float) (shape : list nat)
  : list float :=
  map (fun p => let '(s, (m, n)) := p in if fgtb s m then fsub s (of_nat n) else s)
      (combine shifts (combine midpoints shape)).

(** One round of the final loop over the axes. *)
Definition zero_step (shape : list nat) (acc : result (list float)) (dim : nat)
  : result (list float) :=
  rbind acc (fun shifts =>
    if (nth dim shape 0 =? 1)%nat then setitem shifts dim (Fin 0)
    else Return shifts).

(** Lines 274-278 of [phase_cross_correlation]: the final pass over the
    axes; a single row or column has shift zero. *)
Definition zero_unit_axes (shape : list nat) (shifts : list float)
  : result (list float) :=
  fold_left (zero_step shape) (seq 0 (length shape)) (Return shifts).

(** Lines 241-264 of [phase_cross_correlation]: the refinement of the
    whole-pixel [shifts] by a matrix-multiply DFT around them.  It yields the
    refined shifts and the peak value [CCmax]. *)
Definition subpixel_refine (image_product : ndarray complex) (shifts : list float)
           (upsample_factor : R) : M (list float * complex) :=
  ((* Initial shift estimate in upsampled grid *)
   let shifts :=
     map (fun s => fdiv (around (fmul s (Fin upsample_factor)))
                        (Fin upsample_factor)) shifts in
   let upsampled_region_size := Rceil (upsample_factor * 1.5) in
   (* Center of output array at dftshift + 1 *)
   let dftshift := fix_ (fdiv (of_Z upsampled_region_size) (Fin 2)) in
   (* Matrix multiply DFT around the current shift estimate *)
   let sample_region_offset :=
     map (fun s => fsub dftshift (fmul s (Fin upsample_factor))) shifts in
   cross_correlation <-
     invoke (call_upsampled_dft (amap conj image_product)
                                (Int upsampled_region_size)
                                upsample_factor
                                (Some sample_region_offset))
            (_upsampled_dft (amap conj image_product)
                            (Int upsampled_region_size)
                            upsample_factor
                            (Some sample_region_offset)) ;;
   let cross_correlation := amap conj cross_correlation in
   (* Locate maximum and map back to original pixel grid *)
   maxima <- lift (locate_maximum cross_correlation) ;;
   let CCmax := item cross_correlation maxima in
   maxima <- lift (stack (map of_nat maxima)) ;;
   let maxima := map (fun m => fsub m dftshift) maxima in
   let shifts :=
     map (fun p => fadd (fst p) (fdiv (snd p) (Fin upsample_factor)))
         (combine shifts maxima) in
   ret (shifts, CCmax))%trace.

(** Lines 215-294 of [phase_cross_correlation]: the registration of the two
    frequency-domain arrays. *)
Definition register (src_freq target_freq : ndarray complex)
           (upsample_factor : R) (return_error : bool) : M output :=
  ((* Whole-pixel shift - Compute cross-correlation by an IFFT *)
   let shape_ := shape src_freq in
   let image_product := amul src_freq (amap conj target_freq) in
   cross_correlation <- invoke (call_ifftn image_product)
                               (Return (ifftn image_product)) ;;
   (* Locate maximum *)
   maxima <- lift (locate_maximum cross_correlation) ;;
   let midpoints :=
     map (fun axis_size => fix_ (fdiv (of_nat axis_size) (Fin 2))) shape_ in
   shifts <- lift (stack (map of_nat maxima)) ;;
   let shifts := wrap_shifts shifts midpoints shape_ in
   '(shifts, CCmax, amps) <-
     (if Reqb upsample_factor 1 then
        if return_error then
          let src_amp := fdiv (energy src_freq) (of_nat (size src_freq)) in
          let target_amp := fdiv (energy target_freq) (of_nat (size target_freq)) in
          let CCmax := item cross_correlation maxima in
          ret (shifts, Some CCmax, Some (src_amp, target_amp))
        else ret (shifts, None, None)
      (* If upsampling > 1, then refine estimate with matrix multiply DFT *)
      else
        '(shifts, CCmax) <- subpixel_refine image_product shifts upsample_factor ;;
        if return_error then
          ret (shifts, Some CCmax, Some (energy src_freq, energy target_freq))
        else ret (shifts, Some CCmax, None)) ;;
   (* If its only one row or column the shift along that dimension has no
      effect. We set to zero. *)
   shifts <- lift (zero_unit_axes shape_ shifts) ;;
   if return_error then
     match CCmax, amps with
     | Some CCmax, Some (src_amp, target_amp) =>
         (* Redirect user to masked_phase_cross_correlation if NaNs are
            observed *)
         if cisnan CCmax || isnan src_amp || isnan target_amp then
           raise (ValueError nan_values_found)
         else
           error <- invoke (call_compute_error CCmax src_amp target_amp)
                           (Return (_compute_error CCmax src_amp target_amp)) ;;
           phasediff <- invoke (call_compute_phasediff CCmax)
                               (Return (_compute_phasediff CCmax)) ;;
           ret (ShiftsErrorPhase shifts error phasediff)
     | _, _ => raise UnboundLocalError
     end
   else ret (Shifts shifts))%trace.

Definition is_not_None {A} (o : option A) : bool :=
  match o with Some _ => true | None => false end.

Definition same_shape (a b : ndarray complex) : bool :=
  if list_eq_dec Nat.eq_dec (shape a) (shape b) then true else false.

(** The type of the masked-registration collaborator: the two images, the
    two masks and the overlap ratio give shifts or an error. *)
Definition masked_registration : Type :=
  ndarray complex -> ndarray complex -> option mask -> option mask -> float ->
  result output.

Section Orchestrator.

(** The masked-registration collaborator (module
    [_masked_phase_cross_correlation] of the repository). *)
Variable _masked_phase_cross_correlation : masked_registration.

Definition phase_cross_correlation
           (reference_image moving_image : ndarray complex)
           (upsample_factor : R) (space : string) (return_error : bool)
           (reference_mask moving_mask : option mask) (overlap_ratio : float)
  : M output :=
  (if is_not_None reference_mask || is_not_None moving_mask then
     invoke (call_masked reference_image moving_image
                         reference_mask moving_mask overlap_ratio)
            (_masked_phase_cross_correlation reference_image moving_image
                                             reference_mask moving_mask
                                             overlap_ratio)
   (* images must be the same shape *)
   else if negb (same_shape reference_image moving_image) then
     raise (ValueError images_not_same_shape)
   else
     (* assume complex data is already in Fourier space *)
     '(src_freq, target_freq) <-
       (if (lower space =? "fourier")%string then
          ret (reference_image, moving_image)
        (* real data needs to be fft'd. *)
        else if (lower space =? "real")%string then
          src_freq <- invoke (call_fftn reference_image)
                             (Return (fftn reference_image)) ;;
          target_freq <- invoke (call_fftn moving_image)
                                (Return (fftn moving_image)) ;;
          ret (src_freq, target_freq)
        else raise (ValueError bad_space_argument)) ;;
     register src_freq target_freq upsample_factor return_error)%trace.

End Orchestrator.

(** * Definitions of the statements *)

(** ** The stages of the registration *)

(** The frequency-domain array of an image: the image itself in the Fourier
    space, its transform otherwise. *)
Definition frequency (space : string) (a : ndarray complex) : ndarray complex :=
  if (lower space =? "fourier")%string then a else fftn a.

(** [midpoints = [np.fix(axis_size / 2) for axis_size in shape]] *)
Definition midpoints_of (s : list nat) : list float :=
  map (fun axis_size => fix_ (fdiv (of_nat axis_size) (Fin 2))) s.

(** The signed shift of a raw peak position [m] on an axis of length [n]:
    [m] up to the midpoint [n // 2], [m - n] beyond it. *)
Definition wrap_index (n m : nat) : Z :=
  if (m <=? n / 2)%nat then Z.of_nat m else (Z.of_nat m - Z.of_nat n)%Z.

(** The whole-pixel shifts of the peak positions [maxima]. *)
Definition coarse_shifts (shape maxima : list nat) : list Z :=
  map (fun p => wrap_index (fst p) (snd p)) (combine shape maxima).

(** The window of the refinement: [ceil(1.5 * upsample_factor)] samples per
    axis, the sample [floor(window / 2)] standing for a zero offset. *)
Definition window_size (upsample_factor : R) : Z := Rceil (1.5 * upsample_factor).
Definition dftshift_of (upsample_factor : R) : Z := (window_size upsample_factor / 2)%Z.

(** The whole-pixel shift [c] on the grid of step [1 / upsample_factor]. *)
Definition snap (upsample_factor : R) (c : Z) : R :=
  IZR (Raround (IZR c * upsample_factor)) / upsample_factor.

(** The refined shift of an axis with whole-pixel shift [c] and peak position
    [p] in the window. *)
Definition refined_shift (upsample_factor : R) (c : Z) (p : nat) : R :=
  snap upsample_factor c
  + (INR p - IZR (dftshift_of upsample_factor)) / upsample_factor.

(** The offsets of the window, [dftshift - shifts * upsample_factor], and the
    call of the upsampled DFT that the refinement makes. *)
Definition region_offsets (upsample_factor : R) (coarse : list Z) : list float :=
  map (fun c => Fin (IZR (dftshift_of upsample_factor)
                     - snap upsample_factor c * upsample_factor)) coarse.

Definition refine_call (upsample_factor : R) (image_product : ndarray complex)
           (coarse : list Z) : call :=
  call_upsampled_dft (amap conj image_product)
                     (Int (window_size upsample_factor)) upsample_factor
                     (Some (region_offsets upsample_factor coarse)).

(** The amplitude of an array as [register] computes it: the mean of the
    energy for the factor 1, its sum otherwise. *)
Definition amplitude (upsample_factor : R) (a : ndarray complex) : float :=
  if Reqb upsample_factor 1 then fdiv (energy a) (of_nat (size a)) else energy a.

(** The last block of [register] (lines 280-294), for the peak value and the
    amplitudes at hand. *)
Definition report (return_error : bool) (shifts : list float) (CCmax : complex)
           (src_amp target_amp : float) : M output :=
  if return_error then
    if cisnan CCmax || isnan src_amp || isnan target_amp then
      raise (ValueError nan_values_found)
    else
      ([call_compute_error CCmax src_amp target_amp; call_compute_phasediff CCmax],
       Return (ShiftsErrorPhase shifts (_compute_error CCmax src_amp target_amp)
                                (_compute_phasediff CCmax)))
  else ret (Shifts shifts).

(** ** Energies *)

(** The squared magnitude of a sample, the energy of an image (the sum over
    all its samples) and its mean over the samples. *)
Definition squared_magnitude (z : complex) : float :=
  fadd (fmul (re z) (re z)) (fmul (im z) (im z)).

Definition sum_energy (a : ndarray complex) : float :=
  fsum (map squared_magnitude (data a)).

Definition mean_energy (a : ndarray complex) : float :=
  fdiv (sum_energy a) (of_nat (size a)).

(** ** Numbers, indices and the transform *)

(** A complex number both parts of which are numbers. *)
Definition finite (z : complex) : Prop := cisnan z = false.

(** An array contains a not-a-number. *)
Definition has_nan (a : ndarray complex) : Prop :=
  Exists (fun z => cisnan z = true) (data a).

(** A multi-index within a shape. *)
Definition valid_index (idx s : list nat) : Prop :=
  Forall2 (fun i n => i < n)%nat idx s.

(** [exp(-2 pi i x)] *)
Definition unit_root (x : R) : complex :=
  Cx (Fin (cos (2 * PI * x))) (Fin (- sin (2 * PI * x))).

(** The integer frequency of the sample [j] of [fftfreq n]. *)
Definition freq_index (n j : nat) : Z :=
  if (j <? Z.to_nat ((Z.of_nat n - 1) / 2 + 1))%nat then Z.of_nat j
  else (Z.of_nat j - Z.of_nat n)%Z.

(** The properties of an axis of length [n] whose region is the axis itself,
    without offset. *)
Definition whole_axis (n : nat) : nat * (Z * float) := (n, (Z.of_nat n, Fin 0)).

(** ** Example inputs *)

(** A collaborator that registers nothing: it returns an empty shift vector. *)
Definition no_masked_registration : masked_registration :=
  fun _ _ _ _ _ => Return (Shifts []).

Definition one : complex := Cx (Fin 1) (Fin 0).
Definition minus_one : complex := Cx (Fin (-1)) (Fin 0).
Definition imag : complex := Cx (Fin 0) (Fin 1).
Definition minus_imag : complex := Cx (Fin 0) (Fin (-1)).

Definition image_1 : ndarray complex := NdArray [1%nat] [one].
Definition image_2 : ndarray complex := NdArray [2%nat] [one; c0].
Definition image_nan : ndarray complex := NdArray [1%nat] [Cx NaN (Fin 0)].
Definition mask_1 : mask := NdArray [1%nat] [true].

(** A row of two pixels: the spectra of a pulse and of the pulse moved by one
    pixel, and the product of the first with the conjugate of the second. *)
Definition spectrum_a : ndarray complex := NdArray [1%nat; 2%nat] [one; one].
Definition spectrum_b : ndarray complex := NdArray [1%nat; 2%nat] [one; minus_one].
Definition product_ab : ndarray complex := amul spectrum_a (amap conj spectrum_b).

(** The window of the refinement of the two spectra by the factor 2. *)
Definition window_ab : ndarray complex :=
  let row := [Cx (Fin 1) (Fin (-1)); Cx (Fin 2) (Fin 0); Cx (Fin 1) (Fin 1)] in
  NdArray [3%nat; 3%nat] (row ++ row ++ row).

(** ** The arguments and the entries of the upsampled DFT *)

(** The sequences of region sizes and of offsets hold one entry per axis of
    the data; one integer and [None] always fit. *)
Definition region_sizes_fit (data : ndarray complex) (r : region_size) : bool :=
  match r with Int _ => true | Sizes l => (length l =? ndim data)%nat end.

Definition axis_offsets_fit (data : ndarray complex) (o : option (list float)) : bool :=
  match o with None => true | Some l => (length l =? ndim data)%nat end.

(** The region size of every axis. *)
Definition region_sizes_of (data : ndarray complex) (r : region_size) : list Z :=
  match r with Int n => repeat n (ndim data) | Sizes l => l end.

(** The phase of the sample [j] in the entry [k] of the upsampled DFT, in
    turns: the sum over the axes of [(k - offset) * f], where
    [f = freq_index n j / n / upsample_factor] is the frequency of the sample
    on an axis of length [n]. *)
Definition upsampled_phase (upsample_factor : R) (s : list nat) (offsets : list R)
           (k j : list nat) : R :=
  fold_right Rplus 0
    (map (fun p => let '(n, (off, (k, j))) := p in
                   (INR k - off) * (IZR (freq_index n j) / INR n / upsample_factor))
         (combine s (combine offsets (combine k j)))).
(** ** Numbers as reals *)

(** The two parts and the squared magnitude of a complex number as reals
    (zero in the place of a not-a-number), and the sum of a real function
    over a list. *)
Definition Rre (z : complex) : R := match re z with Fin x => x | NaN => 0 end.
Definition Rim (z : complex) : R := match im z with Fin y => y | NaN => 0 end.
Definition magnitude2 (z : complex) : R := Rre z * Rre z + Rim z * Rim z.
Definition Rsum {A} (f : A -> R) (l : list A) : R := fold_right Rplus 0 (map f l).
(** ** Translations *)

(** The spectrum of an image moved by [d] pixels along the axes, from the
    spectrum [a] of the image (the shift theorem): the entry [j] is turned by
    [exp(-2 pi i * sum_a d_a j_a / n_a)]. *)
Definition translated (a : ndarray complex) (d : list nat) : ndarray complex :=
  NdArray (shape a)
          (map (fun j => cmul (item a j) (unit_root (dft_phase (shape a) d j)))
               (indices (shape a))).

(** [(k + d) mod n] and [(n - d) mod n], axis by axis. *)
Definition shift_index (s k d : list nat) : list nat :=
  map (fun p => ((fst (snd p) + snd (snd p)) mod fst p)%nat) (combine s (combine k d)).

Definition translation_peak (s d : list nat) : list nat :=
  map (fun p => ((fst p - snd p) mod fst p)%nat) (combine s d).

(** The magnitude of a complex number, as a real. *)
Definition magnitude (z : complex) : R := sqrt (magnitude2 z).

(** [(k - offset) mod n], axis by axis. *)
Definition offset_index (s k : list nat) (offsets : list Z) : list nat :=
  map (fun p => Z.to_nat ((Z.of_nat (fst (snd p)) - snd (snd p)) mod Z.of_nat (fst p)))
      (combine s (combine k offsets)).
(** * Properties *)

(** ** Dispatch and validation *)

Lemma same_shape_false (a b : ndarray complex) :
  shape a <> shape b -> same_shape a b = false.
Proof.
  intros H; unfold same_shape.
  destruct (list_eq_dec Nat.eq_dec (shape a) (shape b)); congruence.
Qed.

Lemma same_shape_true (a b : ndarray complex) :
  shape a = shape b -> same_shape a b = true.
Proof.
  intros H; unfold same_shape.
  destruct (list_eq_dec Nat.eq_dec (shape a) (shape b)); congruence.
Qed.

Lemma unmasked_shape_mismatch
  (masked : masked_registration)
  (reference_image moving_image : ndarray complex)
  (upsample_factor : R) (space : string) (return_error : bool)
  (overlap_ratio : float) :
  shape reference_image <> shape moving_image ->
  phase_cross_correlation masked reference_image moving_image upsample_factor
                          space return_error None None overlap_ratio
  = ([], Raise (ValueError images_not_same_shape)).
Proof.
  intros Hne. unfold phase_cross_correlation. cbn [is_not_None orb].
  rewrite (same_shape_false _ _ Hne). reflexivity.
Qed.

(** C7.  Two images of different shapes, no masks: the call raises the
    shape-mismatch error, whatever the upsampling factor, the space and the
    error flag are, and it has called no transform, no helper and no
    collaborator before (its log of calls is empty). *)
Theorem shape_mismatch_raises_first
  (masked : masked_registration)
  (reference_image moving_image : ndarray complex)
  (upsample_factor : R) (space : string) (return_error : bool)
  (overlap_ratio : float) :
  shape reference_image <> shape moving_image ->
  phase_cross_correlation masked reference_image moving_image upsample_factor
                          space return_error None None overlap_ratio
  = ([], Raise (ValueError images_not_same_shape)).
Proof. apply unmasked_shape_mismatch. Qed.

Lemma shape_mismatch_raises_first_witness :
  shape image_1 <> shape image_2 /\
  phase_cross_correlation no_masked_registration image_1 image_2 20 "real" true
                          None None (Fin 0.3)
  = ([], Raise (ValueError images_not_same_shape)).
Proof.
  assert (H : shape image_1 <> shape image_2) by (simpl; discriminate).
  split; [exact H | apply (shape_mismatch_raises_first _ _ _ _ _ _ _ H)].
Defined.

(** C9.  As soon as one of the masks is given, the call is the call of the
    masked collaborator on the two images, the two masks and the overlap
    ratio: that is the only call made and its result (a value or an error) is
    returned as it is, whatever the shapes, the upsampling factor, the space
    and the error flag are. *)
Theorem masks_dispatch_to_collaborator
  (masked : masked_registration)
  (reference_image moving_image : ndarray complex)
  (upsample_factor : R) (space : string) (return_error : bool)
  (reference_mask moving_mask : option mask) (overlap_ratio : float) :
  reference_mask <> None \/ moving_mask <> None ->
  phase_cross_correlation masked reference_image moving_image upsample_factor
                          space return_error reference_mask moving_mask
                          overlap_ratio
  = ([call_masked reference_image moving_image reference_mask moving_mask
                  overlap_ratio],
     masked reference_image moving_image reference_mask moving_mask
            overlap_ratio).
Proof.
  intros H. unfold phase_cross_correlation.
  destruct reference_mask, moving_mask; cbn [is_not_None orb]; try reflexivity.
  destruct H; congruence.
Qed.

Lemma masks_dispatch_to_collaborator_witness :
  (Some mask_1 <> None \/ @None mask <> None) /\
  phase_cross_correlation no_masked_registration image_1 image_2 20 "polar" false
                          (Some mask_1) None (Fin 0.3)
  = ([call_masked image_1 image_2 (Some mask_1) None (Fin 0.3)],
     no_masked_registration image_1 image_2 (Some mask_1) None (Fin 0.3)).
Proof.
  assert (H : Some mask_1 <> None \/ @None mask <> None) by (left; discriminate).
  split; [exact H | apply (masks_dispatch_to_collaborator _ _ _ _ _ _ _ _ _ H)].
Defined.

Lemma bind_invoke {A B} (c : call) (a : A) (f : A -> M B) :
  bind (invoke c (Return a)) f = (c :: fst (f a), snd (f a)).
Proof. unfold bind, invoke. destruct (f a); reflexivity. Qed.

Lemma bind_ret {A B} (a : A) (f : A -> M B) : bind (ret a) f = f a.
Proof. unfold bind, ret. destruct (f a); reflexivity. Qed.

Lemma bind_lift_Return {A B} (a : A) (f : A -> M B) : bind (lift (Return a)) f = f a.
Proof. exact (bind_ret a f). Qed.

Lemma bind_lift_Raise {A B} (e : exn) (f : A -> M B) :
  bind (lift (Raise e)) f = ([], Raise e).
Proof. reflexivity. Qed.

Lemma register_first_call (src_freq target_freq : ndarray complex)
      (upsample_factor : R) (return_error : bool) :
  exists rest,
    fst (register src_freq target_freq upsample_factor return_error)
    = call_ifftn (amul src_freq (amap conj target_freq)) :: rest.
Proof.
  unfold register. rewrite bind_invoke. cbn [fst]. eexists; reflexivity.
Qed.

(** C8, as it is stated, fails on images of different shapes: an unknown
    space is not reported, the shape-mismatch error is; and for the space
    ["real"] no image is transformed, the call raises the shape-mismatch
    error with an empty log. *)
Lemma bad_space_after_shape_check :
  shape image_1 <> shape image_2 /\
  lower "polar" <> "fourier"%string /\
  lower "polar" <> "real"%string /\
  phase_cross_correlation no_masked_registration image_1 image_2 1 "polar" true
                          None None (Fin 0.3)
  = ([], Raise (ValueError images_not_same_shape)) /\
  phase_cross_correlation no_masked_registration image_1 image_2 1 "polar" true
                          None None (Fin 0.3)
  <> ([], Raise (ValueError bad_space_argument)) /\
  phase_cross_correlation no_masked_registration image_1 image_2 1 "real" true
                          None None (Fin 0.3)
  = ([], Raise (ValueError images_not_same_shape)) /\
  ~ In (call_fftn image_1)
       (fst (phase_cross_correlation no_masked_registration image_1 image_2 1
                                     "real" true None None (Fin 0.3))).
Proof.
  assert (Hs : shape image_1 <> shape image_2) by (simpl; discriminate).
  pose proof (unmasked_shape_mismatch no_masked_registration image_1 image_2 1
                "polar" true (Fin 0.3) Hs) as E.
  pose proof (unmasked_shape_mismatch no_masked_registration image_1 image_2 1
                "real" true (Fin 0.3) Hs) as E'.
  split; [exact Hs|].
  split; [vm_compute; discriminate|].
  split; [vm_compute; discriminate|].
  split; [exact E|]. split; [rewrite E; discriminate|].
  split; [exact E'|]. rewrite E'. intros [].
Qed.

(** C8, amended.  Without masks and with two images of one shape, the
    space, put in lower case, decides how the call goes on.
    For ["fourier"] the two images are taken as they are for the
    frequency-domain arrays: no forward transform is called and the first
    call is the inverse transform of [reference * conj(moving)].
    For ["real"] the two images are transformed first, the reference before
    the moving image, and the registration goes on with the transforms.
    For anything else the call raises the error of the space argument and has
    made no call before. *)
Theorem space_argument_decides
  (masked : masked_registration)
  (reference_image moving_image : ndarray complex)
  (upsample_factor : R) (space : string) (return_error : bool)
  (overlap_ratio : float) :
  shape reference_image = shape moving_image ->
  let run := phase_cross_correlation masked reference_image moving_image
               upsample_factor space return_error None None overlap_ratio in
  (lower space = "fourier"%string ->
     run = register reference_image moving_image upsample_factor return_error /\
     exists rest,
       fst run = call_ifftn (amul reference_image (amap conj moving_image)) :: rest)
  /\
  (lower space = "real"%string ->
     snd run = snd (register (fftn reference_image) (fftn moving_image)
                             upsample_factor return_error) /\
     exists rest,
       fst run = call_fftn reference_image :: call_fftn moving_image
                 :: call_ifftn (amul (fftn reference_image)
                                     (amap conj (fftn moving_image))) :: rest)
  /\
  (lower space <> "fourier"%string -> lower space <> "real"%string ->
     run = ([], Raise (ValueError bad_space_argument))).
Proof.
  intros Hs run. subst run. unfold phase_cross_correlation.
  cbn [is_not_None orb]. rewrite (same_shape_true _ _ Hs). cbn [negb].
  split; [|split].
  - intros E. rewrite E. cbn [String.eqb Ascii.eqb Bool.eqb]. rewrite bind_ret.
    split; [reflexivity | apply register_first_call].
  - intros E. rewrite E. cbn [String.eqb Ascii.eqb Bool.eqb].
    destruct (register_first_call (fftn reference_image) (fftn moving_image)
                upsample_factor return_error) as [rest E'].
    cbv [bind invoke ret].
    destruct (register (fftn reference_image) (fftn moving_image)
                upsample_factor return_error) as [t r].
    cbn [fst snd app] in *. split; [reflexivity|].
    exists rest. rewrite E'. reflexivity.
  - intros Hf Hr.
    destruct (String.eqb_spec (lower space) "fourier"); [contradiction|].
    destruct (String.eqb_spec (lower space) "real"); [contradiction|].
    reflexivity.
Qed.

Lemma space_argument_decides_witness :
  shape image_1 = shape image_1 /\
  lower "Fourier" = "fourier"%string /\
  lower "REAL" = "real"%string /\
  lower "polar" <> "fourier"%string /\
  lower "polar" <> "real"%string /\
  phase_cross_correlation no_masked_registration image_1 image_1 1 "Fourier"
                          false None None (Fin 0.3)
  = register image_1 image_1 1 false /\
  snd (phase_cross_correlation no_masked_registration image_1 image_1 1 "REAL"
                               false None None (Fin 0.3))
  = snd (register (fftn image_1) (fftn image_1) 1 false) /\
  phase_cross_correlation no_masked_registration image_1 image_1 1 "polar"
                          false None None (Fin 0.3)
  = ([], Raise (ValueError bad_space_argument)).
Proof.
  assert (Hf : lower "polar" <> "fourier"%string) by (vm_compute; discriminate).
  assert (Hr : lower "polar" <> "real"%string) by (vm_compute; discriminate).
  split; [reflexivity|]. split; [reflexivity|]. split; [reflexivity|].
  split; [exact Hf|]. split; [exact Hr|].
  split; [|split].
  - apply (space_argument_decides no_masked_registration image_1 image_1 1
             "Fourier" false (Fin 0.3) eq_refl). reflexivity.
  - apply (space_argument_decides no_masked_registration image_1 image_1 1
             "REAL" false (Fin 0.3) eq_refl). reflexivity.
  - apply (space_argument_decides no_masked_registration image_1 image_1 1
             "polar" false (Fin 0.3) eq_refl); assumption.
Defined.

(** ** Scalar facts *)

Lemma Rltb_true x y : x < y -> Rltb x y = true.
Proof. intros; unfold Rltb; destruct (Rlt_dec x y); [reflexivity | contradiction]. Qed.

Lemma Rltb_false x y : y <= x -> Rltb x y = false.
Proof. intros; unfold Rltb; destruct (Rlt_dec x y); [lra | reflexivity]. Qed.

Lemma Rleb_true x y : x <= y -> Rleb x y = true.
Proof. intros; unfold Rleb; destruct (Rle_dec x y); [reflexivity | contradiction]. Qed.

Lemma Rleb_false x y : y < x -> Rleb x y = false.
Proof. intros; unfold Rleb; destruct (Rle_dec x y); [lra | reflexivity]. Qed.

Lemma Reqb_true x y : x = y -> Reqb x y = true.
Proof.
  intros; unfold Reqb; destruct (Req_dec_T x y); [reflexivity | contradiction].
Qed.

Lemma Reqb_false x y : x <> y -> Reqb x y = false.
Proof.
  intros; unfold Reqb; destruct (Req_dec_T x y); [contradiction | reflexivity].
Qed.

Lemma fdiv_Fin x y : y <> 0 -> fdiv (Fin x) (Fin y) = Fin (x / y).
Proof. intros H; unfold fdiv; rewrite (Reqb_false _ _ H); reflexivity. Qed.

Lemma fsqrt_Fin x : 0 <= x -> fsqrt (Fin x) = Fin (sqrt x).
Proof. intros H; unfold fsqrt; rewrite (Rltb_false _ _ H); reflexivity. Qed.

Lemma cabs_Fin x y : cabs (Cx (Fin x) (Fin y)) = Fin (sqrt (x * x + y * y)).
Proof.
  unfold cabs; cbn [re im fmul fadd lift2]. apply fsqrt_Fin. nra.
Qed.

(** ** The error metric *)

(** C6.  For a peak value [a + i b] and positive amplitudes the error is
    [sqrt |1 - CCmax conj(CCmax) / (src_amp target_amp)|], where
    [CCmax conj(CCmax)] is [a a + b b]: the square root is taken of an
    absolute value, it is defined and the error is a number that is not
    negative, also where [1 - CCmax conj(CCmax) / (src_amp target_amp)] is
    negative. *)
Theorem compute_error_is_rms (a b src_amp target_amp : R) :
  0 < src_amp -> 0 < target_amp ->
  let arg := 1 - (a * a + b * b) / (src_amp * target_amp) in
  _compute_error (Cx (Fin a) (Fin b)) (Fin src_amp) (Fin target_amp)
  = Fin (sqrt (Rabs arg))
  /\ 0 <= Rabs arg /\ 0 <= sqrt (Rabs arg).
Proof.
  intros Hs Ht arg.
  assert (Hst : src_amp * target_amp <> 0) by nra.
  split; [| split; [apply Rabs_pos | apply sqrt_pos]].
  unfold _compute_error, cmul, conj, cdiv_real, csub, of_real.
  cbn [re im fmul fsub fadd fneg lift1 lift2].
  rewrite !fdiv_Fin by assumption.
  cbn [re im fmul fsub fadd fneg lift1 lift2]. rewrite cabs_Fin.
  rewrite fsqrt_Fin by apply sqrt_pos.
  do 2 f_equal.
  replace ((0 - (a * - b + b * a) / (src_amp * target_amp))) with 0
    by (field; split; lra).
  replace (1 - (a * a - b * - b) / (src_amp * target_amp)) with arg
    by (unfold arg; field; split; lra).
  replace (arg * arg + 0 * 0) with (Rsqr arg) by (unfold Rsqr; ring).
  apply sqrt_Rsqr_abs.
Qed.

Lemma compute_error_is_rms_witness :
  0 < 1 /\ 0 < 1 /\
  _compute_error (Cx (Fin 2) (Fin 0)) (Fin 1) (Fin 1)
  = Fin (sqrt (Rabs (1 - (2 * 2 + 0 * 0) / (1 * 1)))) /\
  1 - (2 * 2 + 0 * 0) / (1 * 1) < 0.
Proof.
  assert (H1 : 0 < 1) by lra.
  split; [exact H1|]. split; [exact H1|].
  split; [apply (compute_error_is_rms 2 0 1 1 H1 H1) | lra].
Defined.

(** ** The monad of logged calls *)


Lemma bind_Return {A B} (m : M A) (f : A -> M B) t b :
  bind m f = (t, Return b) ->
  exists t1 a t2, m = (t1, Return a) /\ f a = (t2, Return b) /\ t = t1 ++ t2.
Proof.
  unfold bind. destruct m as [t1 [e|a]]; [discriminate|].
  destruct (f a) as [t2 r] eqn:E. intros H; inversion H; subst.
  exists t1, a, t2. auto.
Qed.

Lemma bind_lift_inv {A B} (r : result A) (f : A -> M B) t b :
  bind (lift r) f = (t, Return b) -> exists a, r = Return a /\ f a = (t, Return b).
Proof.
  destruct r as [e|a]; [discriminate|]. rewrite bind_lift_Return. eauto.
Qed.

Lemma bind_invoke_inv {A B} c (r : result A) (f : A -> M B) t b :
  bind (invoke c r) f = (t, Return b) ->
  exists a t', r = Return a /\ f a = (t', Return b) /\ t = c :: t'.
Proof.
  destruct r as [e|a]; [discriminate|]. rewrite bind_invoke.
  destruct (f a) as [t' r'] eqn:E. cbn. intros H; inversion H; subst. eauto.
Qed.

Lemma stack_Return l l' : stack l = Return l' -> l' = l /\ l <> [].
Proof.
  destruct l; cbn; [discriminate|].
  intros H; inversion H; split; [reflexivity | discriminate].
Qed.

Lemma register_Return src tgt uf re t out :
  register src tgt uf re = (t, Return out) ->
  let product := amul src (amap conj tgt) in
  let cc := ifftn product in
  exists maxima pre CC t1 shifts,
    locate_maximum cc = Return maxima /\ maxima <> [] /\
    let coarse :=
      wrap_shifts (map of_nat maxima) (midpoints_of (shape src)) (shape src) in
    ((uf = 1 /\ pre = coarse /\ CC = item cc maxima /\ t1 = [])
     \/ (uf <> 1 /\ subpixel_refine product coarse uf = (t1, Return (pre, CC)))) /\
    zero_unit_axes (shape src) pre = Return shifts /\
    ((re = false /\ out = Shifts shifts /\ t = call_ifftn product :: t1)
     \/ (re = true /\
         let src_amp := amplitude uf src in
         let target_amp := amplitude uf tgt in
         cisnan CC || isnan src_amp || isnan target_amp = false /\
         out = ShiftsErrorPhase shifts (_compute_error CC src_amp target_amp)
                                (_compute_phasediff CC) /\
         t = call_ifftn product
             :: t1 ++ [call_compute_error CC src_amp target_amp;
                       call_compute_phasediff CC])).
Proof.
  intros H product cc. unfold amplitude. unfold register in H.
  fold product cc in H.
  apply bind_invoke_inv in H as (a & t' & Ha & H & ->).
  inversion Ha; subst a; clear Ha.
  apply bind_lift_inv in H as (maxima & Hloc & H).
  apply bind_lift_inv in H as (st & Hst & H).
  apply stack_Return in Hst as [-> Hne].
  fold (midpoints_of (shape src)) in H.
  set (coarse := wrap_shifts _ _ _) in *.
  apply bind_Return in H as (t1 & [[pre oCC] amps] & t4 & Hbr & H & ->).
  apply bind_lift_inv in H as (shifts & Hz & H).
  assert (Hmax : maxima <> []) by (intros ->; apply Hne; reflexivity).
  destruct (Reqb uf 1) eqn:Euf.
  - assert (uf = 1) by (unfold Reqb in Euf; destruct (Req_dec_T uf 1); congruence).
    destruct re.
    + inversion Hbr; subst; clear Hbr.
      destruct (cisnan _ || _ || _) eqn:En; [discriminate|].
      apply bind_invoke_inv in H as (a & t' & Ha & H & ->).
      inversion Ha; subst a; clear Ha.
      apply bind_invoke_inv in H as (a & t'' & Ha & H & ->).
      inversion Ha; subst a; clear Ha.
      inversion H; subst.
      exists maxima, coarse, (item cc maxima), [], shifts.
      repeat split; auto 7.
    + inversion Hbr; subst; clear Hbr. inversion H; subst.
      exists maxima, coarse, (item cc maxima), [], shifts.
      repeat split; auto.
  - assert (uf <> 1) by (unfold Reqb in Euf; destruct (Req_dec_T uf 1); congruence).
    apply bind_Return in Hbr as (t0 & [pre' CC] & t5 & Href & Hbr & ->).
    destruct re.
    + inversion Hbr; subst; clear Hbr.
      destruct (cisnan _ || _ || _) eqn:En; [discriminate|].
      apply bind_invoke_inv in H as (a & t' & Ha & H & ->).
      inversion Ha; subst a; clear Ha.
      apply bind_invoke_inv in H as (a & t'' & Ha & H & ->).
      inversion Ha; subst a; clear Ha.
      inversion H; subst.
      exists maxima, pre, CC, t0, shifts. rewrite app_nil_r.
      repeat split; auto 7.
    + inversion Hbr; subst; clear Hbr. inversion H; subst.
      exists maxima, pre, CC, t0, shifts. rewrite !app_nil_r.
      repeat split; auto.
Qed.

(** ** The final pass over the unit axes *)


Lemma setitem_Return l i v l' :
  setitem l i v = Return l' ->
  (i < length l)%nat /\ length l' = length l /\
  nth_error l' i = Some v /\
  forall j, j <> i -> nth_error l' j = nth_error l j.
Proof.
  revert i l'. induction l as [|x l IH]; intros i l' H; [discriminate|].
  destruct i as [|i]; cbn in H.
  - inversion H; subst. cbn. repeat split; [lia|].
    intros [|j] Hj; [congruence | reflexivity].
  - destruct (setitem l i v) as [e|r] eqn:E; [discriminate|].
    cbn in H. inversion H; subst.
    destruct (IH _ _ E) as (Hi & Hl & Hv & Ho).
    cbn. repeat split; [lia | lia | exact Hv |].
    intros [|j] Hj; [reflexivity|]. cbn. apply Ho. lia.
Qed.

Lemma setitem_total l i v :
  (i < length l)%nat -> exists l', setitem l i v = Return l'.
Proof.
  revert i. induction l as [|x l IH]; intros i Hi; cbn in Hi; [lia|].
  destruct i as [|i]; cbn; [eauto|].
  destruct (IH i) as [l' E]; [lia|]. rewrite E. cbn. eauto.
Qed.

Lemma zero_fold_Raise shape dims e :
  fold_left (zero_step shape) dims (Raise e) = Raise e.
Proof. induction dims as [|d dims IH]; [reflexivity | exact IH]. Qed.

Lemma zero_fold_Return shape n : forall a l l',
  fold_left (zero_step shape) (seq a n) (Return l) = Return l' ->
  length l' = length l /\
  forall dim,
    ((a <= dim < a + n)%nat -> nth dim shape 0%nat = 1%nat ->
       nth_error l' dim = Some (Fin 0)) /\
    (~ ((a <= dim < a + n)%nat /\ nth dim shape 0%nat = 1%nat) ->
       nth_error l' dim = nth_error l dim).
Proof.
  induction n as [|n IH]; intros a l l' H; cbn in H.
  - inversion H; subst. split; [reflexivity|]. intros dim; split; [lia | reflexivity].
  - destruct (nth a shape 0 =? 1)%nat eqn:E.
    + destruct (setitem l a (Fin 0)) as [e|l1] eqn:Es.
      * rewrite zero_fold_Raise in H. discriminate.
      * apply IH in H as (Hl & Hd).
        apply setitem_Return in Es as (Ha & Hl1 & Hv & Ho).
        split; [congruence|]. intros dim. destruct (Hd dim) as [Hd1 Hd2]. split.
        -- intros Hr H1. destruct (Nat.eq_dec dim a) as [->|Hne].
           ++ rewrite Hd2 by lia. exact Hv.
           ++ apply Hd1; [lia | exact H1].
        -- intros Hn. apply Nat.eqb_eq in E.
           assert (dim <> a) by (intros ->; apply Hn; split; [lia | exact E]).
           rewrite Hd2; [apply Ho; assumption|].
           intros [? ?]; apply Hn; split; [lia | assumption].
    + apply IH in H as (Hl & Hd). split; [exact Hl|].
      intros dim. destruct (Hd dim) as [Hd1 Hd2]. apply Nat.eqb_neq in E. split.
      * intros Hr H1. apply Hd1; [|exact H1].
        destruct (Nat.eq_dec dim a) as [->|]; [contradiction | lia].
      * intros Hn. apply Hd2. intros [? ?]; apply Hn; split; [lia|assumption].
Qed.

Lemma zero_unit_axes_Return shape l l' :
  zero_unit_axes shape l = Return l' ->
  length l' = length l /\
  forall dim,
    (nth_error shape dim = Some 1%nat -> nth_error l' dim = Some (Fin 0)) /\
    (nth_error shape dim <> Some 1%nat -> nth_error l' dim = nth_error l dim).
Proof.
  intros H. apply zero_fold_Return in H as (Hl & Hd). split; [exact Hl|].
  intros dim. destruct (Hd dim) as [H1 H2]. split.
  - intros E. assert (dim < length shape)%nat by (apply nth_error_Some; congruence).
    apply H1; [lia|]. apply nth_error_nth with (d := 0%nat) in E. exact E.
  - intros E. apply H2. intros [Hr E1]. apply E.
    rewrite (nth_error_nth' shape 0%nat) by lia. congruence.
Qed.

Lemma zero_fold_total shape n : forall a l,
  (a + n <= length l)%nat ->
  exists l', fold_left (zero_step shape) (seq a n) (Return l) = Return l'.
Proof.
  induction n as [|n IH]; intros a l H; cbn; [eauto|].
  destruct (nth a shape 0 =? 1)%nat.
  - destruct (setitem_total l a (Fin 0)) as [l1 E]; [lia|]. rewrite E.
    apply IH. apply setitem_Return in E as (_ & Hl & _). lia.
  - apply IH. lia.
Qed.

Lemma zero_unit_axes_total shape l :
  (length shape <= length l)%nat -> exists l', zero_unit_axes shape l = Return l'.
Proof. intros H. apply zero_fold_total. lia. Qed.

(** ** Rounding and the wrap-around of peak positions *)


Lemma Rfloor_spec x z : IZR z <= x < IZR z + 1 -> Rfloor x = z.
Proof. intros H. unfold Rfloor. symmetry. apply Int_part_spec. lra. Qed.

Lemma Rfloor_bounds x : IZR (Rfloor x) <= x < IZR (Rfloor x) + 1.
Proof. unfold Rfloor. destruct (base_Int_part x). lra. Qed.

Lemma Rceil_spec x z : IZR z - 1 < x <= IZR z -> Rceil x = z.
Proof.
  intros H. unfold Rceil. change (Int_part (- x)) with (Rfloor (- x)).
  rewrite (Rfloor_spec (- x) (- z)); [lia|]. rewrite opp_IZR. lra.
Qed.

Lemma Rfix_half (n : nat) : Rfix (INR n / 2) = Z.of_nat (n / 2).
Proof.
  unfold Rfix. rewrite Rleb_true by (pose proof (pos_INR n); lra).
  apply Rfloor_spec.
  pose proof (Nat.div_mod_eq n 2) as E.
  pose proof (Nat.mod_upper_bound n 2 ltac:(discriminate)) as B.
  rewrite <- INR_IZR_INZ.
  assert (En : INR n = 2 * INR (n / 2) + INR (n mod 2)).
  { rewrite E at 1. rewrite plus_INR, mult_INR. change (INR 2) with (1 + 1). lra. }
  assert (0 <= INR (n mod 2) < 2).
  { split; [apply pos_INR|]. apply (lt_INR _ 2) in B.
    change (INR 2) with (1 + 1) in B. lra. }
  lra.
Qed.

Lemma wrap_index_range n m :
  (m < n)%nat ->
  (Z.of_nat n / 2 - Z.of_nat n + 1 <= wrap_index n m <= Z.of_nat n / 2)%Z.
Proof.
  intros H. unfold wrap_index.
  replace (Z.of_nat n / 2)%Z with (Z.of_nat (n / 2))
    by (rewrite Nat2Z.inj_div; reflexivity).
  pose proof (Nat.div_mod_eq n 2) as E.
  pose proof (Nat.mod_upper_bound n 2 ltac:(discriminate)) as B.
  generalize dependent (n / 2)%nat. generalize dependent (n mod 2)%nat.
  intros r B q E. destruct (Nat.leb_spec m q); lia.
Qed.

Lemma wrap_one n m :
  (let '(s, (mid, k)) := (of_nat m, (fix_ (fdiv (of_nat n) (Fin 2)), n)) in
   if fgtb s mid then fsub s (of_nat k) else s) = Fin (IZR (wrap_index n m)).
Proof.
  cbv beta iota zeta. unfold of_nat. rewrite fdiv_Fin by lra.
  cbn [fix_ lift1 fgtb].
  rewrite Rfix_half. unfold wrap_index.
  destruct (Nat.leb_spec m (n / 2)) as [L|L].
  - rewrite Rltb_false; [rewrite <- INR_IZR_INZ; reflexivity|].
    rewrite <- INR_IZR_INZ. apply le_INR. exact L.
  - rewrite Rltb_true; [|rewrite <- INR_IZR_INZ; apply lt_INR; exact L].
    cbn. rewrite minus_IZR, <- !INR_IZR_INZ. reflexivity.
Qed.

Lemma wrap_shifts_nth shape : forall maxima k n m,
  nth_error shape k = Some n -> nth_error maxima k = Some m ->
  nth_error (wrap_shifts (map of_nat maxima) (midpoints_of shape) shape) k
  = Some (Fin (IZR (wrap_index n m))).
Proof.
  unfold midpoints_of.
  induction shape as [|a shape IH]; intros maxima k n m Hs Hm.
  - destruct k; discriminate.
  - destruct maxima as [|b maxima]; [destruct k; discriminate|].
    destruct k as [|k]; cbn in Hs, Hm.
    + inversion Hs; inversion Hm; subst. cbn [map combine wrap_shifts nth_error].
      f_equal. apply wrap_one.
    + cbn [map combine wrap_shifts nth_error]. apply (IH maxima k n m Hs Hm).
Qed.

(** ** Peak location *)


Lemma argmax_from_lt l : forall best bv i,
  (best < i)%nat -> (argmax_from best bv i l < i + length l)%nat.
Proof.
  induction l as [|x l IH]; intros best bv i H; cbn; [lia|].
  destruct (better x bv).
  - specialize (IH i x (S i)). lia.
  - specialize (IH best bv (S i)). lia.
Qed.

Lemma argmax_lt l i : argmax l = Return i -> (i < length l)%nat.
Proof.
  destruct l as [|x l]; cbn; [discriminate|]. intros H; inversion H; subst.
  pose proof (argmax_from_lt l 0%nat x 1%nat). lia.
Qed.

Lemma argmax_total l : l <> [] -> exists i, argmax l = Return i.
Proof. destruct l; [congruence | cbn; eauto]. Qed.

Lemma indices_length s : length (indices s) = prod_shape s.
Proof.
  induction s as [|n s IH]; [reflexivity|]. cbn [indices prod_shape fold_right].
  fold (prod_shape s). rewrite <- IH. generalize 0%nat.
  induction n as [|n IHn]; intros a; cbn; [reflexivity|].
  rewrite length_app, length_map, IHn. reflexivity.
Qed.

Lemma prod_shape_pos s : (0 < prod_shape s)%nat -> Forall (fun n => 0 < n)%nat s.
Proof.
  induction s as [|n s IH]; intros H; constructor; cbn in H;
    fold (prod_shape s) in H; [|apply IH]; destruct n; cbn in H; lia.
Qed.

Lemma unravel_rev_bound rs : forall i,
  Forall (fun n => 0 < n)%nat rs ->
  Forall2 (fun m n => m < n)%nat (unravel_rev i rs) rs.
Proof.
  induction rs as [|d rs IH]; intros i H; cbn; constructor.
  - inversion H; subst. apply Nat.mod_upper_bound. lia.
  - apply IH. inversion H; assumption.
Qed.

Lemma Forall2_rev {A B} (P : A -> B -> Prop) l1 l2 :
  Forall2 P l1 l2 -> Forall2 P (rev l1) (rev l2).
Proof.
  induction 1; cbn; [constructor|]. apply Forall2_app; [assumption|].
  constructor; [assumption | constructor].
Qed.

Lemma unravel_index_bound i s :
  Forall (fun n => 0 < n)%nat s ->
  Forall2 (fun m n => m < n)%nat (unravel_index i s) s.
Proof.
  intros H. unfold unravel_index. rewrite <- (rev_involutive s) at 2.
  apply Forall2_rev, unravel_rev_bound, Forall_rev, H.
Qed.

Lemma Forall2_nth_error_r {A B} (P : A -> B -> Prop) l1 l2 :
  Forall2 P l1 l2 -> forall k b, nth_error l2 k = Some b ->
  exists a, nth_error l1 k = Some a /\ P a b.
Proof.
  induction 1; intros k c Hk; [destruct k; discriminate|].
  destruct k as [|k]; cbn in *; [inversion Hk; subst; eauto | eauto].
Qed.

Lemma dftn_length sign a : length (dftn sign a) = size a.
Proof. unfold dftn. rewrite length_map. apply indices_length. Qed.

Lemma locate_maximum_bound (a : ndarray complex) maxima :
  wf a -> locate_maximum a = Return maxima ->
  Forall2 (fun m n => m < n)%nat maxima (shape a).
Proof.
  unfold wf, locate_maximum. intros Hwf H.
  destruct (argmax (map cabs (data a))) as [e|i] eqn:E; [discriminate|].
  cbn in H. inversion H; subst. apply argmax_lt in E. rewrite length_map in E.
  apply unravel_index_bound, prod_shape_pos. unfold size in Hwf. lia.
Qed.

Lemma wf_ifftn a : wf (ifftn a).
Proof. unfold wf, ifftn, size. cbn. rewrite length_map. apply dftn_length. Qed.

Lemma wf_fftn a : wf (fftn a).
Proof. unfold wf, fftn, size. cbn. apply dftn_length. Qed.

(** ** The shifts of a call without masks *)


Lemma shape_frequency space a : shape (frequency space a) = shape a.
Proof. unfold frequency. destruct (lower space =? "fourier")%string; reflexivity. Qed.

Lemma unmasked_Return
  (masked : masked_registration)
  ref mov uf space re ov t out :
  phase_cross_correlation masked ref mov uf space re None None ov = (t, Return out) ->
  shape ref = shape mov /\
  exists t',
    register (frequency space ref) (frequency space mov) uf re = (t', Return out) /\
    (t = t' \/ t = call_fftn ref :: call_fftn mov :: t').
Proof.
  unfold phase_cross_correlation, frequency. cbn [is_not_None orb].
  unfold same_shape. destruct (list_eq_dec Nat.eq_dec (shape ref) (shape mov)) as [E|E];
    [|discriminate].
  cbn [negb]. intros H. split; [exact E|].
  destruct (lower space =? "fourier")%string.
  - rewrite bind_ret in H. eauto.
  - destruct (lower space =? "real")%string; [|discriminate].
    cbv [bind invoke ret] in H.
    destruct (register (fftn ref) (fftn mov) uf re) as [t' r].
    cbn [app] in H. inversion H; subst. eauto.
Qed.

(** C4.  In a call without masks that returns, the shift of every axis of
    length 1 is exactly zero, whatever the upsampling factor, the space, the
    error flag and the other axes are.  The returned shifts are the result of
    the final pass [zero_unit_axes] over the shifts computed before (coarse
    or refined): the pass puts zero on the axes of length 1 and leaves the
    other axes as they were computed. *)
Theorem unit_axis_shift_is_zero
  (masked : masked_registration)
  (reference_image moving_image : ndarray complex)
  (upsample_factor : R) (space : string) (return_error : bool)
  (overlap_ratio : float) (t : list call) (out : output) (dim : nat) :
  phase_cross_correlation masked reference_image moving_image upsample_factor
                          space return_error None None overlap_ratio
  = (t, Return out) ->
  nth_error (shape reference_image) dim = Some 1%nat ->
  nth_error (shifts_of out) dim = Some (Fin 0) /\
  exists computed,
    zero_unit_axes (shape reference_image) computed = Return (shifts_of out) /\
    forall k, nth_error (shape reference_image) k <> Some 1%nat ->
              nth_error (shifts_of out) k = nth_error computed k.
Proof.
  intros H Hd. apply unmasked_Return in H as (Hs & t' & H & _).
  apply register_Return in H as (maxima & pre & CC & t1 & shifts & _ & _ & _ & Hz & Ho).
  rewrite shape_frequency in Hz.
  assert (Eo : shifts_of out = shifts).
  { destruct Ho as [(_ & -> & _) | (_ & _ & -> & _)]; reflexivity. }
  rewrite Eo. destruct (zero_unit_axes_Return _ _ _ Hz) as (_ & Hk).
  split; [apply Hk, Hd|]. exists pre. split; [exact Hz|]. intros k. apply Hk.
Qed.

Lemma wrap_shifts_length shifts mids shape :
  length shifts = length shape -> length mids = length shape ->
  length (wrap_shifts shifts mids shape) = length shape.
Proof.
  intros H1 H2. unfold wrap_shifts. rewrite length_map, !length_combine. lia.
Qed.

(** C10.  In a call without masks and with upsampling factor 1 that
    returns, the shift of an axis of length [n] is the integer
    [wrap_index n m], where [m < n] is the position of the peak of the
    magnitude of the cross-correlation along that axis: [m] itself when
    [m <= n // 2] and [m - n] otherwise.  It lies between [n // 2 - n + 1] and
    [n // 2], so its magnitude is at most [n // 2]. *)
Theorem coarse_shift_in_half_extent
  (masked : masked_registration)
  (reference_image moving_image : ndarray complex)
  (space : string) (return_error : bool)
  (overlap_ratio : float) (t : list call) (out : output) :
  phase_cross_correlation masked reference_image moving_image 1
                          space return_error None None overlap_ratio
  = (t, Return out) ->
  let src_freq := frequency space reference_image in
  let target_freq := frequency space moving_image in
  let cross_correlation := ifftn (amul src_freq (amap conj target_freq)) in
  exists maxima,
    locate_maximum cross_correlation = Return maxima /\
    length (shifts_of out) = length (shape reference_image) /\
    forall k n,
      nth_error (shape reference_image) k = Some n ->
      exists m,
        nth_error maxima k = Some m /\ (m < n)%nat /\
        nth_error (shifts_of out) k = Some (Fin (IZR (wrap_index n m))) /\
        (Z.of_nat n / 2 - Z.of_nat n + 1 <= wrap_index n m <= Z.of_nat n / 2)%Z /\
        (Z.abs (wrap_index n m) <= Z.of_nat n / 2)%Z.
Proof.
  intros H src_freq target_freq cross_correlation.
  apply unmasked_Return in H as (Hs & t' & H & _).
  apply register_Return in H
    as (maxima & pre & CC & t1 & shifts & Hloc & _ & Hbr & Hz & Ho).
  subst src_freq target_freq cross_correlation.
  pose proof (shape_frequency space reference_image) as Hsh.
  rewrite Hsh in Hbr, Hz.
  assert (Eo : shifts_of out = shifts).
  { destruct Ho as [(_ & -> & _) | (_ & _ & -> & _)]; reflexivity. }
  destruct Hbr as [(_ & Hpre & _) | (Hne & _)]; [|congruence].
  pose proof (locate_maximum_bound _ _ (wf_ifftn _) Hloc) as Hb.
  cbn [shape ifftn amul] in Hb. rewrite Hsh in Hb.
  destruct (zero_unit_axes_Return _ _ _ Hz) as (Hl & Hk).
  exists maxima. split; [exact Hloc|]. rewrite Eo. split.
  - rewrite Hl, Hpre. apply wrap_shifts_length.
    + rewrite length_map. apply (Forall2_length Hb).
    + unfold midpoints_of. apply length_map.
  - intros k n Hn.
    destruct (Forall2_nth_error_r _ _ _ Hb k n Hn) as (m & Hm & Hlt).
    exists m. split; [exact Hm|]. split; [exact Hlt|].
    pose proof (wrap_index_range n m Hlt) as Hr.
    split; [|split; [exact Hr|]].
    + destruct (Nat.eq_dec n 1) as [->|Hn1].
      * destruct (Hk k) as [Hk1 _]. rewrite (Hk1 Hn).
        assert (m = 0)%nat by lia. subst m. reflexivity.
      * destruct (Hk k) as [_ Hk2]. rewrite Hk2 by congruence.
        rewrite Hpre. apply wrap_shifts_nth; assumption.
    + assert (0 <= Z.of_nat n / 2)%Z by (apply Z.div_pos; lia).
      assert (Z.of_nat n <= 2 * (Z.of_nat n / 2) + 1)%Z.
      { pose proof (Z.div_mod (Z.of_nat n) 2 ltac:(lia)).
        pose proof (Z.mod_pos_bound (Z.of_nat n) 2 ltac:(lia)). lia. }
      lia.
Qed.
(** ** The shape of the upsampled window *)

Lemma length_arange n : length (arange n) = Z.to_nat n.
Proof. unfold arange. rewrite length_map, length_seq. reflexivity. Qed.

Lemma length_kernel n ups off uf : length (kernel n ups off uf) = Z.to_nat ups.
Proof. unfold kernel. rewrite length_map. apply length_arange. Qed.

Lemma length_rows {A} n (d : list A) count : length (rows n d count) = count.
Proof. unfold rows. rewrite length_map, length_seq. reflexivity. Qed.

Lemma length_flat_map_const {A B} (f : A -> list B) l c :
  (forall x, In x l -> length (f x) = c) -> length (flat_map f l) = (length l * c)%nat.
Proof.
  induction l as [|x l IH]; intros H; cbn; [reflexivity|].
  rewrite length_app, H, IH; [reflexivity | | left; reflexivity].
  intros y Hy. apply H. right. exact Hy.
Qed.

Lemma shape_tensordot K a : shape (tensordot K a) = length K :: removelast (shape a).
Proof. reflexivity. Qed.

Lemma wf_tensordot K a : wf (tensordot K a).
Proof.
  unfold wf, size. rewrite shape_tensordot. cbn [tensordot data prod_shape fold_right].
  apply length_flat_map_const. intros krow _. rewrite length_map. apply length_rows.
Qed.

Lemma shape_contract_axis uf a n u o :
  shape (contract_axis uf a (n, (u, o))) = Z.to_nat u :: removelast (shape a).
Proof. cbn [contract_axis]. rewrite shape_tensordot, length_kernel. reflexivity. Qed.

Lemma shape_contract_all uf props : forall pre a,
  shape a = pre ++ map fst props ->
  shape (fold_left (contract_axis uf) (rev props) a)
  = map (fun p => Z.to_nat (fst (snd p))) props ++ pre.
Proof.
  induction props as [|[n [u o]] props IH] using rev_ind; intros pre a H.
  - cbn in *. rewrite app_nil_r in H. exact H.
  - rewrite rev_app_distr. cbn [rev app fold_left].
    rewrite map_app, <- app_assoc. cbn [map app fst snd].
    apply (IH (Z.to_nat u :: pre)).
    rewrite shape_contract_axis, H, map_app. cbn [map fst].
    rewrite app_assoc, removelast_last. reflexivity.
Qed.

Lemma wf_contract_all uf props a :
  props <> [] -> wf (fold_left (contract_axis uf) (rev props) a).
Proof.
  destruct props as [|p props] using rev_ind; [congruence|]. intros _.
  rewrite rev_app_distr. cbn [rev app fold_left].
  generalize (rev props). intros l.
  assert (W : wf (contract_axis uf a p)).
  { destruct p as [n [u o]]. apply wf_tensordot. }
  revert W. generalize (contract_axis uf a p).
  induction l as [|[n [u o]] l IH]; intros b W.
  - exact W.
  - cbn [fold_left]. apply IH. apply wf_tensordot.
Qed.

Lemma map_fst_combine {A B} (l1 : list A) (l2 : list B) :
  length l1 = length l2 -> map fst (combine l1 l2) = l1.
Proof.
  revert l2. induction l1 as [|a l1 IH]; intros [|b l2] H; try discriminate; cbn;
    [reflexivity|]. f_equal. apply IH. cbn in H. lia.
Qed.

Lemma map_snd_combine {A B} (l1 : list A) (l2 : list B) :
  length l1 = length l2 -> map snd (combine l1 l2) = l2.
Proof.
  revert l2. induction l1 as [|a l1 IH]; intros [|b l2] H; try discriminate; cbn;
    [reflexivity|]. f_equal. apply IH. cbn in H. lia.
Qed.

Lemma map_mid_combine {A B C D} (f : B -> D) (l1 : list A) (l2 : list B) (l3 : list C) :
  length l1 = length l2 -> length l2 = length l3 ->
  map (fun p => f (fst (snd p))) (combine l1 (combine l2 l3)) = map f l2.
Proof.
  revert l2 l3. induction l1 as [|a l1 IH]; intros [|b l2] [|c l3] H1 H2;
    try discriminate; cbn; [reflexivity|].
  f_equal. apply IH; cbn in *; lia.
Qed.

Lemma upsampled_dft_window a (region : Z) uf offs :
  length offs = ndim a ->
  exists w,
    _upsampled_dft a (Int region) uf (Some offs) = Return w /\
    shape w = repeat (Z.to_nat region) (ndim a) /\
    ((1 <= ndim a)%nat -> wf w).
Proof.
  intros Hl. unfold _upsampled_dft. cbn [rbind]. rewrite Hl, Nat.eqb_refl. cbn [negb].
  eexists. split; [reflexivity|]. split.
  - rewrite (shape_contract_all uf _ []).
    + rewrite app_nil_r, map_mid_combine.
      * apply map_repeat.
      * rewrite repeat_length. reflexivity.
      * rewrite repeat_length. lia.
    + rewrite map_fst_combine; [reflexivity|].
      rewrite length_combine, repeat_length. unfold ndim in *. lia.
  - intros Hn. apply wf_contract_all.
    unfold ndim in *. destruct (shape a) as [|n s]; [cbn in Hn; lia|].
    destruct offs; [discriminate|]. cbn. discriminate.
Qed.


(** ** The grid of the refinement *)

Lemma Raround_nearest x z : Rabs (x - IZR (Raround x)) <= Rabs (x - IZR z).
Proof.
  unfold Raround. pose proof (Rfloor_bounds x) as B.
  set (f := Rfloor x) in *.
  assert (Hz : (z <= f)%Z \/ (f + 1 <= z)%Z) by lia.
  assert (Hzr : IZR z <= IZR f \/ IZR f + 1 <= IZR z).
  { destruct Hz as [Hz|Hz]; [left; apply IZR_le, Hz | right].
    apply IZR_le in Hz. rewrite plus_IZR in Hz. exact Hz. }
  destruct (Rlt_dec (x - IZR f) (1 / 2)) as [L|L].
  - rewrite (Rltb_true _ _ L).
    unfold Rabs; repeat destruct Rcase_abs; lra.
  - rewrite Rltb_false by lra.
    destruct (Rlt_dec (1 / 2) (x - IZR f)) as [G|G].
    + rewrite (Rltb_true _ _ G). rewrite plus_IZR.
      unfold Rabs; repeat destruct Rcase_abs; lra.
    + rewrite Rltb_false by lra.
      destruct (Z.even f); [|rewrite plus_IZR];
        unfold Rabs; repeat destruct Rcase_abs; lra.
Qed.

Lemma snap_nearest uf c z :
  0 < uf -> Rabs (IZR c - snap uf c) <= Rabs (IZR c - IZR z / uf).
Proof.
  intros H. unfold snap.
  pose proof (Raround_nearest (IZR c * uf) z) as N.
  replace (IZR c - IZR (Raround (IZR c * uf)) / uf)
    with ((IZR c * uf - IZR (Raround (IZR c * uf))) * / uf) by (field; lra).
  replace (IZR c - IZR z / uf) with ((IZR c * uf - IZR z) * / uf) by (field; lra).
  rewrite !Rabs_mult. apply Rmult_le_compat_r; [apply Rabs_pos | exact N].
Qed.

Lemma Rfix_half_Z z : (0 <= z)%Z -> Rfix (IZR z / 2) = (z / 2)%Z.
Proof.
  intros H. rewrite <- (Z2Nat.id z H), <- INR_IZR_INZ, Rfix_half.
  rewrite Nat2Z.inj_div. reflexivity.
Qed.

Lemma window_size_pos uf : 1 < uf -> (2 <= window_size uf)%Z.
Proof.
  intros H. unfold window_size, Rceil.
  pose proof (Rfloor_bounds (- (1.5 * uf))) as B. unfold Rfloor in B.
  assert (IZR (Int_part (- (1.5 * uf))) < IZR (-1)) by (simpl; lra).
  apply lt_IZR in H0. lia.
Qed.

Lemma wrap_shifts_coarse shape : forall maxima,
  wrap_shifts (map of_nat maxima) (midpoints_of shape) shape
  = map (fun c => Fin (IZR c)) (coarse_shifts shape maxima).
Proof.
  induction shape as [|n shape IH]; intros [|m maxima]; try reflexivity.
  unfold wrap_shifts, coarse_shifts, midpoints_of in *.
  cbn [map combine fst snd]. f_equal; [apply wrap_one | apply IH].
Qed.


(** ** The refinement block *)

(** The refinement, with the values of its variables written out. *)
Lemma subpixel_refine_unfold product (coarse : list Z) uf :
  1 < uf ->
  subpixel_refine product (map (fun c => Fin (IZR c)) coarse) uf
  = bind (invoke (refine_call uf product coarse)
                 (_upsampled_dft (amap conj product) (Int (window_size uf)) uf
                                 (Some (region_offsets uf coarse))))
         (fun w =>
            bind (lift (locate_maximum (amap conj w)))
                 (fun peak =>
                    bind (lift (stack (map of_nat peak)))
                         (fun _ =>
                            ret (map (fun p => Fin (refined_shift uf (fst p) (snd p)))
                                     (combine coarse peak),
                                 item (amap conj w) peak)))).
Proof.
  intros Huf. unfold subpixel_refine, refine_call.
  pose proof (window_size_pos uf Huf) as HW.
  assert (Hd : fix_ (fdiv (of_Z (Rceil (uf * 1.5))) (Fin 2))
               = Fin (IZR (dftshift_of uf))).
  { unfold of_Z. rewrite fdiv_Fin by lra. cbn [fix_ lift1].
    replace (uf * 1.5) with (1.5 * uf) by ring. fold (window_size uf).
    rewrite Rfix_half_Z by lia. reflexivity. }
  rewrite Hd. replace (uf * 1.5) with (1.5 * uf) by ring. fold (window_size uf).
  assert (Hs : map (fun s => fdiv (around (fmul s (Fin uf))) (Fin uf))
                   (map (fun c => Fin (IZR c)) coarse)
               = map (fun c => Fin (snap uf c)) coarse).
  { rewrite map_map. apply map_ext. intros c. cbn [fmul lift2 around lift1].
    rewrite fdiv_Fin by lra. reflexivity. }
  rewrite Hs.
  assert (Ho : map (fun s => fsub (Fin (IZR (dftshift_of uf))) (fmul s (Fin uf)))
                   (map (fun c => Fin (snap uf c)) coarse)
               = region_offsets uf coarse).
  { rewrite map_map. reflexivity. }
  rewrite Ho.
  destruct (_upsampled_dft (amap conj product) (Int (window_size uf)) uf
              (Some (region_offsets uf coarse))) as [e|w]; [reflexivity|].
  cbv [bind invoke lift ret].
  destruct (locate_maximum (amap conj w)) as [e|peak]; [reflexivity|].
  destruct (stack (map of_nat peak)) as [e|st] eqn:Est; [reflexivity|].
  apply stack_Return in Est as [-> _]. cbn [app]. do 3 f_equal.
  clear - Huf. revert peak. induction coarse as [|c coarse IH]; intros [|p peak];
    try reflexivity.
  cbn [map combine fst snd]. f_equal; [|apply IH].
  unfold of_nat. cbn [fsub lift2]. rewrite fdiv_Fin by lra. reflexivity.
Qed.


(** ** The refined shifts *)

Lemma wf_amap {A B} (f : A -> B) a : wf a -> wf (amap f a).
Proof. unfold wf, size. cbn. rewrite length_map. auto. Qed.

Lemma Forall2_repeat_r {A B} (P : A -> B -> Prop) l b n :
  Forall2 P l (repeat b n) -> Forall (fun a => P a b) l.
Proof.
  revert l. induction n as [|n IH]; intros l H; inversion H; subst; constructor; auto.
Qed.

Lemma coarse_shifts_length shape maxima :
  length maxima = length shape -> length (coarse_shifts shape maxima) = length shape.
Proof. intros H. unfold coarse_shifts. rewrite length_map, length_combine. lia. Qed.



(** ** Runs of the registration *)

Lemma unravel_rev_length rs : forall i, length (unravel_rev i rs) = length rs.
Proof.
  induction rs as [|d rs IH]; intros i; cbn; [reflexivity|].
  rewrite IH; reflexivity.
Qed.

Lemma unravel_index_length i s : length (unravel_index i s) = length s.
Proof.
  unfold unravel_index.
  rewrite length_rev, unravel_rev_length, length_rev. reflexivity.
Qed.

Lemma locate_maximum_total (a : ndarray complex) :
  wf a -> (0 < size a)%nat ->
  exists maxima, locate_maximum a = Return maxima /\ length maxima = ndim a.
Proof.
  unfold wf. intros Hwf Hs. unfold locate_maximum.
  destruct (argmax_total (map cabs (data a))) as [i E].
  { destruct (data a); [cbn in Hwf; lia | discriminate]. }
  rewrite E. cbn [rbind]. eexists. split; [reflexivity | apply unravel_index_length].
Qed.

Lemma stack_total l : l <> [] -> stack l = Return l.
Proof. destruct l; [congruence | reflexivity]. Qed.

Lemma prod_shape_repeat n k : (0 < n)%nat -> (0 < prod_shape (repeat n k))%nat.
Proof.
  intros H. induction k as [|k IH]; cbn; [lia|]. fold (prod_shape (repeat n k)). nia.
Qed.

Lemma length_nonempty {A} (l : list A) : (1 <= length l)%nat -> l <> [].
Proof. destruct l; cbn; [lia | discriminate]. Qed.

Lemma register_runs src tgt uf re :
  (1 <= ndim src)%nat -> (0 < size src)%nat -> uf = 1 \/ 1 < uf ->
  exists t1 shifts CCmax,
    register src tgt uf re
    = (call_ifftn (amul src (amap conj tgt))
         :: t1 ++ fst (report re shifts CCmax (amplitude uf src) (amplitude uf tgt)),
       snd (report re shifts CCmax (amplitude uf src) (amplitude uf tgt))) /\
    length shifts = ndim src.
Proof.
  intros Hn Hsz Huf.
  set (product := amul src (amap conj tgt)).
  destruct (locate_maximum_total (ifftn product)) as (maxima & Hloc & Hlm).
  { apply wf_ifftn. }
  { exact Hsz. }
  change (ndim (ifftn product)) with (ndim src) in Hlm.
  assert (Hst : stack (map of_nat maxima) = Return (map of_nat maxima)).
  { apply stack_total, length_nonempty. rewrite length_map. lia. }
  pose proof (wrap_shifts_coarse (shape src) maxima) as Hco.
  set (coarse := coarse_shifts (shape src) maxima) in *.
  assert (Hlc : length coarse = ndim src) by (apply coarse_shifts_length; exact Hlm).
  unfold register. fold product. rewrite bind_invoke, Hloc, bind_lift_Return, Hst,
    bind_lift_Return. fold (midpoints_of (shape src)). rewrite Hco.
  unfold amplitude.
  destruct Huf as [-> | Huf].
  - rewrite (Reqb_true 1 1 eq_refl).
    destruct (zero_unit_axes_total (shape src) (map (fun c => Fin (IZR c)) coarse))
      as [shifts Hz].
    { rewrite length_map. unfold ndim in Hlc. lia. }
    exists [], shifts, (item (ifftn product) maxima).
    split.
    + destruct re; rewrite bind_ret; cbv beta iota; rewrite Hz, bind_lift_Return;
        unfold report; [|reflexivity].
      destruct (cisnan _ || _ || _); reflexivity.
    + apply zero_unit_axes_Return in Hz as [Hl _]. rewrite Hl, length_map. exact Hlc.
  - rewrite (Reqb_false uf 1) by lra.
    rewrite (subpixel_refine_unfold _ _ _ Huf).
    destruct (upsampled_dft_window (amap conj product) (window_size uf) uf
                (region_offsets uf coarse)) as (w & Hw & Hshw & Hwf).
    { unfold region_offsets. rewrite length_map. exact Hlc. }
    change (ndim (amap conj product)) with (ndim src) in Hshw, Hwf.
    pose proof (window_size_pos _ Huf) as HW.
    destruct (locate_maximum_total (amap conj w)) as (peak & Hpk & Hlp).
    { apply wf_amap, Hwf, Hn. }
    { unfold size. cbn [shape amap]. rewrite Hshw. apply prod_shape_repeat. lia. }
    unfold ndim in Hlp. cbn [shape amap] in Hlp. rewrite Hshw, repeat_length in Hlp.
    set (refined := map (fun p => Fin (refined_shift uf (fst p) (snd p)))
                        (combine coarse peak)).
    destruct (zero_unit_axes_total (shape src) refined) as [shifts Hz].
    { unfold refined. rewrite length_map, length_combine. unfold ndim in *. lia. }
    exists [refine_call uf product coarse], shifts, (item (amap conj w) peak).
    split.
    + rewrite Hw, bind_invoke, Hpk, bind_lift_Return, stack_total, bind_lift_Return
        by (apply length_nonempty; rewrite length_map; lia).
      fold refined. cbv [ret fst snd bind app].
      destruct re; cbv beta iota; unfold lift; rewrite Hz;
        unfold report; [|reflexivity].
      destruct (cisnan _ || _ || _); reflexivity.
    + apply zero_unit_axes_Return in Hz as [Hl _]. rewrite Hl. unfold refined.
      rewrite length_map, length_combine. unfold ndim in *. lia.
Qed.


(** ** Explicit values *)

Lemma Fin_eq x y : x = y -> Fin x = Fin y.
Proof. congruence. Qed.

Lemma Cx_Fin_eq x y x' y' :
  x = x' -> y = y' -> Cx (Fin x) (Fin y) = Cx (Fin x') (Fin y').
Proof. congruence. Qed.

Lemma INR_1_neq_0 : INR 1 <> 0.
Proof. simpl. lra. Qed.

Lemma cabs_one : cabs one = Fin 1.
Proof.
  unfold one. rewrite cabs_Fin. apply Fin_eq.
  replace (1 * 1 + 0 * 0) with 1 by ring. apply sqrt_1.
Qed.

Lemma fftfreq_1 uf : uf <> 0 -> fftfreq 1 uf = [Fin (0 / INR 1 / uf)].
Proof.
  intros H. unfold fftfreq.
  change (Z.to_nat ((Z.of_nat 1 - 1) / 2 + 1)) with 1%nat.
  change (1 / 2)%nat with 0%nat. cbn [seq map app of_Z of_nat Z.of_nat].
  unfold of_Z, of_nat. rewrite fdiv_Fin by exact INR_1_neq_0.
  rewrite fdiv_Fin by exact H. reflexivity.
Qed.

Lemma kernel_unit_axis ups off uf :
  uf <> 0 -> kernel 1 ups (Fin off) uf = map (fun _ => [one]) (arange ups).
Proof.
  intros H. unfold kernel. rewrite (fftfreq_1 uf H). apply map_ext_in.
  intros k Hk. unfold arange in Hk. apply in_map_iff in Hk as (i & <- & _).
  cbn [map]. f_equal.
  cbv [of_nat im2pi cneg cmul of_real re im fmul fsub fadd fneg lift1 lift2 cexp one].
  apply Cx_Fin_eq.
  - match goal with |- exp ?a * cos ?b = _ =>
      replace a with 0 by ring;
      replace b with 0 by (simpl; field; exact H) end.
    rewrite exp_0, cos_0. ring.
  - match goal with |- exp ?a * sin ?b = _ =>
      replace a with 0 by ring;
      replace b with 0 by (simpl; field; exact H) end.
    rewrite exp_0, sin_0. ring.
Qed.


Lemma window_size_2 : window_size 2 = 3%Z.
Proof. unfold window_size. apply Rceil_spec. simpl. lra. Qed.

(** ** The amplitudes of the error metric *)

Lemma cabs_squared z : fmul (cabs z) (cabs z) = squared_magnitude z.
Proof.
  destruct z as [[x|] [y|]]; try reflexivity.
  rewrite cabs_Fin. unfold squared_magnitude. cbn [re im fmul fadd lift2].
  f_equal. apply sqrt_sqrt. nra.
Qed.

Lemma energy_sum a : energy a = sum_energy a.
Proof.
  unfold energy, sum_energy. f_equal. apply map_ext. intros z. apply cabs_squared.
Qed.

(** C5.  In a call without masks that asks for the error and returns, the
    error is [_compute_error CCmax src_amp target_amp], that call is in the
    log, and the two amplitudes are the energies of the two frequency-domain
    arrays (the sum of the squared magnitudes of the samples): their mean
    over the samples (the sum divided by the size of the array) when the
    upsampling factor is 1, the plain sum when it is not (in particular when
    it is above 1).  The frequency-domain array of an image is the image
    itself in the Fourier space and its transform in the real space, where
    the amplitudes are therefore not the energies of the images. *)
Theorem amplitudes_mean_or_sum
  (masked : masked_registration)
  (reference_image moving_image : ndarray complex)
  (upsample_factor : R) (space : string)
  (overlap_ratio : float) (t : list call) (out : output) :
  phase_cross_correlation masked reference_image moving_image upsample_factor
                          space true None None overlap_ratio
  = (t, Return out) ->
  let src_freq := frequency space reference_image in
  let target_freq := frequency space moving_image in
  exists CCmax src_amp target_amp shifts,
    In (call_compute_error CCmax src_amp target_amp) t /\
    out = ShiftsErrorPhase shifts (_compute_error CCmax src_amp target_amp)
                           (_compute_phasediff CCmax) /\
    (upsample_factor = 1 ->
       src_amp = mean_energy src_freq /\ target_amp = mean_energy target_freq) /\
    (upsample_factor <> 1 ->
       src_amp = sum_energy src_freq /\ target_amp = sum_energy target_freq).
Proof.
  intros H src_freq target_freq.
  apply unmasked_Return in H as (Hs & t' & H & Ht).
  apply register_Return in H
    as (maxima & pre & CC & t1 & shifts & _ & _ & _ & _ & Ho).
  destruct Ho as [(Hf & _) | (_ & _ & Ho & Htr)]; [discriminate|].
  fold src_freq target_freq in Ho, Htr.
  set (src_amp := amplitude upsample_factor src_freq) in *.
  set (target_amp := amplitude upsample_factor target_freq) in *.
  exists CC, src_amp, target_amp, shifts. split; [|split; [exact Ho|]].
  - assert (In (call_compute_error CC src_amp target_amp) t').
    { rewrite Htr. right. apply in_or_app. right. left. reflexivity. }
    destruct Ht as [-> | ->]; [assumption | right; right; assumption].
  - subst src_amp target_amp. unfold amplitude. split; intros Hu.
    + rewrite (Reqb_true _ _ Hu), !energy_sum. split; reflexivity.
    + rewrite (Reqb_false _ _ Hu), !energy_sum. split; reflexivity.
Qed.

(** ** Complex algebra with not-a-number *)

Ltac complex_cases :=
  intros;
  repeat match goal with z : complex |- _ => destruct z as [[?|] [?|]] end;
  cbv [cadd cmul re im fadd fsub fmul lift2 c0];
  try reflexivity; (f_equal; try reflexivity; f_equal; ring).

Lemma finite_Cx z : finite z -> exists x y, z = Cx (Fin x) (Fin y).
Proof. destruct z as [[x|] [y|]]; cbv; try discriminate. eauto. Qed.

Lemma cadd_comm a b : cadd a b = cadd b a.
Proof. complex_cases. Qed.

Lemma cadd_assoc a b c : cadd a (cadd b c) = cadd (cadd a b) c.
Proof. complex_cases. Qed.

Lemma cadd_0_l a : cadd c0 a = a.
Proof. complex_cases. Qed.

Lemma cadd_0_r a : cadd a c0 = a.
Proof. complex_cases. Qed.

Lemma cmul_comm a b : cmul a b = cmul b a.
Proof. complex_cases. Qed.

Lemma cmul_assoc a b c : cmul a (cmul b c) = cmul (cmul a b) c.
Proof. complex_cases. Qed.

Lemma cmul_cadd_distr a b c : cmul a (cadd b c) = cadd (cmul a b) (cmul a c).
Proof. complex_cases. Qed.

Lemma cmul_0_r a : finite a -> cmul a c0 = c0.
Proof. intros H. apply finite_Cx in H as (x & y & ->). complex_cases. Qed.

Lemma cmul_1_r a : finite a -> cmul a (Cx (Fin 1) (Fin 0)) = a.
Proof. intros H. apply finite_Cx in H as (x & y & ->). complex_cases. Qed.

Lemma csum_app l1 l2 : csum (l1 ++ l2) = cadd (csum l1) (csum l2).
Proof.
  induction l1 as [|a l1 IH]; cbn [app csum fold_right].
  - symmetry. apply cadd_0_l.
  - fold (csum (l1 ++ l2)) (csum l1). rewrite IH. apply cadd_assoc.
Qed.

Lemma csum_flat_map {A} (f : A -> list complex) l :
  csum (flat_map f l) = csum (map (fun x => csum (f x)) l).
Proof.
  induction l as [|a l IH]; [reflexivity|]. cbn [flat_map map].
  rewrite csum_app, IH. reflexivity.
Qed.

Lemma cmul_csum a l : finite a -> cmul a (csum l) = csum (map (cmul a) l).
Proof.
  intros H. induction l as [|b l IH]; cbn [map csum fold_right].
  - apply cmul_0_r, H.
  - fold (csum l) (csum (map (cmul a) l)). rewrite cmul_cadd_distr, IH. reflexivity.
Qed.

Lemma csum_ext {A} (f g : A -> complex) l :
  (forall x, In x l -> f x = g x) -> csum (map f l) = csum (map g l).
Proof. intros H. f_equal. apply map_ext_in, H. Qed.

(** ** Twiddle factors *)

Lemma finite_unit_root x : finite (unit_root x).
Proof. reflexivity. Qed.

Lemma unit_root_add x y : unit_root (x + y) = cmul (unit_root x) (unit_root y).
Proof.
  unfold unit_root. cbv [cmul re im fmul fsub fadd lift2]. apply Cx_Fin_eq.
  - replace (2 * PI * (x + y)) with (2 * PI * x + 2 * PI * y) by ring.
    rewrite cos_plus. ring.
  - replace (2 * PI * (x + y)) with (2 * PI * x + 2 * PI * y) by ring.
    rewrite sin_plus. ring.
Qed.

Lemma unit_root_0 : unit_root 0 = Cx (Fin 1) (Fin 0).
Proof.
  unfold unit_root. replace (2 * PI * 0) with 0 by ring.
  rewrite cos_0, sin_0. apply Cx_Fin_eq; ring.
Qed.

Lemma unit_root_period x (k : nat) : unit_root (x - INR k) = unit_root x.
Proof.
  unfold unit_root.
  replace (2 * PI * x) with (2 * PI * (x - INR k) + 2 * INR k * PI) by ring.
  rewrite cos_period, sin_period. reflexivity.
Qed.

Lemma twiddle_unit_root s k j : twiddle (-1) s k j = unit_root (dft_phase s k j).
Proof.
  unfold twiddle, unit_root, cexp. cbn [re im]. apply Cx_Fin_eq.
  - rewrite exp_0. replace (-1 * (2 * PI * dft_phase s k j))
      with (- (2 * PI * dft_phase s k j)) by ring.
    rewrite cos_neg. ring.
  - rewrite exp_0. replace (-1 * (2 * PI * dft_phase s k j))
      with (- (2 * PI * dft_phase s k j)) by ring.
    rewrite sin_neg. ring.
Qed.

Lemma dft_phase_cons n s k ks j js :
  dft_phase (n :: s) (k :: ks) (j :: js) = INR (k * j) / INR n + dft_phase s ks js.
Proof. reflexivity. Qed.

Lemma twiddle_cons n s k ks j js :
  twiddle (-1) (n :: s) (k :: ks) (j :: js)
  = cmul (unit_root (INR (k * j) / INR n)) (twiddle (-1) s ks js).
Proof. rewrite !twiddle_unit_root, dft_phase_cons. apply unit_root_add. Qed.


(** ** The kernel of an axis *)

Lemma fftfreq_positive_count n :
  (Z.to_nat ((Z.of_nat n - 1) / 2 + 1) + n / 2 = n)%nat.
Proof.
  pose proof (Nat.div_mod_eq n 2) as E.
  pose proof (Nat.mod_upper_bound n 2 ltac:(discriminate)) as B.
  assert (H : ((Z.of_nat n - 1) / 2 + 1 = Z.of_nat n - Z.of_nat (n / 2))%Z).
  { generalize dependent (n / 2)%nat. generalize dependent (n mod 2)%nat.
    intros r B q E. subst n.
    assert (r = 0 \/ r = 1)%nat as [-> | ->] by lia.
    - replace (Z.of_nat (2 * q + 0) - 1)%Z with (-1 + Z.of_nat q * 2)%Z by lia.
      rewrite Z.div_add by lia. change (-1 / 2)%Z with (-1)%Z. lia.
    - replace (Z.of_nat (2 * q + 1) - 1)%Z with (0 + Z.of_nat q * 2)%Z by lia.
      rewrite Z.div_add by lia. change (0 / 2)%Z with 0%Z. lia. }
  rewrite H. assert (n / 2 <= n)%nat by (apply Nat.Div0.div_le_upper_bound; lia). lia.
Qed.

Lemma seq_from a len : seq a len = map (fun i => (a + i)%nat) (seq 0 len).
Proof.
  induction a as [|a IH]; cbn [Nat.add].
  - symmetry. apply map_id.
  - rewrite <- seq_shift, IH, map_map. reflexivity.
Qed.

Lemma fftfreq_seq n d :
  fftfreq n d
  = map (fun j => fdiv (fdiv (of_Z (freq_index n j)) (of_nat n)) (Fin d)) (seq 0 n).
Proof.
  unfold fftfreq. pose proof (fftfreq_positive_count n) as Hc.
  set (pc := Z.to_nat ((Z.of_nat n - 1) / 2 + 1)) in *.
  assert (Hs : seq 0 n = seq 0 pc ++ seq pc (n / 2)).
  { rewrite <- seq_app, Hc. reflexivity. }
  rewrite Hs, !map_app, !map_map. f_equal.
  - apply map_ext_in. intros j Hj. apply in_seq in Hj. unfold freq_index. fold pc.
    destruct (Nat.ltb_spec j pc); [reflexivity | lia].
  - rewrite (seq_from pc), map_map. apply map_ext_in. intros i Hi. apply in_seq in Hi.
    unfold freq_index. fold pc. destruct (Nat.ltb_spec (pc + i) pc); [lia|].
    do 3 f_equal. lia.
Qed.

Lemma freq_index_cases n j :
  freq_index n j = Z.of_nat j \/ freq_index n j = (Z.of_nat j - Z.of_nat n)%Z.
Proof. unfold freq_index. destruct (_ <? _)%nat; auto. Qed.

(** An entry of a kernel, for a finite offset and a finite frequency. *)
Lemma kernel_value k off f :
  cexp (cmul (cneg im2pi) (of_real (fmul (fsub (of_nat k) (Fin off)) (Fin f))))
  = unit_root ((INR k - off) * f).
Proof.
  cbv [of_nat im2pi cneg cmul of_real re im fmul fsub fadd fneg lift1 lift2 cexp
       unit_root].
  apply Cx_Fin_eq.
  - match goal with |- exp ?a * cos ?b = cos ?c =>
      replace a with 0 by ring; replace b with (- c) by ring end.
    rewrite exp_0, cos_neg. ring.
  - match goal with |- exp ?a * sin ?b = - sin ?c =>
      replace a with 0 by ring; replace b with (- c) by ring end.
    rewrite exp_0, sin_neg. ring.
Qed.

(** The entries of the kernel of an axis, without offset and without
    upsampling, are the roots of unity of the transform of that axis. *)
Lemma kernel_entry n k j :
  (0 < n)%nat ->
  cexp (cmul (cneg im2pi)
             (of_real (fmul (fsub (of_nat k) (Fin 0))
                            (fdiv (fdiv (of_Z (freq_index n j)) (of_nat n)) (Fin 1)))))
  = unit_root (INR (k * j) / INR n).
Proof.
  intros Hn. assert (Hn0 : INR n <> 0) by (apply not_0_INR; lia).
  unfold of_Z. unfold of_nat at 2. rewrite !fdiv_Fin by (assumption || lra).
  rewrite kernel_value, mult_INR.
  destruct (freq_index_cases n j) as [-> | ->].
  - rewrite <- INR_IZR_INZ. f_equal. field. assumption.
  - rewrite minus_IZR, <- !INR_IZR_INZ.
    replace ((INR k - 0) * ((INR j - INR n) / INR n / 1))
      with (INR k * INR j / INR n - INR k) by (field; assumption).
    apply unit_root_period.
Qed.

Lemma kernel_dft n u :
  kernel n (Z.of_nat u) (Fin 0) 1
  = map (fun k => map (fun j => unit_root (INR (k * j) / INR n)) (seq 0 n)) (seq 0 u).
Proof.
  unfold kernel, arange. rewrite Nat2Z.id, map_map. apply map_ext. intros k.
  rewrite fftfreq_seq, map_map. apply map_ext_in. intros j Hj. apply in_seq in Hj.
  apply kernel_entry. lia.
Qed.


(** ** Multi-indices and flat positions *)

Lemma indices_valid s : forall idx, In idx (indices s) -> valid_index idx s.
Proof.
  induction s as [|n s IH]; intros idx H; cbn in H.
  - destruct H as [<- | []]. constructor.
  - apply in_flat_map in H as (i & Hi & H). apply in_map_iff in H as (j & <- & Hj).
    apply in_seq in Hi. constructor; [lia | apply IH, Hj].
Qed.

Lemma valid_indices s : forall idx, valid_index idx s -> In idx (indices s).
Proof.
  induction s as [|n s IH]; intros idx H; inversion H; subst; cbn.
  - left; reflexivity.
  - apply in_flat_map. exists x. split; [apply in_seq; lia|].
    apply in_map, IH. assumption.
Qed.

Lemma prod_shape_cons n s : prod_shape (n :: s) = (n * prod_shape s)%nat.
Proof. reflexivity. Qed.

Lemma prod_shape_app s1 s2 :
  prod_shape (s1 ++ s2) = (prod_shape s1 * prod_shape s2)%nat.
Proof.
  induction s1 as [|n s1 IH]; cbn [app]; [cbn; lia|].
  rewrite !prod_shape_cons, IH. lia.
Qed.

Lemma ravel_from s : forall idx acc,
  length idx = length s ->
  fold_left (fun a p => (a * fst p + snd p)%nat) (combine s idx) acc
  = (acc * prod_shape s + ravel s idx)%nat.
Proof.
  unfold ravel. induction s as [|n s IH]; intros [|i idx] acc H; try discriminate.
  - cbn. lia.
  - cbn [combine fold_left fst snd]. rewrite (IH idx (acc * n + i)%nat),
      (IH idx (0 * n + i)%nat) by (cbn in H; lia).
    rewrite prod_shape_cons. cbn [Nat.mul Nat.add]. lia.
Qed.

Lemma ravel_cons n s i idx :
  length idx = length s ->
  ravel (n :: s) (i :: idx) = (i * prod_shape s + ravel s idx)%nat.
Proof.
  intros H. unfold ravel at 1. cbn [combine fold_left fst snd].
  rewrite ravel_from by exact H. reflexivity.
Qed.

Lemma combine_snoc {A B} (l1 : list A) (l2 : list B) a b :
  length l1 = length l2 -> combine (l1 ++ [a]) (l2 ++ [b]) = combine l1 l2 ++ [(a, b)].
Proof.
  revert l2. induction l1 as [|x l1 IH]; intros [|y l2] H; try discriminate;
    [reflexivity|]. cbn [app combine]. f_equal. apply IH. cbn in H. lia.
Qed.

Lemma ravel_snoc s n idx j :
  length idx = length s ->
  ravel (s ++ [n]) (idx ++ [j]) = (ravel s idx * n + j)%nat.
Proof.
  intros H. unfold ravel. rewrite combine_snoc by (symmetry; exact H).
  rewrite fold_left_app. reflexivity.
Qed.

Lemma ravel_lt s : forall idx, valid_index idx s -> (ravel s idx < prod_shape s)%nat.
Proof.
  induction s as [|n s IH]; intros idx H; inversion H; subst.
  - cbn. lia.
  - rewrite ravel_cons by (apply (Forall2_length H4)). rewrite prod_shape_cons.
    specialize (IH _ H4). nia.
Qed.

Lemma ravel_indices s : map (ravel s) (indices s) = seq 0 (prod_shape s).
Proof.
  induction s as [|n s IH]; [reflexivity|].
  cbn [indices]. rewrite prod_shape_cons.
  assert (G : forall a,
    map (ravel (n :: s)) (flat_map (fun i => map (cons i) (indices s)) (seq a n))
    = seq (a * prod_shape s) (n * prod_shape s)).
  { clear - IH. induction n as [|n IHn]; intros a; [reflexivity|].
    cbn [seq flat_map]. rewrite map_app, map_map.
    replace (S n * prod_shape s)%nat with (prod_shape s + n * prod_shape s)%nat by lia.
    rewrite seq_app. f_equal.
    - rewrite (seq_from (a * prod_shape s)), <- IH, map_map.
      apply map_ext_in. intros idx Hidx.
      apply ravel_cons. apply indices_valid in Hidx. apply (Forall2_length Hidx).
    - replace (a * prod_shape s + prod_shape s)%nat with (S a * prod_shape s)%nat
        by lia.
      rewrite <- (IHn (S a)). clear.
      (* the shape entry plays no part in the flat position *)
      apply map_ext_in. intros idx Hidx.
      apply in_flat_map in Hidx as (i & _ & Hidx).
      apply in_map_iff in Hidx as (j & <- & _). reflexivity. }
  exact (G 0%nat).
Qed.

Lemma nth_seq_map {A} (l : list A) d :
  map (fun p => nth p l d) (seq 0 (length l)) = l.
Proof.
  induction l as [|a l IH]; [reflexivity|]. cbn [length seq map nth]. f_equal.
  rewrite <- seq_shift, map_map. exact IH.
Qed.

Lemma data_items (a : ndarray complex) :
  wf a -> data a = map (item a) (indices (shape a)).
Proof.
  unfold wf, size, item. intros H.
  rewrite <- (map_map (ravel (shape a)) (fun p => nth p (data a) c0)).
  rewrite ravel_indices, <- H. symmetry. apply nth_seq_map.
Qed.

Lemma array_ext (a b : ndarray complex) :
  shape a = shape b -> wf a -> wf b ->
  (forall idx, valid_index idx (shape a) -> item a idx = item b idx) ->
  a = b.
Proof.
  intros Hs Ha Hb H.
  assert (Hd : data a = data b).
  { rewrite (data_items a Ha), (data_items b Hb), <- Hs.
    apply map_ext_in. intros idx Hidx. apply H, indices_valid, Hidx. }
  destruct a as [sa da], b as [sb db]; cbn in *; congruence.
Qed.


(** ** One contraction, index by index *)

Lemma nth_map_seq {A} (f : nat -> A) n i d :
  (i < n)%nat -> nth i (map f (seq 0 n)) d = f i.
Proof.
  intros H.
  rewrite (nth_indep _ d (f 0%nat)) by (rewrite length_map, length_seq; exact H).
  rewrite (map_nth f (seq 0 n) 0%nat i), seq_nth by exact H. reflexivity.
Qed.

Lemma nth_flat_map_seq {A} (g : nat -> list A) P u k r d :
  (forall i, length (g i) = P) -> (k < u)%nat -> (r < P)%nat ->
  nth (k * P + r) (flat_map g (seq 0 u)) d = nth r (g k) d.
Proof.
  intros Hg. induction u as [|u IH]; intros Hk Hr; [lia|].
  rewrite seq_S, flat_map_app. cbn [Nat.add flat_map]. rewrite app_nil_r.
  assert (Hl : length (flat_map g (seq 0 u)) = (u * P)%nat).
  { rewrite (length_flat_map_const g (seq 0 u) P), length_seq; auto. }
  destruct (Nat.eq_dec k u) as [->|Hne].
  - rewrite app_nth2 by lia. rewrite Hl. f_equal. lia.
  - rewrite app_nth1 by (rewrite Hl; nia). apply IH; lia.
Qed.

Lemma firstn_skipn_seq {A} (l : list A) m n d :
  (m + n <= length l)%nat ->
  firstn n (skipn m l) = map (fun j => nth (m + j) l d) (seq 0 n).
Proof.
  revert l m. induction n as [|n IH]; intros l m H; [reflexivity|].
  destruct (skipn m l) as [|x l'] eqn:E.
  - assert (length (skipn m l) = 0)%nat by (rewrite E; reflexivity).
    rewrite length_skipn in H0. lia.
  - cbn [firstn seq map]. f_equal.
    + rewrite Nat.add_0_r. rewrite <- (firstn_skipn m l) at 1.
      rewrite app_nth2 by (rewrite length_firstn; lia).
      rewrite length_firstn, Nat.min_l, Nat.sub_diag, E by lia. reflexivity.
    + assert (E' : skipn (S m) l = l').
      { replace (S m) with (1 + m)%nat by lia. rewrite <- skipn_skipn, E. reflexivity. }
      rewrite <- E', (IH l (S m)) by lia.
      rewrite <- seq_shift, map_map. apply map_ext. intros j. f_equal. lia.
Qed.

Lemma combine_map_same {A B C} (f : A -> B) (g : A -> C) l :
  combine (map f l) (map g l) = map (fun x => (f x, g x)) l.
Proof. induction l as [|a l IH]; [reflexivity|]. cbn. f_equal. exact IH. Qed.

Lemma flat_map_map_seq {A B} (f : A -> list B) (g : nat -> A) l :
  flat_map f (map g l) = flat_map (fun i => f (g i)) l.
Proof. induction l as [|a l IH]; [reflexivity|]. cbn. rewrite IH. reflexivity. Qed.

Lemma tensordot_item (W : nat -> nat -> complex) u (b : ndarray complex) pre n k idx :
  shape b = pre ++ [n] -> wf b -> valid_index idx pre -> (k < u)%nat ->
  item (tensordot (map (fun k => map (W k) (seq 0 n)) (seq 0 u)) b) (k :: idx)
  = csum (map (fun j => cmul (W k j) (item b (idx ++ [j]))) (seq 0 n)).
Proof.
  intros Hs Hwf Hidx Hk. pose proof (Forall2_length Hidx) as Hlen.
  pose proof (ravel_lt _ _ Hidx) as Hr.
  unfold item at 1. unfold tensordot. cbn [shape data].
  rewrite Hs, removelast_last, last_last, length_map, length_seq.
  rewrite ravel_cons by exact Hlen. rewrite flat_map_map_seq.
  rewrite (nth_flat_map_seq _ (prod_shape pre)); try assumption.
  2:{ intros i. rewrite length_map. apply length_rows. }
  unfold rows. rewrite map_map, nth_map_seq by exact Hr.
  unfold wf, size in Hwf. rewrite Hs, prod_shape_app in Hwf. cbn in Hwf.
  rewrite (firstn_skipn_seq _ _ _ c0) by nia.
  unfold dot. rewrite combine_map_same, map_map. cbn [fst snd].
  apply csum_ext. intros j _. unfold item. rewrite Hs, ravel_snoc by exact Hlen.
  reflexivity.
Qed.


(** ** The upsampled DFT of a whole array *)

Lemma whole_axes s :
  combine s (combine (map Z.of_nat s) (repeat (Fin 0) (length s))) = map whole_axis s.
Proof. induction s as [|n s IH]; [reflexivity|]. cbn. f_equal. exact IH. Qed.

Lemma map_flat_map {A B C} (f : B -> C) (g : A -> list B) l :
  map f (flat_map g l) = flat_map (fun x => map f (g x)) l.
Proof.
  induction l as [|a l IH]; [reflexivity|]. cbn. rewrite map_app, IH. reflexivity.
Qed.

Lemma valid_index_app i1 s1 i2 s2 :
  valid_index i1 s1 -> valid_index i2 s2 -> valid_index (i1 ++ i2) (s1 ++ s2).
Proof. apply Forall2_app. Qed.

Lemma item_finite (a : ndarray complex) idx :
  wf a -> Forall finite (data a) -> valid_index idx (shape a) -> finite (item a idx).
Proof.
  intros Hwf Hf Hv. unfold item. rewrite Forall_forall in Hf. apply Hf, nth_In.
  rewrite Hwf. apply ravel_lt, Hv.
Qed.

Lemma contract_axes_shape (a : ndarray complex) :
  wf a ->
  forall s2 s1, shape a = s1 ++ s2 ->
    let b := fold_left (contract_axis 1) (rev (map whole_axis s2)) a in
    shape b = s2 ++ s1 /\ wf b.
Proof.
  intros Hwf. induction s2 as [|n s2 IH]; intros s1 Hs.
  - cbn [map rev fold_left]. rewrite app_nil_r in Hs. split; assumption.
  - cbn [map rev]. rewrite fold_left_app. cbn [fold_left].
    destruct (IH (s1 ++ [n])) as (Hsh0 & _); [rewrite <- app_assoc; exact Hs|].
    cbv zeta in Hsh0. cbv zeta.
    change (whole_axis n) with (n, (Z.of_nat n, Fin 0)).
    split; [|apply wf_tensordot].
    rewrite shape_contract_axis, Hsh0, Nat2Z.id.
    rewrite app_assoc, removelast_last. reflexivity.
Qed.

(** The invariant of the loop over the axes: after the axes [s2] at the end
    of the shape have been contracted, the running array holds the transform
    of the input along these axes.  An input without dimension needs its
    only value to be a number, for [x * 1 = x]. *)
Lemma contract_axes_items (a : ndarray complex) :
  wf a ->
  forall s2 s1, shape a = s1 ++ s2 ->
    s2 <> [] \/ Forall finite (data a) ->
    let b := fold_left (contract_axis 1) (rev (map whole_axis s2)) a in
    forall k2 j1, valid_index k2 s2 -> valid_index j1 s1 ->
      item b (k2 ++ j1)
      = csum (map (fun j2 => cmul (item a (j1 ++ j2)) (twiddle (-1) s2 k2 j2))
                  (indices s2)).
Proof.
  intros Hwf. induction s2 as [|n s2 IH]; intros s1 Hs Hor.
  - destruct Hor as [Hne | Hfin]; [congruence|].
    cbn [map rev fold_left]. rewrite app_nil_r in Hs.
    intros k2 j1 Hk Hj. inversion Hk; subst. cbn [app indices map csum fold_right].
    rewrite twiddle_unit_root. cbn [dft_phase combine map fold_right].
    rewrite unit_root_0, cadd_0_r, app_nil_r. symmetry. apply cmul_1_r.
    apply item_finite; assumption.
  - cbn [map rev]. rewrite fold_left_app. cbn [fold_left].
    assert (Hs' : shape a = (s1 ++ [n]) ++ s2) by (rewrite <- app_assoc; exact Hs).
    destruct (contract_axes_shape a Hwf s2 (s1 ++ [n]) Hs') as (Hsh0 & Hwf0).
    specialize (IH (s1 ++ [n]) Hs'). cbv zeta in IH, Hsh0, Hwf0.
    set (b0 := fold_left _ _ a) in *. cbv zeta.
    assert (Hb : contract_axis 1 b0 (whole_axis n)
                 = tensordot
                     (map (fun k => map (fun j => unit_root (INR (k * j) / INR n))
                                        (seq 0 n)) (seq 0 n)) b0).
    { unfold whole_axis. cbn [contract_axis]. rewrite kernel_dft. reflexivity. }
    rewrite Hb.
    assert (Hsh0' : shape b0 = (s2 ++ s1) ++ [n])
      by (rewrite Hsh0, <- app_assoc; reflexivity).
    intros k2 j1 Hk Hj. inversion Hk as [|k n' k2' s2' Hkn Hk2']; subst.
    cbn [app].
    pose proof (tensordot_item (fun k j => unit_root (INR (k * j) / INR n))
                  n b0 (s2 ++ s1) n k (k2' ++ j1) Hsh0' Hwf0
                  (valid_index_app _ _ _ _ Hk2' Hj) Hkn) as T.
    cbv beta in T. rewrite T. clear T.
    cbn [indices]. rewrite map_flat_map, csum_flat_map.
    apply csum_ext. intros j Hjn. apply in_seq in Hjn.
    rewrite <- app_assoc, !map_map.
    destruct s2 as [|m s2].
    + (* the first contraction reads the input itself *)
      inversion Hk2'; subst. cbn [app indices map csum fold_right rev fold_left] in *.
      subst b0. rewrite twiddle_cons, twiddle_unit_root.
      cbn [dft_phase combine map fold_right].
      rewrite unit_root_0, cadd_0_r, (cmul_1_r _ (finite_unit_root _)).
      apply cmul_comm.
    + rewrite IH;
        [| left; discriminate | exact Hk2'
         | apply valid_index_app; [exact Hj | repeat constructor; lia]].
      rewrite cmul_csum by apply finite_unit_root. rewrite !map_map.
      apply csum_ext. intros j2 _. rewrite twiddle_cons, <- app_assoc. cbn [app].
      rewrite !cmul_assoc. f_equal. apply cmul_comm.
Qed.

Lemma item_dftn sign (a : ndarray complex) k :
  valid_index k (shape a) ->
  item (NdArray (shape a) (dftn sign a)) k
  = csum (map (fun j => cmul (item a j) (twiddle sign (shape a) k j))
              (indices (shape a))).
Proof.
  intros Hk.
  assert (W : wf (NdArray (shape a) (dftn sign a))).
  { unfold wf, size. cbn [shape data]. apply dftn_length. }
  pose proof (data_items _ W) as E. cbn [shape data] in E. unfold dftn in E at 1.
  symmetry. apply (ext_in_map E). apply valid_indices, Hk.
Qed.

(** C2.  For a complex array, the upsampled DFT with the upsampling factor
    1, a region that is the shape of the array and no offset on any axis
    (given as zeros or left to the default) is the N-dimensional DFT of the
    array, [fftn]: the same shape and, on the idealised numbers, the same
    values, [X[k] = sum_j x[j] * exp(-2 pi i * sum_a k_a j_a / n_a)].
    An array without dimension is to hold a number. *)
Theorem upsampled_dft_whole_array_is_dft (data_ : ndarray complex)
        (axis_offsets : option (list float)) :
  wf data_ ->
  (1 <= ndim data_)%nat \/ Forall finite (data data_) ->
  axis_offsets = None \/ axis_offsets = Some (repeat (Fin 0) (ndim data_)) ->
  _upsampled_dft data_ (Sizes (map Z.of_nat (shape data_))) 1 axis_offsets
  = Return (fftn data_).
Proof.
  intros Hwf Hor Hoff. unfold _upsampled_dft.
  assert (Hlen : (length (map Z.of_nat (shape data_)) =? ndim data_)%nat = true)
    by (unfold ndim; rewrite length_map; apply Nat.eqb_refl).
  rewrite Hlen. cbn [negb rbind].
  assert (E : combine (shape data_)
                (combine (map Z.of_nat (shape data_)) (repeat (Fin 0) (ndim data_)))
              = map whole_axis (shape data_)) by apply whole_axes.
  assert (R : fold_left (contract_axis 1) (rev (map whole_axis (shape data_))) data_
              = fftn data_).
  { destruct (contract_axes_shape data_ Hwf (shape data_) []) as (Hsh & Hw);
      [reflexivity|].
    rewrite app_nil_r in Hsh.
    apply array_ext; [exact Hsh | exact Hw | apply wf_fftn |].
    intros k Hk. rewrite Hsh in Hk.
    assert (Hor' : shape data_ <> [] \/ Forall finite (data data_)).
    { destruct Hor as [Hn | Hf]; [left | right; exact Hf].
      unfold ndim in Hn. destruct (shape data_); [cbn in Hn; lia | discriminate]. }
    pose proof (contract_axes_items data_ Hwf (shape data_) [] eq_refl Hor' k []
                  Hk (Forall2_nil _)) as Hit.
    rewrite app_nil_r in Hit. rewrite Hit.
    unfold fftn. rewrite item_dftn by exact Hk. reflexivity. }
  destruct Hoff as [-> | ->].
  - cbn [rbind]. rewrite E, R. reflexivity.
  - rewrite repeat_length, Nat.eqb_refl. cbn [negb rbind]. rewrite E, R. reflexivity.
Qed.

Lemma upsampled_dft_whole_array_is_dft_witness :
  wf image_2 /\ (1 <= ndim image_2)%nat /\
  _upsampled_dft image_2 (Sizes [2%Z]) 1 None = Return (fftn image_2) /\
  _upsampled_dft image_2 (Sizes [2%Z]) 1 (Some [Fin 0]) = Return (fftn image_2).
Proof.
  assert (Hwf : wf image_2) by reflexivity.
  assert (Hn : (1 <= ndim image_2)%nat) by (cbv; lia).
  split; [exact Hwf|]. split; [exact Hn|]. split.
  - exact (upsampled_dft_whole_array_is_dft image_2 None Hwf (or_introl Hn)
             (or_introl eq_refl)).
  - exact (upsampled_dft_whole_array_is_dft image_2 (Some [Fin 0]) Hwf
             (or_introl Hn) (or_intror eq_refl)).
Defined.


(** ** Not-a-number in the inputs *)

Lemma fadd_NaN_r a : fadd a NaN = NaN.
Proof. destruct a; reflexivity. Qed.

Lemma fsum_nan l : In NaN l -> fsum l = NaN.
Proof.
  induction l as [|a l IH]; intros H; [contradiction|]. cbn [fsum fold_right].
  destruct H as [-> | H]; [reflexivity|]. fold (fsum l). rewrite (IH H).
  apply fadd_NaN_r.
Qed.

Lemma cabs_nan z : cisnan z = true -> cabs z = NaN.
Proof.
  destruct z as [[x|] [y|]]; cbv [cisnan isnan re im orb];
    try discriminate; reflexivity.
Qed.

Lemma energy_nan a : has_nan a -> energy a = NaN.
Proof.
  unfold has_nan, energy. intros H. apply Exists_exists in H as (z & Hz & Hn).
  apply fsum_nan. apply in_map_iff. exists z. split; [|exact Hz].
  rewrite (cabs_nan z Hn). reflexivity.
Qed.

Lemma amplitude_nan uf a : has_nan a -> isnan (amplitude uf a) = true.
Proof.
  intros H. unfold amplitude. rewrite (energy_nan a H).
  destruct (Reqb uf 1); reflexivity.
Qed.

Lemma cmul_nan z w : cisnan z = true -> cmul z w = Cx NaN NaN.
Proof.
  destruct z as [[x|] [y|]], w as [[u|] [v|]];
    cbv [cisnan isnan re im orb]; try discriminate; reflexivity.
Qed.

Lemma csum_nan l : In (Cx NaN NaN) l -> csum l = Cx NaN NaN.
Proof.
  induction l as [|a l IH]; intros H; [contradiction|]. cbn [csum fold_right].
  destruct H as [-> | H]; [reflexivity|]. fold (csum l). rewrite (IH H).
  destruct a as [[x|] [y|]]; reflexivity.
Qed.

Lemma fftn_has_nan a : wf a -> has_nan a -> has_nan (fftn a).
Proof.
  intros Hwf H. unfold has_nan in *. apply Exists_exists in H as (z & Hz & Hn).
  rewrite (data_items a Hwf) in Hz. apply in_map_iff in Hz as (j0 & Hj0 & Hin).
  apply Exists_exists. exists (Cx NaN NaN). split; [|reflexivity].
  unfold fftn, dftn. cbn [data]. apply in_map_iff. exists j0. split; [|exact Hin].
  apply csum_nan. apply in_map_iff. exists j0. split; [|exact Hin].
  apply cmul_nan. rewrite Hj0. exact Hn.
Qed.

Lemma frequency_has_nan space a : wf a -> has_nan a -> has_nan (frequency space a).
Proof.
  intros Hwf H. unfold frequency. destruct (lower space =? "fourier")%string;
    [exact H | apply fftn_has_nan; assumption].
Qed.

Lemma has_nan_size a : wf a -> has_nan a -> (0 < size a)%nat.
Proof.
  unfold wf, has_nan. intros Hwf H. rewrite <- Hwf.
  destruct (data a); [inversion H | cbn; lia].
Qed.

Lemma unmasked_frequencies
  (masked : masked_registration)
  ref mov uf space re ov :
  shape ref = shape mov ->
  lower space = "real"%string \/ lower space = "fourier"%string ->
  snd (phase_cross_correlation masked ref mov uf space re None None ov)
  = snd (register (frequency space ref) (frequency space mov) uf re).
Proof.
  intros Hs Hsp. unfold phase_cross_correlation, frequency. cbn [is_not_None orb].
  rewrite (same_shape_true _ _ Hs). cbn [negb].
  destruct Hsp as [E | E]; rewrite E; cbn [String.eqb Ascii.eqb Bool.eqb].
  - cbv [bind invoke ret]. destruct (register _ _ uf re). reflexivity.
  - rewrite bind_ret. reflexivity.
Qed.

(** A call without masks on two images of one shape, with at least one
    dimension and one sample, ends: it returns shifts, one for each axis, or,
    when the error is asked for, it may raise the not-a-number error. *)
Lemma unmasked_outcome
  (masked : masked_registration)
  ref mov uf space re ov :
  shape ref = shape mov -> (1 <= ndim ref)%nat -> (0 < size ref)%nat ->
  lower space = "real"%string \/ lower space = "fourier"%string ->
  1 <= uf ->
  let r := snd (phase_cross_correlation masked ref mov uf space re None None ov) in
  (re = true /\ r = Raise (ValueError nan_values_found)) \/
  (exists out, r = Return out /\ length (shifts_of out) = ndim ref).
Proof.
  intros Hs Hn Hsz Hsp Huf r. subst r.
  rewrite (unmasked_frequencies _ _ _ _ _ _ _ Hs Hsp).
  destruct (register_runs (frequency space ref) (frequency space mov) uf re)
    as (t1 & shifts & CC & E & Hl).
  { unfold ndim. rewrite shape_frequency. exact Hn. }
  { unfold size. rewrite shape_frequency. exact Hsz. }
  { lra. }
  unfold ndim in Hl. rewrite shape_frequency in Hl.
  rewrite E. cbn [snd]. unfold report. destruct re.
  - destruct (cisnan CC || _ || _); [left; split; reflexivity|].
    right. eexists. split; [reflexivity | exact Hl].
  - right. eexists. split; [reflexivity | exact Hl].
Qed.

(** C1, amended.  For two images of one shape and of at least one
    dimension, one of which contains a not-a-number, a call without masks
    that asks for the error, with a space that is ["real"] or ["fourier"] in
    any letter case and an upsampling factor of at least 1, raises the error
    that asks to remove the not-a-numbers or to use the masks. *)
Theorem nan_input_raises
  (masked : masked_registration)
  (reference_image moving_image : ndarray complex)
  (upsample_factor : R) (space : string) (overlap_ratio : float) :
  shape reference_image = shape moving_image ->
  wf reference_image -> wf moving_image ->
  (1 <= ndim reference_image)%nat ->
  lower space = "real"%string \/ lower space = "fourier"%string ->
  1 <= upsample_factor ->
  has_nan reference_image \/ has_nan moving_image ->
  snd (phase_cross_correlation masked reference_image moving_image upsample_factor
                               space true None None overlap_ratio)
  = Raise (ValueError nan_values_found).
Proof.
  intros Hs Hwr Hwm Hn Hsp Huf Hnan.
  rewrite (unmasked_frequencies _ _ _ _ _ _ _ Hs Hsp).
  assert (Hsz : (0 < size reference_image)%nat).
  { destruct Hnan as [H | H]; [exact (has_nan_size _ Hwr H)|].
    unfold size. rewrite Hs. exact (has_nan_size _ Hwm H). }
  destruct (register_runs (frequency space reference_image)
              (frequency space moving_image) upsample_factor true)
    as (t1 & shifts & CC & E & _).
  { unfold ndim. rewrite shape_frequency. exact Hn. }
  { unfold size. rewrite shape_frequency. exact Hsz. }
  { lra. }
  rewrite E. cbn [snd]. unfold report.
  assert (Hor : isnan (amplitude upsample_factor (frequency space reference_image))
                || isnan (amplitude upsample_factor (frequency space moving_image))
                = true).
  { destruct Hnan as [H | H].
    - rewrite (amplitude_nan _ _ (frequency_has_nan space _ Hwr H)). reflexivity.
    - rewrite (amplitude_nan _ _ (frequency_has_nan space _ Hwm H)).
      apply orb_true_r. }
  rewrite <- orb_assoc, Hor, orb_true_r. reflexivity.
Qed.

Lemma nan_input_raises_witness :
  shape image_nan = shape image_1 /\ wf image_nan /\ wf image_1 /\
  (1 <= ndim image_nan)%nat /\
  (lower "Real" = "real"%string \/ lower "Real" = "fourier"%string) /\
  1 <= 20 /\
  (has_nan image_nan \/ has_nan image_1) /\
  snd (phase_cross_correlation no_masked_registration image_nan image_1 20 "Real"
                               true None None (Fin 0.3))
  = Raise (ValueError nan_values_found).
Proof.
  assert (Hs : shape image_nan = shape image_1) by reflexivity.
  assert (Hw1 : wf image_nan) by reflexivity.
  assert (Hw2 : wf image_1) by reflexivity.
  assert (Hn : (1 <= ndim image_nan)%nat) by (cbv; lia).
  assert (Hsp : lower "Real" = "real"%string \/ lower "Real" = "fourier"%string)
    by (left; reflexivity).
  assert (Hu : 1 <= 20) by lra.
  assert (Hnan : has_nan image_nan \/ has_nan image_1)
    by (left; constructor; reflexivity).
  repeat (split; [assumption|]).
  exact (nan_input_raises no_masked_registration image_nan image_1 20 "Real"
           (Fin 0.3) Hs Hw1 Hw2 Hn Hsp Hu Hnan).
Defined.

(** C1, as it is stated, fails: a call that does not ask for the error
    never looks for not-a-numbers.  On a one-pixel image that is a
    not-a-number it returns the shift 0. *)
Lemma nan_without_error_returns :
  has_nan image_nan /\
  phase_cross_correlation no_masked_registration image_nan image_nan 1 "real" false
                          None None (Fin 0.3)
  = ([call_fftn image_nan; call_fftn image_nan;
      call_ifftn (amul (fftn image_nan) (amap conj (fftn image_nan)))],
     Return (Shifts [Fin 0])) /\
  snd (phase_cross_correlation no_masked_registration image_nan image_nan 1 "real"
                               false None None (Fin 0.3))
  <> Raise (ValueError nan_values_found).
Proof.
  assert (E : phase_cross_correlation no_masked_registration image_nan image_nan 1
                "real" false None None (Fin 0.3)
              = ([call_fftn image_nan; call_fftn image_nan;
                  call_ifftn (amul (fftn image_nan) (amap conj (fftn image_nan)))],
                 Return (Shifts [Fin 0]))).
  { unfold phase_cross_correlation. cbn [is_not_None orb].
    rewrite (same_shape_true image_nan image_nan eq_refl). cbn [negb].
    change (lower "real" =? "fourier")%string with false.
    change (lower "real" =? "real")%string with true. cbv iota.
    unfold register. rewrite (Reqb_true 1 1 eq_refl). reflexivity. }
  split; [constructor; reflexivity|]. split; [exact E|]. rewrite E. discriminate.
Qed.


(** ** The registration of a row of two pixels *)

Lemma ifftn_product_ab :
  ifftn product_ab = NdArray [1%nat; 2%nat] [c0; one].
Proof.
  cbv [ifftn product_ab amul amap spectrum_a spectrum_b data shape dftn indices
       flat_map seq map app size prod_shape fold_right combine fst snd item ravel
       fold_left nth twiddle dft_phase csum Nat.mul Nat.add one minus_one conj re
       im cmul cexp cadd c0 fmul fsub fadd fneg lift1 lift2 cdiv_real of_nat].
  replace (1 * (2 * PI * (INR 0 / INR 1 + (INR 0 / INR 2 + 0)))) with 0
    by (simpl; field).
  replace (1 * (2 * PI * (INR 0 / INR 1 + (INR 1 / INR 2 + 0)))) with PI
    by (simpl; field).
  rewrite exp_0, cos_0, sin_0, cos_PI, sin_PI.
  rewrite !fdiv_Fin by (simpl; lra).
  do 2 f_equal; [|f_equal]; apply Cx_Fin_eq; simpl; field.
Qed.

Lemma cabs_c0 : cabs c0 = Fin 0.
Proof.
  unfold c0. rewrite cabs_Fin. apply Fin_eq.
  replace (0 * 0 + 0 * 0) with 0 by ring. apply sqrt_0.
Qed.

Lemma locate_maximum_ab : locate_maximum (ifftn product_ab) = Return [0%nat; 1%nat].
Proof.
  rewrite ifftn_product_ab. unfold locate_maximum.
  cbn [data shape map argmax argmax_from]. rewrite cabs_c0, cabs_one.
  cbn [better]. rewrite Rltb_true by lra. reflexivity.
Qed.

Lemma register_ab :
  register spectrum_a spectrum_b 1 false
  = ([call_ifftn product_ab], Return (Shifts [Fin 0; Fin 1])).
Proof.
  unfold register. fold product_ab. rewrite (Reqb_true 1 1 eq_refl), bind_invoke.
  rewrite locate_maximum_ab, bind_lift_Return.
  change (stack (map of_nat [0%nat; 1%nat])) with (Return (map of_nat [0%nat; 1%nat])).
  rewrite bind_lift_Return.
  fold (midpoints_of (shape spectrum_a)). rewrite wrap_shifts_coarse.
  reflexivity.
Qed.

Lemma run_ab :
  phase_cross_correlation no_masked_registration spectrum_a spectrum_b 1 "Fourier"
                          false None None (Fin 0.3)
  = ([call_ifftn product_ab], Return (Shifts [Fin 0; Fin 1])).
Proof.
  unfold phase_cross_correlation. cbn [is_not_None orb].
  rewrite (same_shape_true spectrum_a spectrum_b eq_refl). cbn [negb].
  change (lower "Fourier" =? "fourier")%string with true. cbv iota.
  rewrite bind_ret. apply register_ab.
Qed.

Lemma Raround_IZR z : Raround (IZR z) = z.
Proof.
  unfold Raround. rewrite (Rfloor_spec (IZR z) z) by lra.
  rewrite Rltb_true by lra. reflexivity.
Qed.

Lemma snap_2 c : snap 2 c = IZR c.
Proof.
  unfold snap.
  replace (IZR c * 2) with (IZR (c * 2)) by (rewrite mult_IZR; reflexivity).
  rewrite Raround_IZR, mult_IZR. field.
Qed.

Lemma region_offsets_ab : region_offsets 2 [0%Z; 1%Z] = [Fin 1; Fin (-1)].
Proof.
  unfold region_offsets, dftshift_of. rewrite window_size_2. cbn [map].
  rewrite !snap_2. change (3 / 2)%Z with 1%Z. f_equal; [|f_equal]; apply Fin_eq; lra.
Qed.

Lemma fftfreq_2_2 : fftfreq 2 2 = [Fin 0; Fin (- (1 / 4))].
Proof.
  unfold fftfreq.
  change (Z.to_nat ((Z.of_nat 2 - 1) / 2 + 1)) with 1%nat.
  change (2 / 2)%nat with 1%nat. cbn [seq map app Z.of_nat Z.sub Nat.add].
  unfold of_Z, of_nat. rewrite !fdiv_Fin by (simpl; lra).
  f_equal; [|f_equal]; apply Fin_eq; simpl; field.
Qed.

Lemma unit_root_quarters :
  unit_root (- (1 / 4)) = imag /\ unit_root (- (2 / 4)) = minus_one /\
  unit_root (- (3 / 4)) = minus_imag.
Proof.
  unfold unit_root, imag, minus_one, minus_imag. repeat split; apply Cx_Fin_eq.
  - replace (2 * PI * - (1 / 4)) with (- (PI / 2)) by field.
    rewrite cos_neg. apply cos_PI2.
  - replace (2 * PI * - (1 / 4)) with (- (PI / 2)) by field.
    rewrite sin_neg, sin_PI2. ring.
  - replace (2 * PI * - (2 / 4)) with (- PI) by field.
    rewrite cos_neg. apply cos_PI.
  - replace (2 * PI * - (2 / 4)) with (- PI) by field.
    rewrite sin_neg, sin_PI. ring.
  - replace (2 * PI * - (3 / 4)) with (- (3 * (PI / 2))) by field.
    rewrite cos_neg. apply cos_3PI2.
  - replace (2 * PI * - (3 / 4)) with (- (3 * (PI / 2))) by field.
    rewrite sin_neg, sin_3PI2. ring.
Qed.

Lemma kernel_ab :
  kernel 2 3 (Fin (-1)) 2 = [[one; imag]; [one; minus_one]; [one; minus_imag]].
Proof.
  unfold kernel. rewrite fftfreq_2_2. unfold arange.
  change (Z.to_nat 3) with 3%nat. cbn [seq map]. rewrite !kernel_value.
  destruct unit_root_quarters as (Q1 & Q2 & Q3).
  replace ((INR 0 - -1) * 0) with 0 by ring.
  replace ((INR 1 - -1) * 0) with 0 by ring.
  replace ((INR 2 - -1) * 0) with 0 by ring.
  replace ((INR 0 - -1) * - (1 / 4)) with (- (1 / 4)) by (simpl; field).
  replace ((INR 1 - -1) * - (1 / 4)) with (- (2 / 4)) by (simpl; field).
  replace ((INR 2 - -1) * - (1 / 4)) with (- (3 / 4)) by (simpl; field).
  rewrite unit_root_0, Q1, Q2, Q3. reflexivity.
Qed.

Lemma upsampled_dft_ab :
  _upsampled_dft (amap conj product_ab) (Int (window_size 2)) 2
                 (Some (region_offsets 2 [0%Z; 1%Z]))
  = Return window_ab.
Proof.
  rewrite window_size_2, region_offsets_ab. unfold _upsampled_dft, product_ab.
  cbn [rbind map length ndim amap amul spectrum_a spectrum_b shape Nat.eqb negb repeat
       combine rev app fold_left contract_axis].
  rewrite kernel_ab, kernel_unit_axis by lra.
  unfold tensordot, rows, dot, arange.
  change (Z.to_nat 3) with 3%nat.
  cbn [seq map length shape data removelast last flat_map prod_shape fold_right
       Nat.mul Nat.add firstn skipn app combine fst snd csum amap amul spectrum_a
       spectrum_b].
  unfold window_ab. cbn [app]. f_equal. f_equal.
  assert (E0 : cadd (cmul one (conj (cmul one (conj one))))
                 (cadd (cmul imag (conj (cmul one (conj minus_one)))) c0)
               = Cx (Fin 1) (Fin (-1))).
  { cbv [one imag minus_one c0 conj cmul cadd re im fmul fsub fadd fneg lift1 lift2].
    apply Cx_Fin_eq; ring. }
  assert (E1 : cadd (cmul one (conj (cmul one (conj one))))
                 (cadd (cmul minus_one (conj (cmul one (conj minus_one)))) c0)
               = Cx (Fin 2) (Fin 0)).
  { cbv [one imag minus_one c0 conj cmul cadd re im fmul fsub fadd fneg lift1 lift2].
    apply Cx_Fin_eq; ring. }
  assert (E2 : cadd (cmul one (conj (cmul one (conj one))))
                 (cadd (cmul minus_imag (conj (cmul one (conj minus_one)))) c0)
               = Cx (Fin 1) (Fin 1)).
  { cbv [one minus_imag minus_one c0 conj cmul cadd re im fmul fsub fadd fneg lift1
         lift2].
    apply Cx_Fin_eq; ring. }
  rewrite E0, E1, E2.
  assert (F : forall x y, cadd (cmul one (Cx (Fin x) (Fin y))) c0 = Cx (Fin x) (Fin y)).
  { intros x y. cbv [one c0 cmul cadd re im fmul fsub fadd lift2].
    apply Cx_Fin_eq; ring. }
  rewrite !F. reflexivity.
Qed.

Lemma sqrt_2_lt_2 : sqrt 2 < 2.
Proof.
  rewrite <- (sqrt_square 2) at 2 by lra. apply sqrt_lt_1; lra.
Qed.

Lemma locate_maximum_window_ab :
  locate_maximum (amap conj window_ab) = Return [0%nat; 1%nat].
Proof.
  unfold locate_maximum, window_ab.
  cbv [amap data shape map app conj re im fneg lift1]. rewrite !cabs_Fin.
  replace (1 * 1 + - (-1) * - (-1)) with 2 by ring.
  replace (2 * 2 + - 0 * - 0) with (2 * 2) by ring.
  replace (1 * 1 + - (1) * - (1)) with 2 by ring.
  rewrite (sqrt_square 2) by lra.
  cbn [argmax argmax_from better].
  rewrite (Rltb_true (sqrt 2) 2) by exact sqrt_2_lt_2.
  rewrite !(Rltb_false 2 (sqrt 2)) by (pose proof sqrt_2_lt_2; lra).
  rewrite !(Rltb_false 2 2) by lra.
  reflexivity.
Qed.

Lemma energy_spectra : energy spectrum_a = Fin 2 /\ energy spectrum_b = Fin 2.
Proof.
  assert (Hm : cabs minus_one = Fin 1).
  { unfold minus_one. rewrite cabs_Fin. apply Fin_eq.
    replace (-1 * -1 + 0 * 0) with 1 by ring. apply sqrt_1. }
  unfold energy, spectrum_a, spectrum_b. cbn [data map fsum fold_right].
  rewrite Hm, cabs_one. cbn [fmul fadd lift2]. split; apply Fin_eq; ring.
Qed.

Lemma refined_shift_ab : refined_shift 2 1 1 = 1.
Proof.
  unfold refined_shift, dftshift_of. rewrite snap_2, window_size_2.
  change (3 / 2)%Z with 1%Z. simpl. field.
Qed.

Lemma register_ab_refined :
  let CCmax := Cx (Fin 2) (Fin (- 0)) in
  register spectrum_a spectrum_b 2 true
  = ([call_ifftn product_ab; refine_call 2 product_ab [0%Z; 1%Z];
      call_compute_error CCmax (Fin 2) (Fin 2); call_compute_phasediff CCmax],
     Return (ShiftsErrorPhase [Fin 0; Fin 1] (_compute_error CCmax (Fin 2) (Fin 2))
                              (_compute_phasediff CCmax))).
Proof.
  intros CCmax. destruct energy_spectra as [Ea Eb].
  unfold register. fold product_ab. rewrite (Reqb_false 2 1) by lra.
  rewrite Ea, Eb, bind_invoke, locate_maximum_ab, bind_lift_Return.
  change (stack (map of_nat [0%nat; 1%nat])) with (Return (map of_nat [0%nat; 1%nat])).
  rewrite bind_lift_Return.
  fold (midpoints_of (shape spectrum_a)). rewrite wrap_shifts_coarse.
  change (coarse_shifts (shape spectrum_a) [0%nat; 1%nat]) with [0%Z; 1%Z].
  rewrite (subpixel_refine_unfold product_ab [0%Z; 1%Z] 2) by lra.
  rewrite upsampled_dft_ab, bind_invoke, locate_maximum_window_ab, bind_lift_Return.
  change (stack (map of_nat [0%nat; 1%nat])) with (Return (map of_nat [0%nat; 1%nat])).
  rewrite bind_lift_Return. cbn [combine map fst snd]. rewrite refined_shift_ab.
  reflexivity.
Qed.

Lemma register_ab_error :
  register spectrum_a spectrum_b 1 true
  = ([call_ifftn product_ab; call_compute_error one (Fin 1) (Fin 1);
      call_compute_phasediff one],
     Return (ShiftsErrorPhase [Fin 0; Fin 1] (_compute_error one (Fin 1) (Fin 1))
                              (_compute_phasediff one))).
Proof.
  destruct energy_spectra as [Ea Eb].
  unfold register. fold product_ab. rewrite (Reqb_true 1 1 eq_refl), bind_invoke.
  rewrite Ea, Eb, locate_maximum_ab, bind_lift_Return, ifftn_product_ab.
  change (stack (map of_nat [0%nat; 1%nat])) with (Return (map of_nat [0%nat; 1%nat])).
  rewrite bind_lift_Return.
  fold (midpoints_of (shape spectrum_a)). rewrite wrap_shifts_coarse.
  change (of_nat (size spectrum_a)) with (Fin (INR 2)).
  change (of_nat (size spectrum_b)) with (Fin (INR 2)).
  rewrite fdiv_Fin by (simpl; lra).
  replace (2 / INR 2) with 1 by (simpl; field).
  reflexivity.
Qed.

(** The runs of the entry point on the two spectra, with the error. *)
Lemma run_ab_error (upsample_factor : R) :
  phase_cross_correlation no_masked_registration spectrum_a spectrum_b
                          upsample_factor "Fourier" true None None (Fin 0.3)
  = register spectrum_a spectrum_b upsample_factor true.
Proof.
  unfold phase_cross_correlation. cbn [is_not_None orb].
  rewrite (same_shape_true spectrum_a spectrum_b eq_refl). cbn [negb].
  change (lower "Fourier" =? "fourier")%string with true. cbv iota.
  rewrite bind_ret. reflexivity.
Qed.


(** ** The registration of two pixels in the real space *)

Lemma fftn_image_2 : fftn image_2 = NdArray [2%nat] [one; one].
Proof.
  cbv [fftn image_2 data shape dftn indices
       flat_map seq map app size prod_shape fold_right combine fst snd item ravel
       fold_left nth twiddle dft_phase csum Nat.mul Nat.add one conj re
       im cmul cexp cadd c0 fmul fsub fadd fneg lift1 lift2].
  replace (-1 * (2 * PI * (INR 0 / INR 2 + 0))) with 0 by (simpl; field).
  replace (-1 * (2 * PI * (INR 1 / INR 2 + 0))) with (- PI) by (simpl; field).
  rewrite exp_0, cos_0, sin_0, cos_neg, sin_neg, cos_PI, sin_PI.
  do 2 f_equal; [|f_equal]; apply Cx_Fin_eq; ring.
Qed.

Lemma ifftn_self_2 :
  ifftn (amul (fftn image_2) (amap conj (fftn image_2))) = NdArray [2%nat] [one; c0].
Proof.
  rewrite fftn_image_2.
  cbv [ifftn amul amap data shape dftn indices
       flat_map seq map app size prod_shape fold_right combine fst snd item ravel
       fold_left nth twiddle dft_phase csum Nat.mul Nat.add one conj re
       im cmul cexp cadd c0 fmul fsub fadd fneg lift1 lift2 cdiv_real of_nat].
  replace (1 * (2 * PI * (INR 0 / INR 2 + 0))) with 0 by (simpl; field).
  replace (1 * (2 * PI * (INR 1 / INR 2 + 0))) with PI by (simpl; field).
  rewrite exp_0, cos_0, sin_0, cos_PI, sin_PI.
  rewrite !fdiv_Fin by (simpl; lra).
  do 2 f_equal; [|f_equal]; apply Cx_Fin_eq; simpl; field.
Qed.

Lemma energy_fftn_image_2 : energy (fftn image_2) = Fin 2.
Proof.
  rewrite fftn_image_2. unfold energy. cbn [data map fsum fold_right].
  rewrite cabs_one. cbn [fmul fadd lift2]. apply Fin_eq. ring.
Qed.

Lemma register_real_2 :
  register (fftn image_2) (fftn image_2) 1 true
  = ([call_ifftn (amul (fftn image_2) (amap conj (fftn image_2)));
      call_compute_error one (Fin 1) (Fin 1); call_compute_phasediff one],
     Return (ShiftsErrorPhase [Fin 0] (_compute_error one (Fin 1) (Fin 1))
                              (_compute_phasediff one))).
Proof.
  unfold register. rewrite (Reqb_true 1 1 eq_refl), bind_invoke.
  rewrite energy_fftn_image_2, ifftn_self_2.
  unfold locate_maximum. cbn [data shape map argmax argmax_from].
  rewrite cabs_c0, cabs_one. cbn [better]. rewrite Rltb_false by lra.
  cbn [rbind]. rewrite bind_lift_Return.
  change (stack (map of_nat (unravel_index 0 [2%nat])))
    with (Return (map of_nat [0%nat])).
  rewrite bind_lift_Return.
  fold (midpoints_of (shape (fftn image_2))). rewrite wrap_shifts_coarse.
  change (of_nat (size (fftn image_2))) with (Fin (INR 2)).
  rewrite fdiv_Fin by (simpl; lra).
  replace (2 / INR 2) with 1 by (simpl; field).
  reflexivity.
Qed.

Lemma run_real_2 :
  phase_cross_correlation no_masked_registration image_2 image_2 1 "real" true
                          None None (Fin 0.3)
  = ([call_fftn image_2; call_fftn image_2;
      call_ifftn (amul (fftn image_2) (amap conj (fftn image_2)));
      call_compute_error one (Fin 1) (Fin 1); call_compute_phasediff one],
     Return (ShiftsErrorPhase [Fin 0] (_compute_error one (Fin 1) (Fin 1))
                              (_compute_phasediff one))).
Proof.
  unfold phase_cross_correlation. cbn [is_not_None orb].
  rewrite (same_shape_true image_2 image_2 eq_refl). cbn [negb].
  change (lower "real" =? "fourier")%string with false.
  change (lower "real" =? "real")%string with true. cbv iota.
  cbv [bind invoke ret]. rewrite register_real_2. reflexivity.
Qed.

Lemma mean_energy_image_2 :
  mean_energy image_2 = Fin (1 / 2) /\ mean_energy (fftn image_2) = Fin 1.
Proof.
  split.
  - unfold mean_energy, sum_energy, image_2, size.
    cbv [data shape map squared_magnitude one c0 re im fsum fold_right fadd fmul
         lift2 prod_shape Nat.mul of_nat].
    rewrite fdiv_Fin by (simpl; lra). apply Fin_eq. simpl. field.
  - unfold mean_energy. rewrite <- energy_sum, energy_fftn_image_2.
    change (of_nat (size (fftn image_2))) with (Fin (INR 2)).
    rewrite fdiv_Fin by (simpl; lra). apply Fin_eq. simpl. field.
Qed.

(** C5, as it is stated, fails in the real space: the amplitudes are the
    energies of the transforms of the two images, not of the images.  For
    the image of the two pixels 1 and 0 against itself, without upsampling,
    [_compute_error] is called with the amplitudes 1 and 1, the mean energy
    of the transform, where the mean of the squared magnitudes of the image
    is 1/2. *)
Lemma real_space_amplitudes_of_transforms :
  phase_cross_correlation no_masked_registration image_2 image_2 1 "real" true
                          None None (Fin 0.3)
  = ([call_fftn image_2; call_fftn image_2;
      call_ifftn (amul (fftn image_2) (amap conj (fftn image_2)));
      call_compute_error one (Fin 1) (Fin 1); call_compute_phasediff one],
     Return (ShiftsErrorPhase [Fin 0] (_compute_error one (Fin 1) (Fin 1))
                              (_compute_phasediff one))) /\
  mean_energy (fftn image_2) = Fin 1 /\
  mean_energy image_2 = Fin (1 / 2) /\
  Fin 1 <> mean_energy image_2.
Proof.
  destruct mean_energy_image_2 as [E1 E2].
  split; [exact run_real_2|]. split; [exact E2|]. split; [exact E1|].
  rewrite E1. intros H. injection H as H. lra.
Qed.

Lemma amplitudes_mean_or_sum_witness :
  (exists t out,
     phase_cross_correlation no_masked_registration spectrum_a spectrum_b 1
                             "Fourier" true None None (Fin 0.3)
     = (t, Return out) /\
     exists CCmax src_amp target_amp shifts,
       In (call_compute_error CCmax src_amp target_amp) t /\
       out = ShiftsErrorPhase shifts (_compute_error CCmax src_amp target_amp)
                              (_compute_phasediff CCmax) /\
       src_amp = mean_energy spectrum_a /\ target_amp = mean_energy spectrum_b) /\
  (exists t out,
     phase_cross_correlation no_masked_registration spectrum_a spectrum_b 2
                             "Fourier" true None None (Fin 0.3)
     = (t, Return out) /\
     exists CCmax src_amp target_amp shifts,
       In (call_compute_error CCmax src_amp target_amp) t /\
       out = ShiftsErrorPhase shifts (_compute_error CCmax src_amp target_amp)
                              (_compute_phasediff CCmax) /\
       src_amp = sum_energy spectrum_a /\ target_amp = sum_energy spectrum_b) /\
  (exists t out,
     phase_cross_correlation no_masked_registration image_2 image_2 1
                             "real" true None None (Fin 0.3)
     = (t, Return out) /\
     exists CCmax src_amp target_amp shifts,
       In (call_compute_error CCmax src_amp target_amp) t /\
       out = ShiftsErrorPhase shifts (_compute_error CCmax src_amp target_amp)
                              (_compute_phasediff CCmax) /\
       src_amp = mean_energy (fftn image_2) /\
       target_amp = mean_energy (fftn image_2)).
Proof.
  split; [|split].
  - pose proof (eq_trans (run_ab_error 1) register_ab_error) as Hrun.
    eexists. eexists. split; [exact Hrun|].
    destruct (amplitudes_mean_or_sum no_masked_registration spectrum_a spectrum_b 1
                "Fourier" (Fin 0.3) _ _ Hrun)
      as (CCmax & src_amp & target_amp & shifts & Hin & Hout & H1 & _).
    exists CCmax, src_amp, target_amp, shifts.
    split; [exact Hin|]. split; [exact Hout|]. exact (H1 eq_refl).
  - pose proof (eq_trans (run_ab_error 2) register_ab_refined) as Hrun.
    eexists. eexists. split; [exact Hrun|].
    destruct (amplitudes_mean_or_sum no_masked_registration spectrum_a spectrum_b 2
                "Fourier" (Fin 0.3) _ _ Hrun)
      as (CCmax & src_amp & target_amp & shifts & Hin & Hout & _ & H2).
    exists CCmax, src_amp, target_amp, shifts.
    split; [exact Hin|]. split; [exact Hout|]. apply H2. lra.
  - pose proof run_real_2 as Hrun.
    eexists. eexists. split; [exact Hrun|].
    destruct (amplitudes_mean_or_sum no_masked_registration image_2 image_2 1
                "real" (Fin 0.3) _ _ Hrun)
      as (CCmax & src_amp & target_amp & shifts & Hin & Hout & H1 & _).
    exists CCmax, src_amp, target_amp, shifts.
    split; [exact Hin|]. split; [exact Hout|]. exact (H1 eq_refl).
Defined.

Lemma unit_axis_shift_is_zero_witness :
  nth_error (shape spectrum_a) 0 = Some 1%nat /\
  nth_error (shifts_of (Shifts [Fin 0; Fin 1])) 0 = Some (Fin 0) /\
  exists computed,
    zero_unit_axes (shape spectrum_a) computed
    = Return (shifts_of (Shifts [Fin 0; Fin 1])) /\
    forall k, nth_error (shape spectrum_a) k <> Some 1%nat ->
              nth_error (shifts_of (Shifts [Fin 0; Fin 1])) k = nth_error computed k.
Proof.
  split; [reflexivity|].
  apply (unit_axis_shift_is_zero no_masked_registration spectrum_a spectrum_b 1
           "Fourier" false (Fin 0.3) _ (Shifts [Fin 0; Fin 1]) 0%nat run_ab
           eq_refl).
Defined.

Lemma coarse_shift_in_half_extent_witness :
  exists maxima,
    locate_maximum (ifftn product_ab) = Return maxima /\
    length (shifts_of (Shifts [Fin 0; Fin 1])) = length (shape spectrum_a) /\
    forall k n,
      nth_error (shape spectrum_a) k = Some n ->
      exists m,
        nth_error maxima k = Some m /\ (m < n)%nat /\
        nth_error (shifts_of (Shifts [Fin 0; Fin 1])) k
        = Some (Fin (IZR (wrap_index n m))) /\
        (Z.of_nat n / 2 - Z.of_nat n + 1 <= wrap_index n m <= Z.of_nat n / 2)%Z /\
        (Z.abs (wrap_index n m) <= Z.of_nat n / 2)%Z.
Proof.
  apply (coarse_shift_in_half_extent no_masked_registration spectrum_a spectrum_b
           "Fourier" false (Fin 0.3) _ (Shifts [Fin 0; Fin 1]) run_ab).
Defined.

(** * Further properties of the module *)

Lemma kernel_region n u off uf :
  uf <> 0 ->
  kernel n u (Fin off) uf
  = map (fun k => map (fun j => unit_root ((INR k - off)
                                            * (IZR (freq_index n j) / INR n / uf)))
                      (seq 0 n))
        (seq 0 (Z.to_nat u)).
Proof.
  intros Huf. unfold kernel, arange. rewrite map_map. apply map_ext. intros k.
  rewrite fftfreq_seq, map_map. apply map_ext_in. intros j Hj. apply in_seq in Hj.
  assert (Hn0 : INR n <> 0) by (apply not_0_INR; lia).
  unfold of_Z. unfold of_nat at 2. rewrite !fdiv_Fin by assumption.
  apply kernel_value.
Qed.

Lemma upsampled_phase_cons uf n s off offs k ks j js :
  upsampled_phase uf (n :: s) (off :: offs) (k :: ks) (j :: js)
  = (INR k - off) * (IZR (freq_index n j) / INR n / uf)
    + upsampled_phase uf s offs ks js.
Proof. reflexivity. Qed.

Lemma region_props_fst (s : list nat) (us : list Z) (offs : list R) :
  length us = length s -> length offs = length s ->
  map fst (combine s (combine us (map Fin offs))) = s.
Proof.
  intros H1 H2. apply map_fst_combine. rewrite length_combine, length_map. lia.
Qed.

Lemma region_props_sizes (s : list nat) (us : list Z) (offs : list R) :
  length us = length s -> length offs = length s ->
  map (fun p => Z.to_nat (fst (snd p))) (combine s (combine us (map Fin offs)))
  = map Z.to_nat us.
Proof.
  intros H1 H2. apply map_mid_combine; [|rewrite length_map]; lia.
Qed.

(** The invariant of the loop over the axes, for any region, factor and
    offsets: after the axes [s2] at the end of the shape have been
    contracted, the running array holds the upsampled transform of the input
    along these axes. *)
Lemma contract_region_items uf (a : ndarray complex) :
  uf <> 0 -> wf a ->
  forall s2 us offs s1,
    length us = length s2 -> length offs = length s2 -> shape a = s1 ++ s2 ->
    s2 <> [] \/ Forall finite (data a) ->
    let b := fold_left (contract_axis uf)
                       (rev (combine s2 (combine us (map Fin offs)))) a in
    (shape b = map Z.to_nat us ++ s1 /\ wf b) /\
    forall k2 j1, valid_index k2 (map Z.to_nat us) -> valid_index j1 s1 ->
      item b (k2 ++ j1)
      = csum (map (fun j2 => cmul (item a (j1 ++ j2))
                                  (unit_root (upsampled_phase uf s2 offs k2 j2)))
                  (indices s2)).
Proof.
  intros Huf Hwf.
  induction s2 as [|n s2 IH]; intros [|u us] [|off offs] s1 Hu Ho Hs Hor;
    try discriminate.
  - destruct Hor as [Hne | Hfin]; [congruence|].
    cbn [map combine rev fold_left app]. rewrite app_nil_r in Hs.
    split; [split; assumption|].
    intros k2 j1 Hk Hj.
    assert (Hf : finite (item a j1)).
    { apply item_finite; [assumption | assumption | rewrite Hs; assumption]. }
    inversion Hk; subst. cbn [app indices map csum fold_right].
    unfold upsampled_phase. cbn [combine map fold_right].
    rewrite unit_root_0, cadd_0_r, app_nil_r. symmetry. apply cmul_1_r, Hf.
  - cbn [length] in Hu, Ho. apply Nat.succ_inj in Hu, Ho.
    cbn [map combine rev]. rewrite fold_left_app. cbn [fold_left].
    assert (Hs' : shape a = (s1 ++ [n]) ++ s2) by (rewrite <- app_assoc; exact Hs).
    assert (Hor' : s2 <> [] \/ s2 = []) by (destruct s2; [right | left]; congruence).
    assert (Hb0 : let b0 := fold_left (contract_axis uf)
                              (rev (combine s2 (combine us (map Fin offs)))) a in
                  shape b0 = map Z.to_nat us ++ (s1 ++ [n]) /\ wf b0).
    { cbv zeta. destruct Hor' as [Hne | ->].
      - apply (IH us offs (s1 ++ [n]) Hu Ho Hs' (or_introl Hne)).
      - destruct us; [|discriminate]. cbn [combine rev fold_left map app].
        rewrite app_nil_r in Hs'. split; assumption. }
    cbv zeta in Hb0. destruct Hb0 as (Hsh0 & Hwf0).
    set (b0 := fold_left _ _ a) in *. cbv zeta.
    assert (Hb : contract_axis uf b0 (n, (u, Fin off))
                 = tensordot
                     (map (fun k => map (fun j => unit_root
                                          ((INR k - off)
                                           * (IZR (freq_index n j) / INR n / uf)))
                                        (seq 0 n)) (seq 0 (Z.to_nat u))) b0).
    { cbn [contract_axis]. rewrite kernel_region by exact Huf. reflexivity. }
    rewrite Hb.
    assert (Hsh0' : shape b0 = (map Z.to_nat us ++ s1) ++ [n])
      by (rewrite Hsh0, <- app_assoc; reflexivity).
    split.
    { split; [|apply wf_tensordot].
      rewrite shape_tensordot, length_map, length_seq, Hsh0', removelast_last.
      reflexivity. }
    intros k2 j1 Hk Hj. inversion Hk as [|k n' k2' s2' Hkn Hk2']; subst.
    cbn [app].
    pose proof (tensordot_item
                  (fun k j => unit_root ((INR k - off)
                                         * (IZR (freq_index n j) / INR n / uf)))
                  (Z.to_nat u) b0 (map Z.to_nat us ++ s1) n k (k2' ++ j1) Hsh0' Hwf0
                  (valid_index_app _ _ _ _ Hk2' Hj) Hkn) as T.
    cbv beta in T. rewrite T. clear T.
    cbn [indices]. rewrite map_flat_map, csum_flat_map.
    apply csum_ext. intros j Hjn. apply in_seq in Hjn.
    rewrite <- app_assoc, !map_map.
    destruct Hor' as [Hne | ->].
    + destruct (IH us offs (s1 ++ [n]) Hu Ho Hs' (or_introl Hne)) as (_ & IHi).
      cbv zeta in IHi. fold b0 in IHi.
      rewrite IHi;
        [| exact Hk2' | apply valid_index_app; [exact Hj | repeat constructor; lia]].
      rewrite cmul_csum by apply finite_unit_root. rewrite !map_map.
      apply csum_ext. intros j2 _. rewrite upsampled_phase_cons, <- app_assoc.
      cbn [app]. rewrite unit_root_add, !cmul_assoc. f_equal. apply cmul_comm.
    + (* the first contraction reads the input itself *)
      destruct us; [|discriminate]. destruct offs; [|discriminate].
      inversion Hk2'; subst.
      cbn [app indices map csum fold_right rev fold_left combine] in *.
      subst b0. rewrite upsampled_phase_cons. unfold upsampled_phase at 1.
      cbn [combine map fold_right]. rewrite Rplus_0_r, cadd_0_r.
      apply cmul_comm.
Qed.

(** X1.  The argument checks of [_upsampled_dft] and the shape of its result.
    A sequence of region sizes that does not hold one size per axis of the
    data is reported first, whatever the offsets are; then a sequence of
    offsets that does not hold one offset per axis.  In every other case the
    function returns, for any factor, an array whose shape is the region
    sizes (a size below zero counts as zero), with as many elements as this
    shape announces. *)
Theorem upsampled_dft_checks_and_shape
  (data_ : ndarray complex) (upsampled_region_size : region_size)
  (upsample_factor : R) (axis_offsets : option (list float)) :
  (region_sizes_fit data_ upsampled_region_size = false ->
     _upsampled_dft data_ upsampled_region_size upsample_factor axis_offsets
     = Raise (ValueError region_sizes_mismatch)) /\
  (region_sizes_fit data_ upsampled_region_size = true ->
   axis_offsets_fit data_ axis_offsets = false ->
     _upsampled_dft data_ upsampled_region_size upsample_factor axis_offsets
     = Raise (ValueError axis_offsets_mismatch)) /\
  (region_sizes_fit data_ upsampled_region_size = true ->
   axis_offsets_fit data_ axis_offsets = true ->
     exists w,
       _upsampled_dft data_ upsampled_region_size upsample_factor axis_offsets
       = Return w /\
       shape w = map Z.to_nat (region_sizes_of data_ upsampled_region_size) /\
       ((1 <= ndim data_)%nat \/ wf data_ -> wf w)).
Proof.
  split; [|split].
  - destruct upsampled_region_size as [n|l]; cbn [region_sizes_fit]; [discriminate|].
    intros H. unfold _upsampled_dft. rewrite H. reflexivity.
  - intros Hr Ho. unfold _upsampled_dft.
    assert (E : exists sizes,
      match upsampled_region_size with
      | Int n => Return (repeat n (ndim data_))
      | Sizes l => if negb (length l =? ndim data_)%nat
                   then Raise (ValueError region_sizes_mismatch) else Return l
      end = Return sizes).
    { destruct upsampled_region_size as [n|l]; cbn [region_sizes_fit] in Hr;
        [|rewrite Hr]; eexists; reflexivity. }
    destruct E as [sizes ->]. cbn [rbind].
    destruct axis_offsets as [l|]; cbn [axis_offsets_fit] in Ho; [|discriminate].
    rewrite Ho. reflexivity.
  - intros Hr Ho.
    set (sizes := region_sizes_of data_ upsampled_region_size).
    set (offs := match axis_offsets with
                 | None => repeat (Fin 0) (ndim data_) | Some l => l end).
    assert (Hls : length sizes = ndim data_).
    { unfold sizes. destruct upsampled_region_size as [n|l];
        cbn [region_sizes_fit region_sizes_of] in *;
        [apply repeat_length | apply Nat.eqb_eq, Hr]. }
    assert (Hlo : length offs = ndim data_).
    { unfold offs. destruct axis_offsets as [l|]; cbn [axis_offsets_fit] in *;
        [apply Nat.eqb_eq, Ho | apply repeat_length]. }
    exists (fold_left (contract_axis upsample_factor)
                      (rev (combine (shape data_) (combine sizes offs))) data_).
    split; [|split].
    + unfold _upsampled_dft, sizes, offs.
      destruct upsampled_region_size as [n|l];
        cbn [region_sizes_fit region_sizes_of] in *;
        [|rewrite Hr]; cbn [negb rbind];
        (destruct axis_offsets as [l'|]; cbn [axis_offsets_fit] in *;
         [rewrite Ho|]; reflexivity).
    + unfold ndim in *.
      rewrite (shape_contract_all upsample_factor _ []).
      * rewrite app_nil_r. apply map_mid_combine; lia.
      * rewrite map_fst_combine; [reflexivity|]. rewrite length_combine. lia.
    + intros [Hn | Hwf].
      * apply wf_contract_all. unfold ndim in *.
        destruct (shape data_); [cbn in Hn; lia|].
        destruct sizes; [discriminate|]. destruct offs; discriminate.
      * unfold ndim in *. destruct (shape data_) as [|n s] eqn:Es.
        -- cbn [combine rev fold_left]. exact Hwf.
        -- apply wf_contract_all.
           destruct sizes; [discriminate|]. destruct offs; discriminate.
Qed.

Lemma upsampled_dft_checks_and_shape_witness :
  region_sizes_fit image_2 (Sizes [3%Z; 3%Z]) = false /\
  _upsampled_dft image_2 (Sizes [3%Z; 3%Z]) 2 (Some [])
  = Raise (ValueError region_sizes_mismatch) /\
  region_sizes_fit image_2 (Int 3) = true /\
  axis_offsets_fit image_2 (Some []) = false /\
  _upsampled_dft image_2 (Int 3) 2 (Some [])
  = Raise (ValueError axis_offsets_mismatch) /\
  axis_offsets_fit image_2 (Some [Fin 1]) = true /\
  (1 <= ndim image_2)%nat /\
  exists w,
    _upsampled_dft image_2 (Int 3) 2 (Some [Fin 1]) = Return w /\
    shape w = [3%nat] /\ wf w.
Proof.
  pose proof (upsampled_dft_checks_and_shape image_2 (Sizes [3%Z; 3%Z]) 2 (Some []))
    as (H1 & _ & _).
  pose proof (upsampled_dft_checks_and_shape image_2 (Int 3) 2 (Some []))
    as (_ & H2 & _).
  pose proof (upsampled_dft_checks_and_shape image_2 (Int 3) 2 (Some [Fin 1]))
    as (_ & _ & H3).
  assert (Hn : (1 <= ndim image_2)%nat) by (cbv; lia).
  split; [reflexivity|]. split; [exact (H1 eq_refl)|].
  split; [reflexivity|]. split; [reflexivity|]. split; [exact (H2 eq_refl eq_refl)|].
  split; [reflexivity|]. split; [exact Hn|].
  destruct (H3 eq_refl eq_refl) as (w & Hw & Hs & Hwf).
  exists w. split; [exact Hw|]. split; [exact Hs | exact (Hwf (or_introl Hn))].
Defined.

(** X2.  The entries of the upsampled DFT.  For a factor other than zero,
    one region size and one offset per axis, the entry [k] of the result is
    [sum_j data[j] * exp(-2 pi i * sum_a (k_a - offset_a) * f_a(j_a))], where
    [f_a(j) = freq_index n_a j / n_a / upsample_factor] is the frequency of
    the sample [j] of the axis [a], of length [n_a]: the samples of the
    transform of the data on a grid [upsample_factor] times finer, from the
    offsets on.  No offsets ([None]) are zero offsets.  An array without
    dimension is to hold a number. *)
Theorem upsampled_dft_entries
  (data_ : ndarray complex) (region : list Z) (upsample_factor : R)
  (offsets : list R) (axis_offsets : option (list float)) :
  wf data_ -> upsample_factor <> 0 ->
  length region = ndim data_ -> length offsets = ndim data_ ->
  (1 <= ndim data_)%nat \/ Forall finite (data data_) ->
  axis_offsets = Some (map Fin offsets) \/
  (axis_offsets = None /\ offsets = repeat 0 (ndim data_)) ->
  exists w,
    _upsampled_dft data_ (Sizes region) upsample_factor axis_offsets = Return w /\
    shape w = map Z.to_nat region /\ wf w /\
    forall k, valid_index k (map Z.to_nat region) ->
      item w k
      = csum (map (fun j =>
                     cmul (item data_ j)
                          (unit_root (upsampled_phase upsample_factor (shape data_)
                                                      offsets k j)))
                  (indices (shape data_))).
Proof.
  intros Hwf Huf Hr Ho Hor Hoff.
  assert (Hor' : shape data_ <> [] \/ Forall finite (data data_)).
  { destruct Hor as [Hn | Hf]; [left | right; exact Hf].
    unfold ndim in Hn. destruct (shape data_); [cbn in Hn; lia | discriminate]. }
  destruct (contract_region_items upsample_factor data_ Huf Hwf (shape data_) region
              offsets [] Hr Ho eq_refl Hor') as ((Hsh & Hw) & Hit).
  cbv zeta in Hsh, Hw, Hit. rewrite app_nil_r in Hsh.
  exists (fold_left (contract_axis upsample_factor)
                    (rev (combine (shape data_) (combine region (map Fin offsets))))
                    data_).
  split; [|split; [exact Hsh | split; [exact Hw|]]].
  - unfold _upsampled_dft. rewrite Hr, Nat.eqb_refl. cbn [negb rbind].
    destruct Hoff as [-> | (-> & Hz)].
    + rewrite length_map, Ho, Nat.eqb_refl. reflexivity.
    + cbn [rbind]. rewrite Hz, map_repeat. reflexivity.
  - intros k Hk. specialize (Hit k [] Hk (Forall2_nil _)).
    rewrite app_nil_r in Hit. exact Hit.
Qed.

Lemma upsampled_dft_entries_witness :
  wf image_2 /\ 2 <> 0 /\ (1 <= ndim image_2)%nat /\
  exists w,
    _upsampled_dft image_2 (Sizes [3%Z]) 2 (Some [Fin 1]) = Return w /\
    shape w = [3%nat] /\ wf w /\
    forall k, valid_index k [3%nat] ->
      item w k
      = csum (map (fun j =>
                     cmul (item image_2 j)
                          (unit_root (upsampled_phase 2 [2%nat] [1] k j)))
                  (indices [2%nat])).
Proof.
  assert (Hwf : wf image_2) by reflexivity.
  assert (H2 : 2 <> 0) by lra.
  assert (Hn : (1 <= ndim image_2)%nat) by (cbv; lia).
  split; [exact Hwf|]. split; [exact H2|]. split; [exact Hn|].
  exact (upsampled_dft_entries image_2 [3%Z] 2 [1] (Some [Fin 1]) Hwf H2 eq_refl
           eq_refl (or_introl Hn) (or_introl eq_refl)).
Defined.

(** ** The metrics *)

Lemma polar_atan a b :
  a <> 0 ->
  sqrt (a * a + b * b) * cos (atan (b / a)) = Rabs a /\
  sqrt (a * a + b * b) * sin (atan (b / a)) = Rabs a * (b / a).
Proof.
  intros Ha. set (t := b / a).
  assert (Ht : 0 < 1 + t²) by (unfold Rsqr; nra).
  assert (Hs : 0 < sqrt (1 + t²)) by (apply sqrt_lt_R0, Ht).
  assert (E : sqrt (a * a + b * b) = Rabs a * sqrt (1 + t²)).
  { replace (a * a + b * b) with (a² * (1 + t²))
      by (unfold t, Rsqr; field; exact Ha).
    rewrite sqrt_mult by (try apply Rle_0_sqr; lra).
    rewrite sqrt_Rsqr_abs. reflexivity. }
  rewrite E, cos_atan, sin_atan. fold t. split; field; lra.
Qed.

Lemma atan_nonpos t : t <= 0 -> atan t <= 0.
Proof.
  intros [H | ->]; [|rewrite atan_0; lra].
  apply atan_increasing in H. rewrite atan_0 in H. lra.
Qed.

Lemma atan_pos t : 0 < t -> 0 < atan t.
Proof. intros H. apply atan_increasing in H. rewrite atan_0 in H. exact H. Qed.

(** The angle of [arctan2] is an argument of the point. *)
Lemma Ratan2_polar (a b : R) :
  - PI <= Ratan2 b a <= PI /\
  a = sqrt (a * a + b * b) * cos (Ratan2 b a) /\
  b = sqrt (a * a + b * b) * sin (Ratan2 b a).
Proof.
  pose proof PI_RGT_0 as Hpi. pose proof (atan_bound (b / a)) as Hb.
  unfold Ratan2.
  destruct (Rlt_dec 0 a) as [Hpos | Hnpos].
  - rewrite (Rltb_true _ _ Hpos).
    destruct (polar_atan a b) as (Hc & Hs); [lra|].
    rewrite Rabs_right in Hc, Hs by lra.
    split; [lra|]. split; [lra|]. rewrite Hs; field; lra.
  - rewrite Rltb_false by lra.
    destruct (Rlt_dec a 0) as [Hneg | Hnneg].
    + rewrite (Rltb_true _ _ Hneg).
      destruct (polar_atan a b) as (Hc & Hs); [lra|].
      rewrite Rabs_left in Hc, Hs by lra.
      destruct (Rle_dec 0 b) as [Hb0 | Hb0].
      * rewrite (Rleb_true _ _ Hb0).
        assert (Ht : b / a <= 0).
        { unfold Rdiv. assert (/ a < 0) by (apply Rinv_lt_0_compat; lra). nra. }
        pose proof (atan_nonpos _ Ht).
        rewrite neg_cos, neg_sin.
        split; [lra|]. split; [lra|].
        replace b with (- (- a * (b / a))) at 1 by (field; lra). lra.
      * rewrite Rleb_false by lra.
        assert (Ht : 0 < b / a).
        { unfold Rdiv. assert (/ a < 0) by (apply Rinv_lt_0_compat; lra). nra. }
        pose proof (atan_pos _ Ht).
        rewrite cos_minus, sin_minus, cos_PI, sin_PI.
        split; [lra|]. split; [lra|].
        replace b with (- (- a * (b / a))) at 1 by (field; lra). lra.
    + rewrite Rltb_false by lra.
      assert (a = 0) by lra. subst a.
      replace (0 * 0 + b * b) with (b²) by (unfold Rsqr; ring).
      rewrite sqrt_Rsqr_abs.
      destruct (Rlt_dec 0 b) as [Hbp | Hbnp].
      * rewrite (Rltb_true _ _ Hbp), cos_PI2, sin_PI2, Rabs_right by lra.
        split; [lra|]. split; lra.
      * rewrite Rltb_false by lra.
        destruct (Rlt_dec b 0) as [Hbn | Hbnn].
        -- rewrite (Rltb_true _ _ Hbn), cos_neg, sin_neg, cos_PI2, sin_PI2,
             Rabs_left by lra.
           split; [lra|]. split; lra.
        -- rewrite Rltb_false by lra. assert (b = 0) by lra. subst b.
           rewrite Rabs_R0, cos_0, sin_0. split; [lra|]. split; lra.
Qed.

Lemma Ratan2_positive_real a : 0 < a -> Ratan2 0 a = 0.
Proof.
  intros H. unfold Ratan2. rewrite (Rltb_true _ _ H).
  unfold Rdiv. rewrite Rmult_0_l. apply atan_0.
Qed.

(** X3.  The phase difference is an argument of the peak value: for a
    peak [a + i b] of magnitude [r], [_compute_phasediff] returns an angle
    [theta] with [-pi <= theta <= pi], [a = r cos theta] and
    [b = r sin theta].  These fix the angle of every peak but zero and the
    peaks on the negative real axis, where the angle is [pi] or [-pi]: the
    program returns the one for a zero imaginary part and the other for a
    negative zero one. *)
Theorem compute_phasediff_is_argument (a b : R) :
  exists theta,
    _compute_phasediff (Cx (Fin a) (Fin b)) = Fin theta /\
    - PI <= theta <= PI /\
    a = sqrt (a * a + b * b) * cos theta /\
    b = sqrt (a * a + b * b) * sin theta.
Proof.
  exists (Ratan2 b a). split; [reflexivity | apply Ratan2_polar].
Qed.

(** The peak value times its conjugate: the squared magnitude, a real. *)
Lemma cmul_conj x y :
  cmul (Cx (Fin x) (Fin y)) (conj (Cx (Fin x) (Fin y)))
  = Cx (Fin (x * x + y * y)) (Fin 0).
Proof.
  cbv [cmul conj re im fmul fsub fadd fneg lift1 lift2]. apply Cx_Fin_eq; ring.
Qed.

Lemma cmul_conj_nan z : cisnan z = true -> cmul z (conj z) = Cx NaN NaN.
Proof. destruct z as [[x|] [y|]]; cbn; intros H; try discriminate; reflexivity. Qed.

Lemma cmul_unit_root_conj x y t :
  let w := cmul (Cx (Fin x) (Fin y)) (unit_root t) in
  cmul w (conj w) = Cx (Fin (x * x + y * y)) (Fin 0).
Proof.
  cbv [unit_root cmul conj re im fmul fsub fadd fneg lift1 lift2].
  pose proof (sin2_cos2 (2 * PI * t)) as H. unfold Rsqr in H.
  apply Cx_Fin_eq; [|ring].
  set (c := cos (2 * PI * t)) in *. set (s := sin (2 * PI * t)) in *.
  replace ((x * c - y * - s) * (x * c - y * - s)
           - (x * - s + y * c) * - (x * - s + y * c))
    with ((x * x + y * y) * (s * s + c * c)) by ring.
  rewrite H. ring.
Qed.

(** X4.  The error metric is invariant: it depends on the peak value by
    its magnitude alone.  It is the same for the peak rotated by any phase
    [exp(-2 pi i t)] and for its conjugate, and it is symmetric in the two
    amplitudes. *)
Theorem compute_error_invariant (cross_correlation_max : complex) (t : R)
        (src_amp target_amp : float) :
  _compute_error (cmul cross_correlation_max (unit_root t)) src_amp target_amp
  = _compute_error cross_correlation_max src_amp target_amp /\
  _compute_error (conj cross_correlation_max) src_amp target_amp
  = _compute_error cross_correlation_max src_amp target_amp /\
  _compute_error cross_correlation_max target_amp src_amp
  = _compute_error cross_correlation_max src_amp target_amp.
Proof.
  unfold _compute_error. cbv zeta. split; [|split].
  - destruct (cisnan cross_correlation_max) eqn:En.
    + rewrite (cmul_nan _ (unit_root t) En), (cmul_conj_nan _ En). reflexivity.
    + destruct (finite_Cx _ En) as (x & y & ->).
      rewrite (cmul_unit_root_conj x y t), cmul_conj. reflexivity.
  - destruct (cisnan cross_correlation_max) eqn:En.
    + rewrite (cmul_conj_nan _ En).
      destruct cross_correlation_max as [[x|] [y|]]; try discriminate; reflexivity.
    + destruct (finite_Cx _ En) as (x & y & ->).
      change (conj (Cx (Fin x) (Fin y))) with (Cx (Fin x) (Fin (- y))).
      rewrite !cmul_conj. replace (x * x + - y * - y) with (x * x + y * y) by ring.
      reflexivity.
  - assert (E : fmul target_amp src_amp = fmul src_amp target_amp).
    { destruct src_amp, target_amp; cbn; try reflexivity. f_equal. ring. }
    rewrite E. reflexivity.
Qed.

(** ** Every run of the registration *)

Lemma locate_maximum_Raise (a : ndarray complex) e :
  locate_maximum a = Raise e -> e = ValueError empty_argmax /\ data a = [].
Proof.
  unfold locate_maximum, argmax. destruct (data a) as [|x l]; cbn; intros H;
    inversion H; auto.
Qed.

Lemma locate_maximum_length (a : ndarray complex) maxima :
  locate_maximum a = Return maxima -> length maxima = ndim a.
Proof.
  unfold locate_maximum. destruct (argmax _) as [e|i]; cbn; intros H; inversion H.
  apply unravel_index_length.
Qed.

Lemma stack_Raise l e : stack l = Raise e -> e = ValueError empty_stack /\ l = [].
Proof. destruct l; cbn; intros H; inversion H; auto. Qed.

Lemma Rceil_nonpos x : (Rceil x <= 0)%Z -> x <= 0.
Proof.
  unfold Rceil. intros H. pose proof (Rfloor_bounds (- x)) as B. unfold Rfloor in B.
  assert (0 <= Int_part (- x))%Z by lia. apply IZR_le in H0. lra.
Qed.

Lemma prod_shape_repeat_0 n k : prod_shape (repeat n k) = 0%nat -> n = 0%nat.
Proof.
  intros H. destruct n; [reflexivity|].
  pose proof (prod_shape_repeat (S n) k ltac:(lia)). lia.
Qed.

(** The refinement block on shifts of one entry per axis: one call of the
    upsampled DFT, then the refined shifts, one per axis, unless the window
    is empty. *)
Lemma subpixel_refine_outcome product shifts uf :
  length shifts = ndim product -> (1 <= ndim product)%nat ->
  exists c, fst (subpixel_refine product shifts uf) = [c] /\
    (exists o, c = call_upsampled_dft (amap conj product) (Int (window_size uf)) uf
                                      (Some o)) /\
    match snd (subpixel_refine product shifts uf) with
    | Raise e => e = ValueError empty_argmax /\ uf <= 0
    | Return (refined, _) => length refined = ndim product
    end.
Proof.
  intros Hl Hn. unfold subpixel_refine. cbv zeta.
  match goal with |- context [_upsampled_dft ?a (Int ?r) ?u (Some ?o)] =>
    destruct (upsampled_dft_window a r u o) as (w & Hw & Hshw & Hwf);
    [rewrite !length_map; exact Hl|]
  end.
  change (ndim (amap conj product)) with (ndim product) in Hshw, Hwf.
  specialize (Hwf Hn). rewrite Hw, bind_invoke.
  eexists. split; [|split; [eexists; unfold window_size;
                           replace (1.5 * uf) with (uf * 1.5) by ring; reflexivity|]].
  - cbn [fst]. f_equal.
    destruct (locate_maximum (amap conj w)) as [e|peak] eqn:Hpk;
      [reflexivity|].
    rewrite bind_lift_Return.
    destruct (stack (map of_nat peak)) as [e|st] eqn:Hst; reflexivity.
  - cbn [snd].
    destruct (locate_maximum (amap conj w)) as [e|peak] eqn:Hpk.
    + rewrite bind_lift_Raise. cbn [snd].
      apply locate_maximum_Raise in Hpk as (-> & Hd). split; [reflexivity|].
      cbn [amap data] in Hd. apply map_eq_nil in Hd.
      unfold wf, size in Hwf. rewrite Hd, Hshw in Hwf. cbn [length] in Hwf.
      symmetry in Hwf. apply prod_shape_repeat_0 in Hwf.
      assert (Hz : (Rceil (uf * 1.5) <= 0)%Z) by lia.
      apply Rceil_nonpos in Hz. lra.
    + rewrite bind_lift_Return.
      apply locate_maximum_length in Hpk. unfold ndim in Hpk. cbn [shape amap] in Hpk.
      rewrite Hshw, repeat_length in Hpk.
      rewrite stack_total, bind_lift_Return
        by (apply length_nonempty; rewrite length_map; lia).
      cbn [ret snd]. rewrite length_map, length_combine, !length_map. lia.
Qed.

(** Every run of [register]: it fails on an array without elements or
    without axes or on an empty window, whatever [return_error] is;
    otherwise it ends in the last block, [report], on shifts of one entry
    per axis.  The upsampled DFT is called once, for a factor other than 1. *)
Lemma register_core src tgt uf :
  let product := amul src (amap conj tgt) in
  exists t1,
    (uf = 1 -> t1 = []) /\
    (forall c, In c t1 ->
       exists o, c = call_upsampled_dft (amap conj product) (Int (window_size uf)) uf
                                        (Some o)) /\
    (length t1 <= 1)%nat /\
    ((exists e,
        (forall re, register src tgt uf re = (call_ifftn product :: t1, Raise e)) /\
        ((e = ValueError empty_argmax /\
          (size src = 0%nat \/ (uf <> 1 /\ uf <= 0))) \/
         (e = ValueError empty_stack /\ ndim src = 0%nat)))
     \/
     (exists shifts CCmax,
        length shifts = ndim src /\
        (uf = 1 ->
         exists maxima,
           locate_maximum (ifftn product) = Return maxima /\
           CCmax = item (ifftn product) maxima /\
           zero_unit_axes (shape src)
             (map (fun c => Fin (IZR c)) (coarse_shifts (shape src) maxima))
           = Return shifts) /\
        forall re,
          register src tgt uf re
          = (call_ifftn product
               :: t1 ++ fst (report re shifts CCmax (amplitude uf src)
                                    (amplitude uf tgt)),
             snd (report re shifts CCmax (amplitude uf src) (amplitude uf tgt))))).
Proof.
  intros product.
  destruct (locate_maximum (ifftn product)) as [e|maxima] eqn:Hloc.
  { exists []. split; [reflexivity|]. split; [intros c []|]. split; [cbn; lia|].
    left. exists e. split.
    - intros re. unfold register. fold product.
      rewrite bind_invoke, Hloc, bind_lift_Raise. reflexivity.
    - left. apply locate_maximum_Raise in Hloc as (-> & Hd). split; [reflexivity|].
      left. pose proof (wf_ifftn product) as W. unfold wf in W. rewrite Hd in W.
      symmetry. exact W. }
  pose proof (locate_maximum_length _ _ Hloc) as Hlm.
  change (ndim (ifftn product)) with (ndim src) in Hlm.
  destruct (stack (map of_nat maxima)) as [e|st] eqn:Hst.
  { exists []. split; [reflexivity|]. split; [intros c []|]. split; [cbn; lia|].
    left. exists e. split.
    - intros re. unfold register. fold product.
      rewrite bind_invoke, Hloc, bind_lift_Return, Hst, bind_lift_Raise. reflexivity.
    - right. apply stack_Raise in Hst as (-> & Hm). split; [reflexivity|].
      apply map_eq_nil in Hm. rewrite Hm in Hlm. symmetry. exact Hlm. }
  apply stack_Return in Hst as (-> & Hne). pose proof (stack_total _ Hne) as Hst.
  assert (Hn : (1 <= ndim src)%nat).
  { rewrite <- Hlm. destruct maxima; [cbn in Hne; congruence | cbn; lia]. }
  set (coarse := wrap_shifts (map of_nat maxima) (midpoints_of (shape src))
                             (shape src)).
  assert (Hlc : length coarse = ndim src).
  { apply wrap_shifts_length; unfold midpoints_of; rewrite length_map;
      [exact Hlm | reflexivity]. }
  assert (Hreg : forall re,
    register src tgt uf re
    = (let (t', r) :=
         bind (if Reqb uf 1 then
                 if re then
                   ret (coarse, Some (item (ifftn product) maxima),
                        Some (fdiv (energy src) (of_nat (size src)),
                              fdiv (energy tgt) (of_nat (size tgt))))
                 else ret (coarse, None, None)
               else
                 bind (subpixel_refine product coarse uf)
                      (fun x => let '(shifts, CCmax) := x in
                         if re then ret (shifts, Some CCmax,
                                         Some (energy src, energy tgt))
                         else ret (shifts, Some CCmax, None)))
              (fun x => let '(shifts, CCmax, amps) := x in
                 bind (lift (zero_unit_axes (shape src) shifts))
                      (fun shifts =>
                         if re then
                           match CCmax, amps with
                           | Some CCmax, Some (src_amp, target_amp) =>
                               if cisnan CCmax || isnan src_amp || isnan target_amp
                               then raise (ValueError nan_values_found)
                               else
                                 bind
                                   (invoke
                                      (call_compute_error CCmax src_amp target_amp)
                                      (Return
                                         (_compute_error CCmax src_amp target_amp)))
                                   (fun error =>
                                      bind (invoke (call_compute_phasediff CCmax)
                                              (Return (_compute_phasediff CCmax)))
                                        (fun phasediff =>
                                           ret (ShiftsErrorPhase shifts error
                                                                 phasediff)))
                           | _, _ => raise UnboundLocalError
                           end
                         else ret (Shifts shifts)))
       in (call_ifftn product :: t', r))).
  { intros re. unfold register. fold product.
    rewrite bind_invoke, Hloc, bind_lift_Return, Hst, bind_lift_Return.
    fold (midpoints_of (shape src)). fold coarse.
    match goal with |- (_ :: fst ?m, snd ?m) = _ => destruct m as [t' r] end.
    reflexivity. }
  unfold amplitude.
  destruct (Req_dec_T uf 1) as [Huf | Huf].
  - rewrite (Reqb_true _ _ Huf) in *.
    destruct (zero_unit_axes_total (shape src) coarse) as [shifts Hz];
      [unfold ndim in Hlc; rewrite Hlc; apply Nat.le_refl|].
    exists []. split; [reflexivity|]. split; [intros c []|]. split; [cbn; lia|]. right.
    exists shifts, (item (ifftn product) maxima). split; [|split].
    + apply zero_unit_axes_Return in Hz as [Hl _]. rewrite Hl. exact Hlc.
    + intros _. exists maxima. split; [reflexivity|]. split; [reflexivity|].
      rewrite <- wrap_shifts_coarse. exact Hz.
    + intros re. rewrite Hreg. destruct re; rewrite bind_ret; cbv beta iota;
        rewrite Hz, bind_lift_Return; unfold report; [|reflexivity].
      destruct (cisnan _ || _ || _); reflexivity.
  - rewrite (Reqb_false _ _ Huf) in *.
    destruct (subpixel_refine_outcome product coarse uf Hlc Hn)
      as (c & Hc & Hcall & Hout).
    destruct (subpixel_refine product coarse uf) as [tr [e | [refined CC]]] eqn:Hsr;
      cbn [fst snd] in Hc, Hout; subst tr.
    + destruct Hout as (-> & Hle).
      exists [c]. split; [intros; contradiction|].
      split; [intros c' [<- | []]; exact Hcall|]. split; [cbn; lia|]. left.
      exists (ValueError empty_argmax). split.
      * intros re. rewrite Hreg. reflexivity.
      * left. split; [reflexivity|]. right. split; assumption.
    + destruct (zero_unit_axes_total (shape src) refined) as [shifts Hz];
        [unfold ndim in Hout; rewrite Hout; apply Nat.le_refl|].
      exists [c]. split; [intros; contradiction|].
      split; [intros c' [<- | []]; exact Hcall|]. split; [cbn; lia|]. right.
      exists shifts, CC. split; [|split].
      * apply zero_unit_axes_Return in Hz as [Hl _]. rewrite Hl. exact Hout.
      * intros E. contradiction.
      * intros re. rewrite Hreg.
        destruct re; cbv [bind ret]; cbv beta iota; unfold lift; rewrite Hz;
          unfold report; [|reflexivity].
        destruct (cisnan _ || _ || _); reflexivity.
Qed.

Lemma report_Raise re shifts CC sa ta e :
  snd (report re shifts CC sa ta) = Raise e ->
  re = true /\ e = ValueError nan_values_found.
Proof.
  unfold report. destruct re; [|discriminate].
  destruct (cisnan _ || _ || _); cbn; intros H; inversion H. auto.
Qed.

Lemma report_Return re shifts CC sa ta out :
  snd (report re shifts CC sa ta) = Return out ->
  shifts_of out = shifts /\
  ((re = false /\ out = Shifts shifts) \/
   (re = true /\ cisnan CC || isnan sa || isnan ta = false /\
    out = ShiftsErrorPhase shifts (_compute_error CC sa ta) (_compute_phasediff CC))).
Proof.
  unfold report. destruct re.
  - destruct (cisnan _ || _ || _) eqn:E; cbn; intros H; inversion H. auto.
  - cbn. intros H; inversion H. auto.
Qed.

(** The frequency-domain arrays of a call without masks and the calls of
    the transform that yield them. *)
Lemma unmasked_run
  (masked : masked_registration)
  ref mov uf space re ov :
  shape ref = shape mov ->
  lower space = "real"%string \/ lower space = "fourier"%string ->
  phase_cross_correlation masked ref mov uf space re None None ov
  = ((if (lower space =? "fourier")%string then []
      else [call_fftn ref; call_fftn mov])
       ++ fst (register (frequency space ref) (frequency space mov) uf re),
     snd (register (frequency space ref) (frequency space mov) uf re)).
Proof.
  intros Hs Hsp. unfold phase_cross_correlation, frequency. cbn [is_not_None orb].
  rewrite (same_shape_true _ _ Hs). cbn [negb].
  destruct Hsp as [E | E]; rewrite E; cbn [String.eqb Ascii.eqb Bool.eqb].
  - cbv [bind invoke ret]. destruct (register _ _ uf re). reflexivity.
  - rewrite bind_ret. cbn [app]. destruct (register _ _ uf re). reflexivity.
Qed.

Lemma unmasked_bad_space
  (masked : masked_registration)
  ref mov uf space re ov :
  shape ref = shape mov ->
  lower space <> "fourier"%string -> lower space <> "real"%string ->
  phase_cross_correlation masked ref mov uf space re None None ov
  = ([], Raise (ValueError bad_space_argument)).
Proof.
  intros Hs H1 H2. unfold phase_cross_correlation. cbn [is_not_None orb].
  rewrite (same_shape_true _ _ Hs). cbn [negb].
  apply String.eqb_neq in H1, H2. rewrite H1, H2. reflexivity.
Qed.

Lemma space_cases (space : string) :
  (lower space = "real"%string \/ lower space = "fourier"%string) \/
  (lower space <> "fourier"%string /\ lower space <> "real"%string).
Proof.
  destruct (String.eqb_spec (lower space) "fourier"); [left; right; assumption|].
  destruct (String.eqb_spec (lower space) "real"); [left; left; assumption|].
  right. split; assumption.
Qed.

(** X5.  The errors of a call without masks.  Such a call raises nothing
    but a [ValueError], and only
    - for images of different shapes;
    - for a [space] that is neither "real" nor "fourier", on images of one
      shape;
    - for not-a-number values, when [return_error] is set;
    - from [argmax], for images without elements or, with a factor other
      than 1, a factor that is not above zero (the window is empty);
    - from [stack], for images without axes.
    It never raises an [IndexError] (the final loop writes within the
    shifts) or an [UnboundLocalError] (the peak value and the amplitudes are
    assigned on every path that reads them), and the two errors of
    [_upsampled_dft] never come out of it. *)
Theorem unmasked_errors
  (masked : masked_registration)
  (reference_image moving_image : ndarray complex)
  (upsample_factor : R) (space : string) (return_error : bool)
  (overlap_ratio : float) (e : exn) :
  snd (phase_cross_correlation masked reference_image moving_image upsample_factor
                               space return_error None None overlap_ratio)
  = Raise e ->
  ((e = ValueError images_not_same_shape /\
    shape reference_image <> shape moving_image) \/
   (e = ValueError bad_space_argument /\
    shape reference_image = shape moving_image /\
    lower space <> "fourier"%string /\ lower space <> "real"%string) \/
   (e = ValueError nan_values_found /\ return_error = true) \/
   (e = ValueError empty_argmax /\
    (size reference_image = 0%nat \/
     (upsample_factor <> 1 /\ upsample_factor <= 0))) \/
   (e = ValueError empty_stack /\ ndim reference_image = 0%nat)) /\
  e <> IndexError /\ e <> UnboundLocalError /\
  e <> ValueError region_sizes_mismatch /\ e <> ValueError axis_offsets_mismatch.
Proof.
  intros H.
  assert (D :
    (e = ValueError images_not_same_shape /\
     shape reference_image <> shape moving_image) \/
    (e = ValueError bad_space_argument /\
     shape reference_image = shape moving_image /\
     lower space <> "fourier"%string /\ lower space <> "real"%string) \/
    (e = ValueError nan_values_found /\ return_error = true) \/
    (e = ValueError empty_argmax /\
     (size reference_image = 0%nat \/
      (upsample_factor <> 1 /\ upsample_factor <= 0))) \/
    (e = ValueError empty_stack /\ ndim reference_image = 0%nat)).
  { destruct (list_eq_dec Nat.eq_dec (shape reference_image) (shape moving_image))
      as [Hs | Hs].
    2:{ rewrite (unmasked_shape_mismatch masked _ _ _ _ _ _ Hs) in H.
        inversion H. left. split; [reflexivity | exact Hs]. }
    destruct (space_cases space) as [Hsp | (H1 & H2)].
    2:{ rewrite (unmasked_bad_space masked _ _ _ _ _ _ Hs H1 H2) in H.
        inversion H. right; left. auto. }
    rewrite (unmasked_run masked _ _ _ _ _ _ Hs Hsp) in H. cbn [snd] in H.
    destruct (register_core (frequency space reference_image)
                (frequency space moving_image) upsample_factor)
      as (t1 & _ & _ & _ & [(e' & He & Hwhy) | (shifts & CC & _ & _ & Hrun)]).
    - rewrite He in H. inversion H; subst e'.
      unfold size, ndim in Hwhy. rewrite shape_frequency in Hwhy.
      right; right; right. exact Hwhy.
    - rewrite Hrun in H. cbn [snd] in H. apply report_Raise in H as (-> & ->).
      right; right; left. auto. }
  split; [exact D|].
  destruct D as [(-> & _) | [(-> & _) | [(-> & _) | [(-> & _) | (-> & _)]]]];
    repeat split; discriminate.
Qed.

Lemma unmasked_errors_witness :
  snd (phase_cross_correlation no_masked_registration image_1 image_2 20 "real" true
                               None None (Fin 0.3))
  = Raise (ValueError images_not_same_shape) /\
  shape image_1 <> shape image_2.
Proof.
  assert (H : snd (phase_cross_correlation no_masked_registration image_1 image_2 20
                     "real" true None None (Fin 0.3))
              = Raise (ValueError images_not_same_shape)) by reflexivity.
  split; [exact H|].
  destruct (unmasked_errors no_masked_registration image_1 image_2 20 "real" true
              (Fin 0.3) _ H)
    as ([(_ & Hs) | [(E & _) | [(E & _) | [(E & _) | (E & _)]]]] & _);
    [exact Hs | discriminate E ..].
Defined.

(** X6.  [return_error] only adds the metrics.  When a call without masks
    returns, its shifts hold one entry per axis of the images; the same
    call without [return_error] returns these shifts alone, and the same
    call with [return_error] returns these shifts with the two metrics,
    unless it reports not-a-number values. *)
Theorem return_error_only_adds_metrics
  (masked : masked_registration)
  (reference_image moving_image : ndarray complex)
  (upsample_factor : R) (space : string) (return_error : bool)
  (overlap_ratio : float) (t : list call) (out : output) :
  phase_cross_correlation masked reference_image moving_image upsample_factor
                          space return_error None None overlap_ratio
  = (t, Return out) ->
  let run := fun return_error =>
    snd (phase_cross_correlation masked reference_image moving_image upsample_factor
                                 space return_error None None overlap_ratio) in
  length (shifts_of out) = ndim reference_image /\
  run false = Return (Shifts (shifts_of out)) /\
  (run true = Raise (ValueError nan_values_found) \/
   exists error phasediff,
     run true = Return (ShiftsErrorPhase (shifts_of out) error phasediff)) /\
  (if return_error
   then exists error phasediff, out = ShiftsErrorPhase (shifts_of out) error phasediff
   else out = Shifts (shifts_of out)).
Proof.
  intros H run.
  assert (H' := H). apply unmasked_Return in H' as (Hs & _).
  destruct (space_cases space) as [Hsp | (H1 & H2)].
  2:{ rewrite (unmasked_bad_space masked _ _ _ _ _ _ Hs H1 H2) in H. discriminate. }
  assert (Hrun : forall re, run re
            = snd (register (frequency space reference_image)
                            (frequency space moving_image) upsample_factor re)).
  { intros re. unfold run. rewrite (unmasked_run masked _ _ _ _ _ _ Hs Hsp).
    reflexivity. }
  assert (Ho : run return_error = Return out) by (unfold run; rewrite H; reflexivity).
  rewrite !Hrun. rewrite Hrun in Ho.
  destruct (register_core (frequency space reference_image)
              (frequency space moving_image) upsample_factor)
    as (t1 & _ & _ & _ & [(e' & He & _) | (shifts & CC & Hl & _ & Hreg)]).
  { rewrite He in Ho. discriminate. }
  rewrite Hreg in Ho. cbn [snd] in Ho.
  apply report_Return in Ho as (Eo & Hform).
  unfold ndim in Hl. rewrite shape_frequency in Hl.
  rewrite !Hreg. cbn [snd]. rewrite Eo.
  split; [exact Hl|]. split; [reflexivity|]. split.
  - unfold report. destruct (cisnan _ || _ || _); [left | right; do 2 eexists];
      reflexivity.
  - destruct Hform as [(-> & ->) | (-> & _ & ->)]; [reflexivity|].
    do 2 eexists; reflexivity.
Qed.

Lemma return_error_only_adds_metrics_witness :
  phase_cross_correlation no_masked_registration spectrum_a spectrum_b 1 "Fourier"
                          false None None (Fin 0.3)
  = ([call_ifftn product_ab], Return (Shifts [Fin 0; Fin 1])) /\
  length [Fin 0; Fin 1] = ndim spectrum_a /\
  (snd (phase_cross_correlation no_masked_registration spectrum_a spectrum_b 1
                                "Fourier" true None None (Fin 0.3))
   = Raise (ValueError nan_values_found) \/
   exists error phasediff,
     snd (phase_cross_correlation no_masked_registration spectrum_a spectrum_b 1
                                  "Fourier" true None None (Fin 0.3))
     = Return (ShiftsErrorPhase [Fin 0; Fin 1] error phasediff)).
Proof.
  split; [exact run_ab|].
  destruct (return_error_only_adds_metrics no_masked_registration spectrum_a
              spectrum_b 1 "Fourier" false (Fin 0.3) _ _ run_ab) as (H1 & _ & H3 & _).
  split; [exact H1 | exact H3].
Defined.

(** X7.  Registering two images in the real space is registering their
    transforms in the Fourier space: the two calls end alike, with the same
    shifts and metrics or the same error, and the first one makes the calls
    of the second one after the two transforms. *)
Theorem real_space_is_fourier_space_of_transforms
  (masked : masked_registration)
  (reference_image moving_image : ndarray complex)
  (upsample_factor : R) (real_space fourier_space : string) (return_error : bool)
  (overlap_ratio : float) :
  lower real_space = "real"%string -> lower fourier_space = "fourier"%string ->
  let run_real :=
    phase_cross_correlation masked reference_image moving_image upsample_factor
                            real_space return_error None None overlap_ratio in
  let run_fourier :=
    phase_cross_correlation masked (fftn reference_image) (fftn moving_image)
                            upsample_factor fourier_space return_error None None
                            overlap_ratio in
  snd run_real = snd run_fourier /\
  fst run_real
  = (if same_shape reference_image moving_image
     then [call_fftn reference_image; call_fftn moving_image] else [])
      ++ fst run_fourier.
Proof.
  intros Hr Hf run_real run_fourier. subst run_real run_fourier.
  destruct (list_eq_dec Nat.eq_dec (shape reference_image) (shape moving_image))
    as [Hs | Hs].
  - rewrite (same_shape_true _ _ Hs).
    rewrite (unmasked_run masked reference_image _ _ _ _ _ Hs (or_introl Hr)).
    rewrite (unmasked_run masked (fftn reference_image) (fftn moving_image) _ _ _ _
               Hs (or_intror Hf)).
    unfold frequency. rewrite Hr, Hf. cbn [String.eqb Ascii.eqb Bool.eqb fst snd app].
    split; reflexivity.
  - rewrite (same_shape_false _ _ Hs).
    rewrite (unmasked_shape_mismatch masked reference_image _ _ _ _ _ Hs).
    rewrite (unmasked_shape_mismatch masked (fftn reference_image)
               (fftn moving_image) _ _ _ _ Hs).
    split; reflexivity.
Qed.

Lemma real_space_is_fourier_space_of_transforms_witness :
  lower "Real" = "real"%string /\ lower "FOURIER" = "fourier"%string /\
  snd (phase_cross_correlation no_masked_registration image_2 image_2 1 "Real" true
                               None None (Fin 0.3))
  = snd (phase_cross_correlation no_masked_registration (fftn image_2) (fftn image_2)
                                 1 "FOURIER" true None None (Fin 0.3)).
Proof.
  split; [reflexivity|]. split; [reflexivity|].
  exact (proj1 (real_space_is_fourier_space_of_transforms no_masked_registration
                  image_2 image_2 1 "Real" "FOURIER" true (Fin 0.3)
                  eq_refl eq_refl)).
Defined.

(** X8.  The calls of a run without masks, in their order: the two
    transforms of the images in the real space and none in the Fourier
    space; the inverse transform of the frequency product; for a factor
    other than 1, one call of the upsampled DFT on the conjugate of that
    product with the window of the factor, and no such call for the factor
    1; at last, when [return_error] is set and the run returns, the error
    and the phase difference of one peak value, in this order.  Nothing
    else is called, and the metrics are not computed in a run that fails. *)
Theorem unmasked_call_protocol
  (masked : masked_registration)
  (reference_image moving_image : ndarray complex)
  (upsample_factor : R) (space : string) (return_error : bool)
  (overlap_ratio : float) :
  shape reference_image = shape moving_image ->
  lower space = "real"%string \/ lower space = "fourier"%string ->
  let src_freq := frequency space reference_image in
  let target_freq := frequency space moving_image in
  let image_product := amul src_freq (amap conj target_freq) in
  let run := phase_cross_correlation masked reference_image moving_image
               upsample_factor space return_error None None overlap_ratio in
  exists refinement metrics,
    fst run
    = (if (lower space =? "fourier")%string then []
       else [call_fftn reference_image; call_fftn moving_image])
        ++ [call_ifftn image_product] ++ refinement ++ metrics /\
    (refinement = [] \/
     upsample_factor <> 1 /\
     exists offsets,
       refinement = [call_upsampled_dft (amap conj image_product)
                                        (Int (window_size upsample_factor))
                                        upsample_factor (Some offsets)]) /\
    (metrics = [] \/
     return_error = true /\
     exists CCmax shifts,
       let src_amp := amplitude upsample_factor src_freq in
       let target_amp := amplitude upsample_factor target_freq in
       metrics = [call_compute_error CCmax src_amp target_amp;
                  call_compute_phasediff CCmax] /\
       snd run = Return (ShiftsErrorPhase shifts
                           (_compute_error CCmax src_amp target_amp)
                           (_compute_phasediff CCmax))).
Proof.
  intros Hs Hsp src_freq target_freq image_product run. subst run.
  rewrite (unmasked_run masked _ _ _ _ _ _ Hs Hsp). cbn [fst snd].
  fold src_freq target_freq.
  destruct (register_core src_freq target_freq upsample_factor)
    as (t1 & Huf & Hcall & Hlen & Hrun). cbv zeta in Hcall, Hrun.
  fold image_product in Hcall, Hrun.
  assert (Ht1 : t1 = [] \/
                upsample_factor <> 1 /\
                exists offsets,
                  t1 = [call_upsampled_dft (amap conj image_product)
                                           (Int (window_size upsample_factor))
                                           upsample_factor (Some offsets)]).
  { destruct t1 as [|c [|c' t1]]; [left; reflexivity | right | cbn in Hlen; lia].
    split; [intros E; specialize (Huf E); discriminate|].
    destruct (Hcall c (or_introl eq_refl)) as (o & ->). exists o. reflexivity. }
  destruct Hrun as [(e & He & _) | (shifts & CC & _ & _ & Hreg)].
  - exists t1, []. rewrite He. cbn [fst snd]. rewrite app_nil_r.
    split; [reflexivity|]. split; [exact Ht1 | left; reflexivity].
  - exists t1, (fst (report return_error shifts CC
                       (amplitude upsample_factor src_freq)
                       (amplitude upsample_factor target_freq))).
    rewrite Hreg. cbn [fst snd]. split; [reflexivity|]. split; [exact Ht1|].
    unfold report. destruct return_error; [|left; reflexivity].
    destruct (cisnan CC || _ || _); [left; reflexivity|]. right.
    split; [reflexivity|]. exists CC, shifts. split; reflexivity.
Qed.

Lemma unmasked_call_protocol_witness :
  shape spectrum_a = shape spectrum_b /\
  (lower "Fourier" = "real"%string \/ lower "Fourier" = "fourier"%string) /\
  exists refinement metrics,
    fst (phase_cross_correlation no_masked_registration spectrum_a spectrum_b 1
                                 "Fourier" true None None (Fin 0.3))
    = [] ++ [call_ifftn product_ab] ++ refinement ++ metrics /\
    refinement = [] /\
    metrics = [call_compute_error one (Fin 1) (Fin 1); call_compute_phasediff one].
Proof.
  assert (Hs : shape spectrum_a = shape spectrum_b) by reflexivity.
  assert (Hsp : lower "Fourier" = "real"%string \/ lower "Fourier" = "fourier"%string)
    by (right; reflexivity).
  split; [exact Hs|]. split; [exact Hsp|].
  destruct (unmasked_call_protocol no_masked_registration spectrum_a spectrum_b 1
              "Fourier" true (Fin 0.3) Hs Hsp)
    as (refinement & metrics & Ht & [-> | (Hne & _)] & _);
    [|exfalso; apply Hne; reflexivity].
  exists [], metrics. split; [exact Ht|]. split; [reflexivity|].
  rewrite run_ab_error, register_ab_error in Ht. cbn [fst] in Ht.
  change (if (lower "Fourier" =? "fourier")%string then []
          else [call_fftn spectrum_a; call_fftn spectrum_b]) with (@nil call) in Ht.
  cbn [app] in Ht. inversion Ht as [Ht']. reflexivity.
Defined.

(** ** The refined shifts, on the grid and near the peak *)

Lemma Rceil_bounds x : x <= IZR (Rceil x) < x + 1.
Proof.
  unfold Rceil. pose proof (Rfloor_bounds (- x)) as B. unfold Rfloor in B.
  rewrite opp_IZR. lra.
Qed.

Lemma snap_close uf c : 0 < uf -> Rabs (snap uf c - IZR c) <= 1 / (2 * uf).
Proof.
  intros Huf. rewrite Rabs_minus_sym.
  pose proof (Rfloor_bounds (IZR c * uf)) as B. set (f := Rfloor (IZR c * uf)) in *.
  assert (Hinv : 0 < / uf) by (apply Rinv_0_lt_compat, Huf).
  destruct (Rle_dec (IZR c * uf - IZR f) (1 / 2)) as [L | L].
  - eapply Rle_trans; [apply (snap_nearest uf c f Huf)|].
    replace (IZR c - IZR f / uf) with ((IZR c * uf - IZR f) * / uf) by (field; lra).
    rewrite Rabs_right by nra.
    replace (1 / (2 * uf)) with (1 / 2 * / uf) by (field; lra). nra.
  - eapply Rle_trans; [apply (snap_nearest uf c (f + 1) Huf)|].
    rewrite plus_IZR.
    replace (IZR c - (IZR f + 1) / uf) with (- ((IZR f + 1 - IZR c * uf) * / uf))
      by (field; lra).
    rewrite Rabs_Ropp, Rabs_right by nra.
    replace (1 / (2 * uf)) with (1 / 2 * / uf) by (field; lra). nra.
Qed.

Lemma refined_shift_grid uf c p :
  uf <> 0 ->
  refined_shift uf c p * uf
  = IZR (Raround (IZR c * uf) + Z.of_nat p - dftshift_of uf).
Proof.
  intros Huf. unfold refined_shift, snap.
  rewrite minus_IZR, plus_IZR, <- INR_IZR_INZ. field. exact Huf.
Qed.

Lemma refined_shift_near uf c p :
  1 < uf -> (Z.of_nat p < window_size uf)%Z ->
  Rabs (refined_shift uf c p - IZR c) < 3 / 4 + 1 / uf.
Proof.
  intros Huf Hp. unfold refined_shift.
  pose proof (snap_close uf c ltac:(lra)) as Hs.
  pose proof (Rceil_bounds (1.5 * uf)) as HW. fold (window_size uf) in HW.
  replace (1.5 * uf) with (3 / 2 * uf) in HW by lra.
  unfold dftshift_of. set (W := window_size uf) in *.
  pose proof (Z.div_mod W 2 ltac:(lia)) as Hdm.
  pose proof (Z.mod_pos_bound W 2 ltac:(lia)) as Hmod.
  set (d := (W / 2)%Z) in *.
  assert (Hpd : (- d <= Z.of_nat p - d <= d)%Z) by lia.
  assert (Hd : 2 * IZR d <= IZR W).
  { rewrite <- mult_IZR. apply IZR_le. lia. }
  assert (Hx : Rabs (INR p - IZR d) <= IZR d).
  { rewrite INR_IZR_INZ, <- minus_IZR. destruct Hpd as [H1 H2].
    apply IZR_le in H1, H2. rewrite opp_IZR in H1. apply Rabs_le. lra. }
  assert (Hinv : 0 < / uf) by (apply Rinv_0_lt_compat; lra).
  replace (snap uf c + (INR p - IZR d) / uf - IZR c)
    with ((snap uf c - IZR c) + (INR p - IZR d) * / uf) by (field; lra).
  eapply Rle_lt_trans; [apply Rabs_triang|].
  rewrite Rabs_mult, (Rabs_right (/ uf)) by lra.
  assert (Hb : Rabs (INR p - IZR d) * / uf < 3 / 4 + 1 / (2 * uf)).
  { replace (3 / 4 + 1 / (2 * uf)) with ((3 / 2 * uf + 1) / 2 * / uf) by (field; lra).
    apply Rle_lt_trans with (IZR d * / uf); [nra|].
    apply Rmult_lt_compat_r; lra. }
  replace (1 / uf) with (1 / (2 * uf) + 1 / (2 * uf)) by (field; lra). lra.
Qed.

Lemma nth_error_combine {A B} (l1 : list A) (l2 : list B) k a b :
  nth_error l1 k = Some a -> nth_error l2 k = Some b ->
  nth_error (combine l1 l2) k = Some (a, b).
Proof.
  revert l2 k. induction l1 as [|x l1 IH]; intros [|y l2] [|k] H1 H2;
    cbn in *; try discriminate; [congruence | apply IH; assumption].
Qed.

Lemma nth_error_Some_lt {A} (l : list A) k :
  (k < length l)%nat -> exists a, nth_error l k = Some a.
Proof.
  intros H. destruct (nth_error l k) eqn:E; [eexists; reflexivity|].
  apply nth_error_None in E. lia.
Qed.

(** The stages of a run that refines: the peak of the cross-correlation, the
    peak of the window and the refined shifts before the final pass. *)
Lemma refined_run
  (masked : masked_registration)
  ref mov uf space re ov t out :
  1 < uf ->
  phase_cross_correlation masked ref mov uf space re None None ov = (t, Return out) ->
  let product := amul (frequency space ref) (amap conj (frequency space mov)) in
  exists maxima peak,
    locate_maximum (ifftn product) = Return maxima /\
    Forall2 (fun m n => m < n)%nat maxima (shape ref) /\
    Forall (fun p => (Z.of_nat p < window_size uf)%Z) peak /\
    length peak = ndim ref /\
    zero_unit_axes (shape ref)
      (map (fun p => Fin (refined_shift uf (fst p) (snd p)))
           (combine (coarse_shifts (shape ref) maxima) peak))
    = Return (shifts_of out).
Proof.
  intros Huf H product.
  apply unmasked_Return in H as (Hs & t' & H & Ht).
  apply register_Return in H
    as (maxima & pre & CC & t1 & shifts & Hloc & Hmax & Hbr & Hz & Ho).
  fold product in Hloc, Hbr, Hz.
  pose proof (shape_frequency space ref) as Hsh. rewrite Hsh in Hbr, Hz.
  destruct Hbr as [(Heq & _) | (_ & Href)]; [lra|].
  rewrite wrap_shifts_coarse in Href.
  set (coarse := coarse_shifts (shape ref) maxima) in *.
  rewrite (subpixel_refine_unfold _ _ _ Huf) in Href.
  apply bind_invoke_inv in Href as (window & t2 & Hw & Href & ->).
  apply bind_lift_inv in Href as (peak & Hpk & Href).
  apply bind_lift_inv in Href as (st & Hst & Href).
  unfold ret in Href. inversion Href; subst t2 pre CC; clear Href.
  pose proof (locate_maximum_bound _ _ (wf_ifftn _) Hloc) as Hb.
  change (shape (ifftn product)) with (shape (frequency space ref)) in Hb.
  rewrite Hsh in Hb.
  pose proof (Forall2_length Hb) as Hlen.
  assert (Hn : (1 <= ndim ref)%nat).
  { unfold ndim. rewrite <- Hlen. destruct maxima; [congruence | cbn; lia]. }
  assert (Hnd : ndim (amap conj product) = ndim ref).
  { unfold ndim. change (shape (amap conj product)) with (shape (frequency space ref)).
    rewrite Hsh. reflexivity. }
  destruct (upsampled_dft_window (amap conj product) (window_size uf) uf
              (region_offsets uf coarse)) as (w & Hw' & Hshw & Hwf).
  { unfold region_offsets. rewrite length_map. unfold coarse.
    rewrite coarse_shifts_length by exact Hlen. rewrite Hnd. reflexivity. }
  rewrite Hw in Hw'. inversion Hw'; subst w; clear Hw'. rewrite Hnd in Hshw, Hwf.
  pose proof (locate_maximum_bound _ _ (wf_amap conj _ (Hwf Hn)) Hpk) as Hpb.
  cbn [shape amap] in Hpb. rewrite Hshw in Hpb.
  pose proof (window_size_pos _ Huf) as HW.
  exists maxima, peak. split; [exact Hloc|]. split; [exact Hb|]. split.
  { apply Forall2_repeat_r in Hpb. revert Hpb. apply Forall_impl. intros p. lia. }
  split.
  { rewrite (Forall2_length Hpb), repeat_length. reflexivity. }
  assert (Eo : shifts_of out = shifts).
  { destruct Ho as [(_ & -> & _) | (_ & _ & -> & _)]; reflexivity. }
  rewrite Eo. exact Hz.
Qed.

(** X9.  The resolution and the reach of the refinement.  In a call
    without masks, with a factor above 1, that returns, the shift of every
    axis of a length other than 1 is a multiple of [1 / upsample_factor] and
    lies less than [3/4 + 1/upsample_factor] pixels from the whole-pixel
    shift of the peak of the cross-correlation on that axis. *)
Theorem refined_shift_on_grid_near_peak
  (masked : masked_registration)
  (reference_image moving_image : ndarray complex)
  (upsample_factor : R) (space : string) (return_error : bool)
  (overlap_ratio : float) (t : list call) (out : output) :
  1 < upsample_factor ->
  phase_cross_correlation masked reference_image moving_image upsample_factor
                          space return_error None None overlap_ratio
  = (t, Return out) ->
  let src_freq := frequency space reference_image in
  let target_freq := frequency space moving_image in
  let cross_correlation := ifftn (amul src_freq (amap conj target_freq)) in
  exists maxima,
    locate_maximum cross_correlation = Return maxima /\
    forall k n,
      nth_error (shape reference_image) k = Some n -> n <> 1%nat ->
      exists m x z,
        nth_error maxima k = Some m /\
        nth_error (shifts_of out) k = Some (Fin x) /\
        x * upsample_factor = IZR z /\
        Rabs (x - IZR (wrap_index n m)) < 3 / 4 + 1 / upsample_factor.
Proof.
  intros Huf H src_freq target_freq cross_correlation.
  destruct (refined_run masked _ _ _ _ _ _ _ _ Huf H)
    as (maxima & peak & Hloc & Hb & Hpk & Hlp & Hz).
  exists maxima. split; [exact Hloc|]. intros k n Hk Hn1.
  destruct (Forall2_nth_error_r _ _ _ Hb k n Hk) as (m & Hm & _).
  assert (Hkl : (k < ndim reference_image)%nat).
  { unfold ndim. apply nth_error_Some. congruence. }
  destruct (nth_error_Some_lt peak k) as (p & Hp); [lia|].
  apply zero_unit_axes_Return in Hz as (_ & Hz).
  destruct (Hz k) as (_ & Hkeep). rewrite Hkeep by congruence.
  assert (Hc : nth_error (coarse_shifts (shape reference_image) maxima) k
               = Some (wrap_index n m)).
  { unfold coarse_shifts.
    rewrite nth_error_map, (nth_error_combine _ _ _ _ _ Hk Hm). reflexivity. }
  exists m, (refined_shift upsample_factor (wrap_index n m) p),
    (Raround (IZR (wrap_index n m) * upsample_factor) + Z.of_nat p
     - dftshift_of upsample_factor)%Z.
  split; [exact Hm|]. split.
  { rewrite nth_error_map, (nth_error_combine _ _ _ _ _ Hc Hp). reflexivity. }
  split; [apply refined_shift_grid; lra|].
  apply refined_shift_near; [exact Huf|].
  rewrite Forall_forall in Hpk. apply Hpk. eapply nth_error_In, Hp.
Qed.

Lemma refined_shift_on_grid_near_peak_witness :
  1 < 2 /\
  exists t out,
    phase_cross_correlation no_masked_registration spectrum_a spectrum_b 2
                            "Fourier" true None None (Fin 0.3)
    = (t, Return out) /\
    shifts_of out = [Fin 0; Fin 1] /\
    exists maxima,
      locate_maximum (ifftn product_ab) = Return maxima /\
      forall k n,
        nth_error (shape spectrum_a) k = Some n -> n <> 1%nat ->
        exists m x z,
          nth_error maxima k = Some m /\
          nth_error [Fin 0; Fin 1] k = Some (Fin x) /\
          x * 2 = IZR z /\
          Rabs (x - IZR (wrap_index n m)) < 3 / 4 + 1 / 2.
Proof.
  assert (H2 : 1 < 2) by lra.
  split; [exact H2|].
  pose proof (eq_trans (run_ab_error 2) register_ab_refined) as Hrun.
  eexists. eexists. split; [exact Hrun|]. split; [reflexivity|].
  exact (refined_shift_on_grid_near_peak no_masked_registration spectrum_a
           spectrum_b 2 "Fourier" true (Fin 0.3) _ _ H2 Hrun).
Defined.

(** ** Sums of complex numbers, as reals *)

Lemma finite_parts z : finite z -> z = Cx (Fin (Rre z)) (Fin (Rim z)).
Proof. intros H. destruct (finite_Cx z H) as (x & y & ->). reflexivity. Qed.

Lemma finite_cmul a b : finite a -> finite b -> finite (cmul a b).
Proof.
  intros Ha Hb. destruct (finite_Cx a Ha) as (x & y & ->).
  destruct (finite_Cx b Hb) as (u & v & ->). reflexivity.
Qed.

Lemma finite_conj a : finite a -> finite (conj a).
Proof. intros Ha. destruct (finite_Cx a Ha) as (x & y & ->). reflexivity. Qed.

Lemma Rsum_cons {A} (f : A -> R) a l : Rsum f (a :: l) = f a + Rsum f l.
Proof. reflexivity. Qed.

Lemma Rsum_ext {A} (f g : A -> R) l :
  (forall x, In x l -> f x = g x) -> Rsum f l = Rsum g l.
Proof. intros H. unfold Rsum. f_equal. apply map_ext_in, H. Qed.

Lemma Rsum_map {A B} (f : B -> R) (g : A -> B) l :
  Rsum f (map g l) = Rsum (fun x => f (g x)) l.
Proof. unfold Rsum. rewrite map_map. reflexivity. Qed.

Lemma Rsum_nonneg {A} (f : A -> R) l : (forall x, 0 <= f x) -> 0 <= Rsum f l.
Proof.
  intros H. induction l as [|a l IH]; [cbn; lra|]. rewrite Rsum_cons.
  specialize (H a). lra.
Qed.

Lemma magnitude2_nonneg z : 0 <= magnitude2 z.
Proof. unfold magnitude2. nra. Qed.

Lemma csum_parts {A} (f : A -> complex) l :
  (forall x, In x l -> finite (f x)) ->
  csum (map f l)
  = Cx (Fin (Rsum (fun x => Rre (f x)) l)) (Fin (Rsum (fun x => Rim (f x)) l)).
Proof.
  induction l as [|a l IH]; intros H; [reflexivity|].
  cbn [map csum fold_right]. fold (csum (map f l)).
  rewrite IH by (intros x Hx; apply H; right; exact Hx).
  rewrite (finite_parts (f a)) at 1 by (apply H; left; reflexivity).
  reflexivity.
Qed.

Lemma fsum_reals {A} (g : A -> R) l :
  fsum (map (fun x => Fin (g x)) l) = Fin (Rsum g l).
Proof.
  induction l as [|a l IH]; [reflexivity|].
  cbn [map fsum fold_right]. fold (fsum (map (fun x => Fin (g x)) l)).
  rewrite IH. reflexivity.
Qed.

Lemma fsum_Fin_inv l e : fsum l = Fin e -> Forall (fun x => isnan x = false) l.
Proof.
  revert e. induction l as [|a l IH]; intros e H; [constructor|].
  cbn [fsum fold_right] in H. fold (fsum l) in H.
  destruct a as [x|]; [|discriminate]. destruct (fsum l) as [y|] eqn:E; [|discriminate].
  constructor; [reflexivity | apply (IH y eq_refl)].
Qed.

(** The triangle inequality of the plane and the inequality of Cauchy and
    Schwarz, on lists. *)
Lemma norm_triangle a b c d :
  sqrt ((a + c) * (a + c) + (b + d) * (b + d))
  <= sqrt (a * a + b * b) + sqrt (c * c + d * d).
Proof.
  pose proof (sqrt_cauchy a b c d) as H. unfold Rsqr in H.
  assert (H1 : 0 <= a * a + b * b) by nra.
  assert (H2 : 0 <= c * c + d * d) by nra.
  pose proof (sqrt_pos (a * a + b * b)) as P1.
  pose proof (sqrt_pos (c * c + d * d)) as P2.
  pose proof (sqrt_sqrt _ H1) as S1. pose proof (sqrt_sqrt _ H2) as S2.
  set (s1 := sqrt (a * a + b * b)) in *. set (s2 := sqrt (c * c + d * d)) in *.
  rewrite <- (sqrt_square (s1 + s2)) by lra.
  apply sqrt_le_1_alt. nra.
Qed.

Lemma csum_norm_bound {A} (f : A -> complex) l :
  let C := Rsum (fun x => Rre (f x)) l in
  let S := Rsum (fun x => Rim (f x)) l in
  sqrt (C * C + S * S) <= Rsum (fun x => sqrt (magnitude2 (f x))) l.
Proof.
  cbv zeta. induction l as [|a l IH].
  - cbn. replace (0 * 0 + 0 * 0) with 0 by ring. rewrite sqrt_0. lra.
  - rewrite !Rsum_cons. eapply Rle_trans; [apply norm_triangle|].
    unfold magnitude2 at 1. lra.
Qed.

Lemma cauchy_schwarz {A} (f g : A -> R) l :
  (forall x, 0 <= f x) -> (forall x, 0 <= g x) ->
  Rsum (fun x => sqrt (f x * g x)) l <= sqrt (Rsum f l) * sqrt (Rsum g l).
Proof.
  intros Hf Hg. induction l as [|a l IH].
  - cbn. rewrite sqrt_0. lra.
  - rewrite !Rsum_cons.
    pose proof (Rsum_nonneg f l Hf) as PF. pose proof (Rsum_nonneg g l Hg) as PG.
    pose proof (sqrt_cauchy (sqrt (f a)) (sqrt (Rsum f l))
                            (sqrt (g a)) (sqrt (Rsum g l))) as H.
    rewrite !Rsqr_sqrt in H by auto.
    rewrite sqrt_mult by auto. lra.
Qed.

Lemma magnitude2_Fin x y : magnitude2 (Cx (Fin x) (Fin y)) = x * x + y * y.
Proof. reflexivity. Qed.

Lemma magnitude2_unit_root z t :
  finite z -> magnitude2 (cmul z (unit_root t)) = magnitude2 z.
Proof.
  intros H. destruct (finite_Cx z H) as (x & y & ->).
  cbv [unit_root cmul re im fmul fsub fadd lift2 magnitude2 Rre Rim].
  pose proof (sin2_cos2 (2 * PI * t)) as E. unfold Rsqr in E.
  set (c := cos (2 * PI * t)) in *. set (s := sin (2 * PI * t)) in *.
  replace ((x * c - y * - s) * (x * c - y * - s)
           + (x * - s + y * c) * (x * - s + y * c))
    with ((x * x + y * y) * (s * s + c * c)) by ring.
  rewrite E. ring.
Qed.

Lemma magnitude2_conj z : magnitude2 (conj z) = magnitude2 z.
Proof.
  destruct z as [[x|] [y|]]; cbv [conj magnitude2 Rre Rim re im fneg lift1]; ring.
Qed.

Lemma magnitude2_cmul a b :
  finite a -> finite b -> magnitude2 (cmul a b) = magnitude2 a * magnitude2 b.
Proof.
  intros Ha Hb. destruct (finite_Cx a Ha) as (x & y & ->).
  destruct (finite_Cx b Hb) as (u & v & ->).
  cbv [cmul re im fmul fsub fadd lift2 magnitude2 Rre Rim]. ring.
Qed.

(** A sum of numbers turned by phases is bounded, in magnitude, by the sum
    of their magnitudes. *)
Lemma phased_sum_bound {A} (z : A -> complex) (theta : A -> R) l :
  (forall x, In x l -> finite (z x)) ->
  exists C S,
    csum (map (fun x => cmul (z x) (unit_root (theta x))) l) = Cx (Fin C) (Fin S) /\
    sqrt (C * C + S * S) <= Rsum (fun x => sqrt (magnitude2 (z x))) l.
Proof.
  intros H. do 2 eexists. split.
  - apply csum_parts. intros x Hx. apply finite_cmul; [apply H, Hx|].
    apply finite_unit_root.
  - eapply Rle_trans; [apply csum_norm_bound|]. apply Req_le, Rsum_ext.
    intros x Hx. rewrite magnitude2_unit_root by (apply H, Hx). reflexivity.
Qed.

(** ** Entries of products and of the inverse transform *)

Lemma nth_map_default {A B} (f : A -> B) l i da db :
  (i < length l)%nat -> nth i (map f l) db = f (nth i l da).
Proof.
  intros H. rewrite (nth_indep _ db (f da)) by (rewrite length_map; exact H).
  apply map_nth.
Qed.

Lemma item_amap (f : complex -> complex) (a : ndarray complex) k :
  wf a -> valid_index k (shape a) -> item (amap f a) k = f (item a k).
Proof.
  intros Hwf Hk. unfold item. cbn [amap shape data].
  apply nth_map_default. rewrite Hwf. apply ravel_lt, Hk.
Qed.

Lemma wf_amul a b : wf a -> wf b -> shape a = shape b -> wf (amul a b).
Proof.
  unfold wf, size. intros Ha Hb Hs. cbn [amul shape data].
  rewrite length_map, length_combine, Ha, Hb, Hs. apply Nat.min_id.
Qed.

Lemma item_amul a b k :
  wf a -> wf b -> shape a = shape b -> valid_index k (shape a) ->
  item (amul a b) k = cmul (item a k) (item b k).
Proof.
  intros Ha Hb Hs Hk. pose proof (ravel_lt _ _ Hk) as Hr.
  unfold item. cbn [amul shape data]. rewrite <- Hs.
  unfold wf, size in Ha, Hb. rewrite <- Hs in Hb.
  rewrite (nth_map_default _ _ _ (c0, c0))
    by (rewrite length_combine, Ha, Hb, Nat.min_id; exact Hr).
  rewrite combine_nth by congruence. reflexivity.
Qed.

Lemma twiddle_inverse s k j : twiddle 1 s k j = unit_root (- dft_phase s k j).
Proof.
  unfold twiddle, unit_root, cexp. cbn [re im]. rewrite exp_0. apply Cx_Fin_eq.
  - replace (2 * PI * - dft_phase s k j) with (- (1 * (2 * PI * dft_phase s k j)))
      by ring.
    rewrite cos_neg. ring.
  - replace (2 * PI * - dft_phase s k j) with (- (1 * (2 * PI * dft_phase s k j)))
      by ring.
    rewrite sin_neg. ring.
Qed.

Lemma item_ifftn (a : ndarray complex) k :
  valid_index k (shape a) ->
  item (ifftn a) k
  = cdiv_real (csum (map (fun j => cmul (item a j)
                                        (unit_root (- dft_phase (shape a) k j)))
                         (indices (shape a))))
              (of_nat (size a)).
Proof.
  intros Hk.
  change (ifftn a)
    with (amap (fun z => cdiv_real z (of_nat (size a))) (NdArray (shape a) (dftn 1 a))).
  rewrite item_amap.
  - rewrite item_dftn by exact Hk. f_equal. apply csum_ext. intros j _.
    rewrite twiddle_inverse. reflexivity.
  - unfold wf, size. cbn [shape data]. apply dftn_length.
  - exact Hk.
Qed.

Lemma valid_index_size k s : valid_index k s -> (0 < prod_shape s)%nat.
Proof. intros H. apply ravel_lt in H. lia. Qed.

(** ** Energies as reals *)

Lemma squared_cabs z : finite z -> fmul (cabs z) (cabs z) = Fin (magnitude2 z).
Proof.
  intros H. destruct (finite_Cx z H) as (x & y & ->). rewrite cabs_squared.
  reflexivity.
Qed.

Lemma energy_real a :
  Forall finite (data a) -> energy a = Fin (Rsum magnitude2 (data a)).
Proof.
  intros H. unfold energy. rewrite <- fsum_reals. f_equal.
  apply map_ext_in. intros z Hz. apply squared_cabs.
  rewrite Forall_forall in H. apply H, Hz.
Qed.

Lemma energy_finite a e : energy a = Fin e -> Forall finite (data a).
Proof.
  unfold energy. intros H. apply fsum_Fin_inv in H.
  rewrite Forall_map in H. revert H. apply Forall_impl. intros z Hz.
  unfold finite. destruct (cisnan z) eqn:E; [|reflexivity].
  rewrite (cabs_nan z E) in Hz. discriminate.
Qed.

Lemma energy_items a :
  wf a -> Forall finite (data a) ->
  energy a = Fin (Rsum (fun j => magnitude2 (item a j)) (indices (shape a))).
Proof.
  intros Hwf Hf. rewrite (energy_real a Hf). f_equal.
  rewrite (data_items a Hwf) at 1. apply Rsum_map.
Qed.

Lemma amplitude_finite uf a x :
  amplitude uf a = Fin x -> Forall finite (data a).
Proof.
  unfold amplitude. destruct (Reqb uf 1).
  - destruct (energy a) as [e|] eqn:E; [|discriminate]. intros _.
    apply (energy_finite a e E).
  - apply energy_finite.
Qed.

(** The bound of Cauchy and Schwarz on the peak of a correlation: a sum of
    the products [F_j conj(G_j)], turned by any phases, is bounded by the
    energies of the two arrays. *)
Lemma correlation_bound (F G : ndarray complex) (z : list nat -> complex)
      (theta : list nat -> R) :
  wf F -> wf G -> shape F = shape G ->
  Forall finite (data F) -> Forall finite (data G) ->
  (forall j, valid_index j (shape F) ->
             magnitude2 (z j) = magnitude2 (item F j) * magnitude2 (item G j) /\
             finite (z j)) ->
  exists C S,
    csum (map (fun j => cmul (z j) (unit_root (theta j))) (indices (shape F)))
    = Cx (Fin C) (Fin S) /\
    C * C + S * S
    <= Rsum (fun j => magnitude2 (item F j)) (indices (shape F))
       * Rsum (fun j => magnitude2 (item G j)) (indices (shape F)) /\
    sqrt (C * C + S * S)
    <= Rsum (fun j => sqrt (magnitude2 (z j))) (indices (shape F)).
Proof.
  intros HwF HwG Hs HfF HfG Hz.
  destruct (phased_sum_bound z theta (indices (shape F))) as (C & S & E & B).
  { intros j Hj. apply Hz, indices_valid, Hj. }
  exists C, S. split; [exact E|]. split; [|exact B].
  set (EF := Rsum (fun j => magnitude2 (item F j)) (indices (shape F))).
  set (EG := Rsum (fun j => magnitude2 (item G j)) (indices (shape F))).
  assert (PF : 0 <= EF) by (apply Rsum_nonneg; intros; apply magnitude2_nonneg).
  assert (PG : 0 <= EG) by (apply Rsum_nonneg; intros; apply magnitude2_nonneg).
  assert (B2 : sqrt (C * C + S * S) <= sqrt EF * sqrt EG).
  { eapply Rle_trans; [exact B|].
    eapply Rle_trans; [|apply (cauchy_schwarz (fun j => magnitude2 (item F j))
                                 (fun j => magnitude2 (item G j)));
                         intros; apply magnitude2_nonneg].
    apply Req_le, Rsum_ext. intros j Hj.
    destruct (Hz j (indices_valid _ _ Hj)) as (-> & _). reflexivity. }
  assert (H0 : 0 <= C * C + S * S) by nra.
  rewrite <- (sqrt_sqrt _ H0).
  pose proof (sqrt_pos (C * C + S * S)) as P0.
  pose proof (sqrt_pos EF) as P1. pose proof (sqrt_pos EG) as P2.
  pose proof (sqrt_sqrt _ PF) as S1. pose proof (sqrt_sqrt _ PG) as S2.
  rewrite <- S1, <- S2. nra.
Qed.

(** ** The range of the metrics *)

Lemma compute_error_value a b sa ta :
  sa * ta <> 0 ->
  _compute_error (Cx (Fin a) (Fin b)) (Fin sa) (Fin ta)
  = Fin (sqrt (Rabs (1 - (a * a + b * b) / (sa * ta)))).
Proof.
  intros Hst.
  assert (Hsa : sa <> 0) by (intros ->; apply Hst; ring).
  assert (Hta : ta <> 0) by (intros ->; apply Hst; ring).
  unfold _compute_error, cmul, conj, cdiv_real, csub, of_real.
  cbn [re im fmul fsub fadd fneg lift1 lift2].
  rewrite !fdiv_Fin by assumption.
  cbn [re im fmul fsub fadd fneg lift1 lift2]. rewrite cabs_Fin.
  rewrite fsqrt_Fin by apply sqrt_pos.
  do 2 f_equal.
  replace ((0 - (a * - b + b * a) / (sa * ta))) with 0 by (field; split; assumption).
  replace (1 - (a * a - b * - b) / (sa * ta)) with (1 - (a * a + b * b) / (sa * ta))
    by (field; split; assumption).
  set (arg := 1 - (a * a + b * b) / (sa * ta)).
  replace (arg * arg + 0 * 0) with (Rsqr arg) by (unfold Rsqr; ring).
  apply sqrt_Rsqr_abs.
Qed.

Lemma compute_error_no_amplitude a b sa ta :
  sa * ta = 0 -> _compute_error (Cx (Fin a) (Fin b)) (Fin sa) (Fin ta) = NaN.
Proof.
  intros Hst.
  unfold _compute_error, cmul, conj, cdiv_real, csub, of_real.
  cbn [re im fmul fsub fadd fneg lift1 lift2].
  unfold fdiv. rewrite (Reqb_true _ _ Hst). reflexivity.
Qed.

Lemma compute_error_unit a b sa ta :
  0 <= sa * ta -> sa * ta <> 0 -> a * a + b * b <= sa * ta ->
  exists e, _compute_error (Cx (Fin a) (Fin b)) (Fin sa) (Fin ta) = Fin e /\
            0 <= e <= 1.
Proof.
  intros Hp Hn Hle. rewrite (compute_error_value a b sa ta Hn).
  eexists. split; [reflexivity|].
  assert (Hr : 0 <= (a * a + b * b) / (sa * ta) <= 1).
  { assert (0 < sa * ta) by lra. assert (0 <= a * a + b * b) by nra. split.
    - apply Rmult_le_pos; [assumption | left; apply Rinv_0_lt_compat; assumption].
    - apply Rmult_le_reg_r with (sa * ta); [assumption|].
      unfold Rdiv. rewrite Rmult_assoc, Rinv_l by assumption. lra. }
  rewrite Rabs_right by lra. split; [apply sqrt_pos|].
  rewrite <- sqrt_1 at 2. apply sqrt_le_1_alt. lra.
Qed.

Lemma wf_frequency space a : wf a -> wf (frequency space a).
Proof.
  intros H. unfold frequency. destruct (lower space =? "fourier")%string;
    [exact H | apply wf_fftn].
Qed.

Lemma product_items F G j :
  wf F -> wf G -> shape F = shape G ->
  Forall finite (data F) -> Forall finite (data G) ->
  valid_index j (shape F) ->
  item (amul F (amap conj G)) j = cmul (item F j) (conj (item G j)) /\
  finite (item (amul F (amap conj G)) j) /\
  magnitude2 (item (amul F (amap conj G)) j)
  = magnitude2 (item F j) * magnitude2 (item G j).
Proof.
  intros HwF HwG Hs HfF HfG Hj.
  assert (E : item (amul F (amap conj G)) j = cmul (item F j) (conj (item G j))).
  { rewrite item_amul; [|exact HwF | apply wf_amap, HwG | exact Hs | exact Hj].
    rewrite item_amap by (try rewrite <- Hs; assumption). reflexivity. }
  assert (H1 : finite (item F j)) by (apply item_finite; assumption).
  assert (H2 : finite (item G j))
    by (apply item_finite; try rewrite <- Hs; assumption).
  rewrite E. split; [reflexivity|]. split.
  - apply finite_cmul; [exact H1 | apply finite_conj, H2].
  - rewrite magnitude2_cmul by (try apply finite_conj; assumption).
    rewrite magnitude2_conj. reflexivity.
Qed.

(** The peak of the cross-correlation against the mean energies. *)
Lemma coarse_peak_bound F G k :
  wf F -> wf G -> shape F = shape G ->
  Forall finite (data F) -> Forall finite (data G) ->
  valid_index k (shape F) ->
  let N := INR (size F) in
  let EF := Rsum (fun j => magnitude2 (item F j)) (indices (shape F)) in
  let EG := Rsum (fun j => magnitude2 (item G j)) (indices (shape F)) in
  exists a b,
    item (ifftn (amul F (amap conj G))) k = Cx (Fin a) (Fin b) /\
    a * a + b * b <= EF / N * (EG / N).
Proof.
  intros HwF HwG Hs HfF HfG Hk N EF EG.
  assert (HN : 0 < N).
  { unfold N, size. apply lt_0_INR. apply (valid_index_size k), Hk. }
  rewrite item_ifftn by exact Hk.
  change (shape (amul F (amap conj G))) with (shape F).
  change (size (amul F (amap conj G))) with (size F).
  destruct (correlation_bound F G (item (amul F (amap conj G)))
              (fun j => - dft_phase (shape F) k j) HwF HwG Hs HfF HfG)
    as (C & S & E & B & _).
  { intros j Hj. destruct (product_items F G j HwF HwG Hs HfF HfG Hj) as (_ & Hf & Hm).
    split; assumption. }
  rewrite E. fold EF EG in B. unfold cdiv_real, of_nat. cbn [re im]. fold N.
  rewrite !fdiv_Fin by lra.
  exists (C / N), (S / N). split; [reflexivity|].
  replace (C / N * (C / N) + S / N * (S / N)) with ((C * C + S * S) * (/ N * / N))
    by (field; lra).
  replace (EF / N * (EG / N)) with (EF * EG * (/ N * / N)) by (field; lra).
  apply Rmult_le_compat_r; [|exact B].
  assert (0 < / N) by (apply Rinv_0_lt_compat, HN). nra.
Qed.

(** The entries of the window of a refinement. *)
Lemma upsampled_dft_window_entries (a : ndarray complex) W uf offs :
  uf <> 0 -> wf a -> (1 <= ndim a)%nat -> length offs = ndim a ->
  exists w,
    _upsampled_dft a (Int W) uf (Some (map Fin offs)) = Return w /\
    wf w /\ shape w = repeat (Z.to_nat W) (ndim a) /\
    forall k, valid_index k (shape w) ->
      item w k
      = csum (map (fun j => cmul (item a j)
                                 (unit_root (upsampled_phase uf (shape a) offs k j)))
                  (indices (shape a))).
Proof.
  intros Huf Hwf Hn Ho.
  assert (Hne : shape a <> []).
  { unfold ndim in Hn. destruct (shape a); [cbn in Hn; lia | discriminate]. }
  destruct (contract_region_items uf a Huf Hwf (shape a) (repeat W (ndim a)) offs []
              (repeat_length _ _) Ho eq_refl (or_introl Hne)) as ((Hsh & Hw) & Hit).
  cbv zeta in Hsh, Hw, Hit. rewrite app_nil_r, map_repeat in Hsh.
  eexists. split; [|split; [exact Hw | split; [exact Hsh|]]].
  - unfold _upsampled_dft. cbn [rbind]. rewrite length_map, Ho, Nat.eqb_refl.
    reflexivity.
  - intros k Hk. rewrite Hsh, <- map_repeat in Hk.
    specialize (Hit k [] Hk (Forall2_nil _)). rewrite app_nil_r in Hit. exact Hit.
Qed.

(** The peak of the window against the energies. *)
Lemma refined_peak_bound F G W uf offs w peak :
  uf <> 0 -> wf F -> wf G -> shape F = shape G -> (1 <= ndim F)%nat ->
  Forall finite (data F) -> Forall finite (data G) ->
  length offs = ndim F ->
  _upsampled_dft (amap conj (amul F (amap conj G))) (Int W) uf (Some (map Fin offs))
  = Return w ->
  locate_maximum (amap conj w) = Return peak ->
  let EF := Rsum (fun j => magnitude2 (item F j)) (indices (shape F)) in
  let EG := Rsum (fun j => magnitude2 (item G j)) (indices (shape F)) in
  exists a b,
    item (amap conj w) peak = Cx (Fin a) (Fin b) /\ a * a + b * b <= EF * EG.
Proof.
  intros Huf HwF HwG Hs Hn HfF HfG Ho Hw Hpk EF EG.
  set (P := amul F (amap conj G)) in *.
  assert (HwP : wf P) by (apply wf_amul; [exact HwF | apply wf_amap, HwG | exact Hs]).
  destruct (upsampled_dft_window_entries (amap conj P) W uf offs Huf
              (wf_amap conj P HwP) Hn Ho) as (w' & Hw' & Hwf & Hsh & Hit).
  rewrite Hw in Hw'. inversion Hw'; subst w'; clear Hw'.
  pose proof (locate_maximum_bound _ _ (wf_amap conj _ Hwf) Hpk) as Hb.
  cbn [shape amap] in Hb.
  rewrite item_amap by assumption. rewrite (Hit peak Hb).
  change (shape (amap conj P)) with (shape F).
  destruct (correlation_bound F G (item (amap conj P))
              (fun j => upsampled_phase uf (shape F) offs peak j)
              HwF HwG Hs HfF HfG) as (C & S & E & B & _).
  { intros j Hj.
    destruct (product_items F G j HwF HwG Hs HfF HfG Hj) as (_ & Hf & Hm).
    fold P in Hf, Hm. rewrite item_amap by assumption.
    rewrite magnitude2_conj. split; [exact Hm | apply finite_conj, Hf]. }
  rewrite E. fold EF EG in B. exists C, (- S). split; [reflexivity|].
  replace (C * C + - S * - S) with (C * C + S * S) by ring. exact B.
Qed.

(** The peak value and the amplitudes of a run that returns its metrics:
    the peak is bounded by the amplitudes, which are the energies of the two
    arrays over a positive number. *)
Lemma peak_within_amplitudes F G uf re t out :
  wf F -> wf G -> shape F = shape G -> 1 <= uf ->
  register F G uf re = (t, Return out) ->
  forall sa ta, amplitude uf F = Fin sa -> amplitude uf G = Fin ta ->
  exists CC sh EF EG n,
    shifts_of out = sh /\
    (re = true ->
     out = ShiftsErrorPhase sh (_compute_error CC (Fin sa) (Fin ta))
                            (_compute_phasediff CC)) /\
    energy F = Fin EF /\ energy G = Fin EG /\ 0 <= EF /\ 0 <= EG /\ 0 < n /\
    sa = EF / n /\ ta = EG / n /\
    exists a b, CC = Cx (Fin a) (Fin b) /\ a * a + b * b <= sa * ta.
Proof.
  intros HwF HwG Hs Huf H sa ta Hsa Hta.
  pose proof (amplitude_finite _ _ _ Hsa) as HfF.
  pose proof (amplitude_finite _ _ _ Hta) as HfG.
  pose proof (energy_items F HwF HfF) as EnF.
  pose proof (energy_items G HwG HfG) as EnG. rewrite <- Hs in EnG.
  set (EF := Rsum (fun j => magnitude2 (item F j)) (indices (shape F))) in *.
  set (EG := Rsum (fun j => magnitude2 (item G j)) (indices (shape F))) in *.
  assert (PF : 0 <= EF) by (apply Rsum_nonneg; intros; apply magnitude2_nonneg).
  assert (PG : 0 <= EG) by (apply Rsum_nonneg; intros; apply magnitude2_nonneg).
  apply register_Return in H
    as (maxima & pre & CC & t1 & sh & Hloc & Hmax & Hbr & Hz & Ho).
  cbv zeta in *.
  set (P := amul F (amap conj G)) in *.
  pose proof (locate_maximum_bound _ _ (wf_ifftn _) Hloc) as Hb.
  change (shape (ifftn P)) with (shape F) in Hb.
  pose proof (Forall2_length Hb) as Hlen.
  assert (Hn : (1 <= ndim F)%nat).
  { unfold ndim. rewrite <- Hlen. destruct maxima; [congruence | cbn; lia]. }
  assert (Eo : shifts_of out = sh /\
               (re = true ->
                out = ShiftsErrorPhase sh (_compute_error CC (Fin sa) (Fin ta))
                                       (_compute_phasediff CC))).
  { destruct Ho as [(-> & -> & _) | (-> & _ & -> & _)].
    - split; [reflexivity | discriminate].
    - rewrite Hsa, Hta. split; reflexivity. }
  destruct Eo as (Eo1 & Eo2).
  destruct Hbr as [(Heq & _ & HCC & _) | (Hne & Href)].
  - (* the peak of the cross-correlation and the mean energies *)
    subst uf. unfold amplitude in Hsa, Hta. rewrite (Reqb_true 1 1 eq_refl) in Hsa, Hta.
    assert (HN : 0 < INR (size F)).
    { unfold size. apply lt_0_INR. apply (valid_index_size maxima), Hb. }
    assert (HNG : size G = size F) by (unfold size; rewrite Hs; reflexivity).
    rewrite EnF in Hsa. rewrite EnG, HNG in Hta. unfold of_nat in Hsa, Hta.
    rewrite fdiv_Fin in Hsa, Hta by lra.
    injection Hsa as Exa. injection Hta as Exb.
    exists CC, sh, EF, EG, (INR (size F)).
    split; [exact Eo1|]. split; [exact Eo2|]. split; [exact EnF|].
    split; [exact EnG|]. split; [exact PF|]. split; [exact PG|].
    split; [exact HN|]. split; [symmetry; exact Exa|]. split; [symmetry; exact Exb|].
    destruct (coarse_peak_bound F G maxima HwF HwG Hs HfF HfG Hb)
      as (a & b & E & B). cbv zeta in B. fold P in E. fold EF EG in B.
    exists a, b. rewrite HCC, <- Exa, <- Exb. split; [exact E | exact B].
  - (* the peak of the window and the energies *)
    assert (Huf1 : 1 < uf) by lra.
    unfold amplitude in Hsa, Hta. rewrite (Reqb_false _ _ Hne) in Hsa, Hta.
    rewrite EnF in Hsa. rewrite EnG in Hta.
    injection Hsa as Exa. injection Hta as Exb.
    exists CC, sh, EF, EG, 1.
    split; [exact Eo1|]. split; [exact Eo2|]. split; [exact EnF|].
    split; [exact EnG|]. split; [exact PF|]. split; [exact PG|].
    split; [lra|]. split; [lra|]. split; [lra|].
    rewrite wrap_shifts_coarse in Href.
    set (coarse := coarse_shifts (shape F) maxima) in *.
    rewrite (subpixel_refine_unfold _ _ _ Huf1) in Href.
    apply bind_invoke_inv in Href as (w & t2 & Hw & Href & _).
    apply bind_lift_inv in Href as (peak & Hpk & Href).
    apply bind_lift_inv in Href as (st & Hst & Href).
    assert (HCC : CC = item (amap conj w) peak) by (inversion Href; reflexivity).
    clear Href.
    assert (Eoff : region_offsets uf coarse
                   = map Fin (map (fun c => IZR (dftshift_of uf) - snap uf c * uf)
                                  coarse)).
    { unfold region_offsets. rewrite map_map. reflexivity. }
    rewrite Eoff in Hw.
    assert (Hlo : length (map (fun c => IZR (dftshift_of uf) - snap uf c * uf) coarse)
                  = ndim F).
    { rewrite length_map. unfold coarse. apply coarse_shifts_length. exact Hlen. }
    destruct (refined_peak_bound F G (window_size uf) uf _ w peak
                ltac:(lra) HwF HwG Hs Hn HfF HfG Hlo Hw Hpk) as (a & b & E & B).
    cbv zeta in B. fold EF EG in B. exists a, b. rewrite HCC, <- Exa, <- Exb.
    split; [exact E | exact B].
Qed.

(** X10.  The range of the two metrics.  When a call without masks, on
    two arrays with as many elements as their shapes announce and with a
    factor of at least 1, returns the metrics, the phase difference is an
    angle in [[-pi, pi]] and the error is a number between 0 and 1 - unless
    one of the two frequency-domain arrays has no energy, when the error is
    not a number. *)
Theorem returned_metrics_in_range
  (masked : masked_registration)
  (reference_image moving_image : ndarray complex)
  (upsample_factor : R) (space : string) (overlap_ratio : float)
  (t : list call) (shifts : list float) (error phasediff : float) :
  wf reference_image -> wf moving_image -> 1 <= upsample_factor ->
  phase_cross_correlation masked reference_image moving_image upsample_factor
                          space true None None overlap_ratio
  = (t, Return (ShiftsErrorPhase shifts error phasediff)) ->
  let src_freq := frequency space reference_image in
  let target_freq := frequency space moving_image in
  (exists theta, phasediff = Fin theta /\ - PI <= theta <= PI) /\
  ((error = NaN /\
    (sum_energy src_freq = Fin 0 \/ sum_energy target_freq = Fin 0)) \/
   (exists e, error = Fin e /\ 0 <= e <= 1)).
Proof.
  intros Hwr Hwm Huf H src_freq target_freq.
  apply unmasked_Return in H as (Hs & t' & H & _).
  fold src_freq target_freq in H.
  assert (HwF : wf src_freq) by (apply wf_frequency, Hwr).
  assert (HwG : wf target_freq) by (apply wf_frequency, Hwm).
  assert (HsF : shape src_freq = shape target_freq).
  { unfold src_freq, target_freq. rewrite !shape_frequency. exact Hs. }
  pose proof H as H'.
  apply register_Return in H'
    as (mx & pre0 & CC0 & t0 & sh0 & _ & _ & _ & _ & Ho). cbv zeta in Ho.
  destruct Ho as [(Hre & _) | (_ & Hnan & _ & _)]; [discriminate|].
  apply orb_false_iff in Hnan as (Hnan & Hta).
  apply orb_false_iff in Hnan as (_ & Hsa).
  destruct (amplitude upsample_factor src_freq) as [sa|] eqn:Esa; [|discriminate].
  destruct (amplitude upsample_factor target_freq) as [ta|] eqn:Eta; [|discriminate].
  destruct (peak_within_amplitudes src_freq target_freq upsample_factor true t'
              _ HwF HwG HsF Huf H sa ta Esa Eta)
    as (CC & sh & EF & EG & n & _ & Hout & EnF & EnG & PF & PG & Hn & Exa & Exb
        & a & b & ECC & B).
  specialize (Hout eq_refl). inversion Hout; subst shifts error phasediff CC.
  split.
  - exists (Ratan2 b a). split; [reflexivity | apply Ratan2_polar].
  - assert (Hinv : 0 < / n) by (apply Rinv_0_lt_compat, Hn).
    assert (Psa : 0 <= sa) by (subst sa; unfold Rdiv; nra).
    assert (Pta : 0 <= ta) by (subst ta; unfold Rdiv; nra).
    destruct (Req_dec_T (sa * ta) 0) as [Hz | Hnz].
    + left. split; [apply compute_error_no_amplitude, Hz|].
      rewrite <- !energy_sum, EnF, EnG.
      apply Rmult_integral in Hz. destruct Hz as [Hz | Hz]; [left | right];
        f_equal; [rewrite Exa in Hz | rewrite Exb in Hz];
        unfold Rdiv in Hz; apply Rmult_integral in Hz; destruct Hz; lra.
    + right. apply compute_error_unit; [nra | exact Hnz | exact B].
Qed.

Lemma returned_metrics_in_range_witness :
  wf spectrum_a /\ wf spectrum_b /\ 1 <= 1 /\
  (exists theta, _compute_phasediff one = Fin theta /\ - PI <= theta <= PI) /\
  ((_compute_error one (Fin 1) (Fin 1) = NaN /\
    (sum_energy (frequency "Fourier" spectrum_a) = Fin 0 \/
     sum_energy (frequency "Fourier" spectrum_b) = Fin 0)) \/
   (exists e, _compute_error one (Fin 1) (Fin 1) = Fin e /\ 0 <= e <= 1)).
Proof.
  assert (Ha : wf spectrum_a) by reflexivity.
  assert (Hb : wf spectrum_b) by reflexivity.
  assert (H1 : 1 <= 1) by lra.
  split; [exact Ha|]. split; [exact Hb|]. split; [exact H1|].
  exact (returned_metrics_in_range no_masked_registration spectrum_a spectrum_b 1
           "Fourier" (Fin 0.3) _ _ _ _ Ha Hb H1
           (eq_trans (run_ab_error 1) register_ab_error)).
Defined.

(** ** An image against itself *)

Lemma finite_fftn a : wf a -> Forall finite (data a) -> Forall finite (data (fftn a)).
Proof.
  intros Hwf Hf. unfold fftn, dftn. cbn [data]. apply Forall_forall.
  intros z Hz. apply in_map_iff in Hz as (k & <- & Hk).
  rewrite csum_parts; [reflexivity|]. intros j Hj.
  apply finite_cmul; [|rewrite twiddle_unit_root; apply finite_unit_root].
  apply item_finite; [assumption | assumption | apply indices_valid, Hj].
Qed.

Lemma finite_frequency space a :
  wf a -> Forall finite (data a) -> Forall finite (data (frequency space a)).
Proof.
  intros Hwf Hf. unfold frequency. destruct (lower space =? "fourier")%string;
    [exact Hf | apply finite_fftn; assumption].
Qed.

Lemma indices_head s :
  (0 < prod_shape s)%nat ->
  exists rest, indices s = repeat 0%nat (length s) :: rest.
Proof.
  induction s as [|n s IH]; intros H.
  - exists []. reflexivity.
  - rewrite prod_shape_cons in H.
    destruct n as [|n]; [lia|]. destruct IH as (rest & E); [nia|].
    cbn [indices seq flat_map]. rewrite E. cbn [map app length repeat].
    eexists. reflexivity.
Qed.

Lemma argmax_from_stay l : forall best bv i,
  Forall (fun y => better y bv = false) l -> argmax_from best bv i l = best.
Proof.
  induction l as [|x l IH]; intros best bv i H; [reflexivity|].
  inversion H as [|? ? Hx Hl]; subst. cbn [argmax_from]. rewrite Hx.
  apply IH, Hl.
Qed.

Lemma unravel_index_0 s : unravel_index 0 s = repeat 0%nat (length s).
Proof.
  unfold unravel_index. rewrite <- (length_rev s).
  assert (E : forall rs, unravel_rev 0 rs = repeat 0%nat (length rs)).
  { induction rs as [|d rs IH]; [reflexivity|]. cbn [unravel_rev length repeat].
    rewrite Nat.Div0.mod_0_l, Nat.Div0.div_0_l, IH. reflexivity. }
  rewrite E. apply rev_repeat.
Qed.

Lemma dft_phase_zero s : forall j, dft_phase s (repeat 0%nat (length s)) j = 0.
Proof.
  unfold dft_phase. induction s as [|n s IH]; intros j; [reflexivity|].
  destruct j as [|i j]; [reflexivity|].
  cbn [length repeat combine map fold_right fst snd]. rewrite IH.
  cbn [Nat.mul INR]. unfold Rdiv. ring.
Qed.

Lemma Rsum_zero {A} (l : list A) : Rsum (fun _ => 0) l = 0.
Proof. induction l as [|a l IH]; [reflexivity|]. rewrite Rsum_cons, IH. ring. Qed.

Lemma coarse_shifts_zero s :
  map (fun c => Fin (IZR c)) (coarse_shifts s (repeat 0%nat (length s)))
  = repeat (Fin 0) (length s).
Proof.
  unfold coarse_shifts. induction s as [|n s IH]; [reflexivity|].
  cbn [length repeat combine map fst snd]. rewrite IH. reflexivity.
Qed.

Lemma zero_unit_axes_zeros s shifts :
  zero_unit_axes s (repeat (Fin 0) (length s)) = Return shifts ->
  shifts = repeat (Fin 0) (length s).
Proof.
  intros H. apply zero_unit_axes_Return in H as (Hl & Hn).
  rewrite repeat_length in Hl. apply nth_error_ext. intros k.
  destruct (Nat.lt_ge_cases k (length s)) as [Hk | Hk].
  - rewrite (nth_error_repeat (Fin 0) Hk).
    destruct (Hn k) as (H1 & H2).
    assert (D : nth_error s k = Some 1%nat \/ nth_error s k <> Some 1%nat).
    { destruct (nth_error s k) as [n|]; [|right; discriminate].
      destruct (Nat.eq_dec n 1) as [-> | Hne];
        [left; reflexivity | right; congruence]. }
    destruct D as [E | E].
    + apply H1, E.
    + rewrite (H2 E). apply nth_error_repeat, Hk.
  - transitivity (@None float); [|symmetry];
      apply nth_error_None; [rewrite Hl | rewrite repeat_length]; exact Hk.
Qed.

Lemma self_product_items F j :
  wf F -> Forall finite (data F) -> valid_index j (shape F) ->
  item (amul F (amap conj F)) j = Cx (Fin (magnitude2 (item F j))) (Fin 0).
Proof.
  intros Hwf Hf Hj.
  destruct (product_items F F j Hwf Hwf eq_refl Hf Hf Hj) as (E & _ & _).
  rewrite E. pose proof (item_finite F j Hwf Hf Hj) as Hfin.
  destruct (finite_Cx _ Hfin) as (x & y & ->). apply cmul_conj.
Qed.

(** The cross-correlation of an array with itself: at the origin it is the
    mean energy, and nowhere is it larger in magnitude. *)
Lemma self_correlation F k :
  wf F -> Forall finite (data F) -> valid_index k (shape F) ->
  let N := INR (size F) in
  let EF := Rsum (fun j => magnitude2 (item F j)) (indices (shape F)) in
  exists a b,
    item (ifftn (amul F (amap conj F))) k = Cx (Fin a) (Fin b) /\
    sqrt (a * a + b * b) <= EF / N.
Proof.
  intros Hwf Hf Hk N EF.
  assert (HN : 0 < N).
  { unfold N, size. apply lt_0_INR. apply (valid_index_size k), Hk. }
  rewrite item_ifftn by exact Hk.
  change (shape (amul F (amap conj F))) with (shape F).
  change (size (amul F (amap conj F))) with (size F).
  destruct (correlation_bound F F (item (amul F (amap conj F)))
              (fun j => - dft_phase (shape F) k j) Hwf Hwf eq_refl Hf Hf)
    as (C & S & E & _ & B).
  { intros j Hj. destruct (product_items F F j Hwf Hwf eq_refl Hf Hf Hj)
      as (_ & Hfin & Hm). split; assumption. }
  assert (B' : sqrt (C * C + S * S) <= EF).
  { eapply Rle_trans; [exact B|]. apply Req_le, Rsum_ext. intros j Hj.
    rewrite (self_product_items F j Hwf Hf (indices_valid _ _ Hj)).
    rewrite magnitude2_Fin. replace (0 * 0) with 0 by ring. rewrite Rplus_0_r.
    apply sqrt_square, magnitude2_nonneg. }
  rewrite E. unfold cdiv_real, of_nat. cbn [re im]. fold N.
  rewrite !fdiv_Fin by lra.
  exists (C / N), (S / N). split; [reflexivity|].
  assert (Hinv : 0 < / N) by (apply Rinv_0_lt_compat, HN).
  replace (C / N * (C / N) + S / N * (S / N)) with ((C * C + S * S) * (/ N * / N))
    by (field; lra).
  rewrite sqrt_mult_alt by nra. rewrite sqrt_square by lra.
  unfold Rdiv. apply Rmult_le_compat_r; lra.
Qed.

Lemma zeros_valid s : (0 < prod_shape s)%nat -> valid_index (repeat 0%nat (length s)) s.
Proof.
  intros H. destruct (indices_head s H) as (rest & E).
  apply indices_valid. rewrite E. left. reflexivity.
Qed.

Lemma self_correlation_origin F :
  wf F -> Forall finite (data F) -> (0 < size F)%nat ->
  let N := INR (size F) in
  let EF := Rsum (fun j => magnitude2 (item F j)) (indices (shape F)) in
  item (ifftn (amul F (amap conj F))) (repeat 0%nat (ndim F))
  = Cx (Fin (EF / N)) (Fin 0).
Proof.
  intros Hwf Hf Hsz N EF.
  assert (HN : 0 < N) by (unfold N; apply lt_0_INR, Hsz).
  rewrite item_ifftn by (apply zeros_valid, Hsz).
  change (shape (amul F (amap conj F))) with (shape F).
  change (size (amul F (amap conj F))) with (size F).
  assert (E : csum (map (fun j => cmul (item (amul F (amap conj F)) j)
                                        (unit_root (- dft_phase (shape F)
                                                         (repeat 0%nat (ndim F)) j)))
                        (indices (shape F)))
              = Cx (Fin EF) (Fin 0)).
  { rewrite (csum_ext _ (fun j => Cx (Fin (magnitude2 (item F j))) (Fin 0))).
    - rewrite csum_parts by (intros; reflexivity). cbn [Rre Rim re im].
      fold EF. rewrite Rsum_zero. reflexivity.
    - intros j Hj. unfold ndim. rewrite dft_phase_zero, Ropp_0, unit_root_0.
      rewrite (self_product_items F j Hwf Hf (indices_valid _ _ Hj)).
      apply cmul_1_r. reflexivity. }
  rewrite E. unfold cdiv_real, of_nat. cbn [re im]. fold N.
  rewrite !fdiv_Fin by lra. apply Cx_Fin_eq; [reflexivity | field; lra].
Qed.

Lemma locate_maximum_self F :
  wf F -> Forall finite (data F) -> (0 < size F)%nat ->
  locate_maximum (ifftn (amul F (amap conj F))) = Return (repeat 0%nat (ndim F)).
Proof.
  intros Hwf Hf Hsz. set (P := amul F (amap conj F)).
  pose proof (self_correlation_origin F Hwf Hf Hsz) as H0. cbv zeta in H0. fold P in H0.
  set (N := INR (size F)) in *.
  set (EF := Rsum (fun j => magnitude2 (item F j)) (indices (shape F))) in *.
  assert (HN : 0 < N) by (unfold N; apply lt_0_INR, Hsz).
  assert (PF : 0 <= EF) by (apply Rsum_nonneg; intros; apply magnitude2_nonneg).
  unfold locate_maximum. rewrite (data_items _ (wf_ifftn P)).
  change (shape (ifftn P)) with (shape F).
  destruct (indices_head (shape F) Hsz) as (rest & E).
  assert (Hin : forall k, In k rest -> valid_index k (shape F)).
  { intros k Hk. apply indices_valid. rewrite E. right. exact Hk. }
  rewrite E. cbn [map argmax]. fold (ndim F). rewrite H0, cabs_Fin.
  rewrite argmax_from_stay.
  - cbn [rbind]. rewrite unravel_index_0. reflexivity.
  - rewrite map_map. apply Forall_forall. intros v Hv.
    apply in_map_iff in Hv as (k & <- & Hk).
    destruct (self_correlation F k Hwf Hf (Hin k Hk)) as (a & b & Ek & B).
    cbv zeta in B. fold P in Ek. fold N EF in B. rewrite Ek, cabs_Fin.
    cbn [better]. apply Rltb_false.
    eapply Rle_trans; [exact B|].
    replace (EF / N * (EF / N) + 0 * 0) with ((EF / N) * (EF / N)) by ring.
    rewrite sqrt_square; [lra|].
    unfold Rdiv. assert (0 < / N) by (apply Rinv_0_lt_compat, HN). nra.
Qed.

Lemma Ratan2_origin : Ratan2 0 0 = 0.
Proof.
  unfold Ratan2. rewrite !(Rltb_false 0 0) by lra. reflexivity.
Qed.

(** [register] on an array and itself, without upsampling. *)
Lemma register_self F re :
  wf F -> Forall finite (data F) -> (0 < size F)%nat -> (1 <= ndim F)%nat ->
  let zeros := repeat (Fin 0) (ndim F) in
  snd (register F F 1 re)
  = if re then
      Return (ShiftsErrorPhase zeros
                (if Reqb (Rsum magnitude2 (data F)) 0 then NaN else Fin 0) (Fin 0))
    else Return (Shifts zeros).
Proof.
  intros Hwf Hf Hsz Hn zeros.
  pose proof (locate_maximum_self F Hwf Hf Hsz) as Hloc.
  pose proof (self_correlation_origin F Hwf Hf Hsz) as H0. cbv zeta in H0.
  pose proof (energy_items F Hwf Hf) as En.
  assert (EE : Rsum magnitude2 (data F)
               = Rsum (fun j => magnitude2 (item F j)) (indices (shape F))).
  { rewrite (data_items F Hwf) at 1. apply Rsum_map. }
  rewrite EE.
  set (N := INR (size F)) in *.
  set (EF := Rsum (fun j => magnitude2 (item F j)) (indices (shape F))) in *.
  assert (HN : 0 < N) by (unfold N; apply lt_0_INR, Hsz).
  assert (PF : 0 <= EF) by (apply Rsum_nonneg; intros; apply magnitude2_nonneg).
  destruct (register_core F F 1)
    as (t1 & _ & _ & _ & [(e & He & Hwhy) | (shifts & CC & _ & Hone & Hreg)]).
  { exfalso. destruct Hwhy as [(_ & [Hz | (Hne & _)]) | (_ & Hz)];
      [lia | apply Hne; reflexivity | lia]. }
  destruct (Hone eq_refl) as (maxima & Hloc' & HCC & Hz). cbv zeta in Hloc', HCC.
  rewrite Hloc in Hloc'. inversion Hloc'; subst maxima; clear Hloc'.
  unfold ndim in Hz. rewrite coarse_shifts_zero in Hz.
  apply zero_unit_axes_zeros in Hz. fold (ndim F) in Hz. fold zeros in Hz.
  rewrite H0 in HCC. subst shifts CC.
  rewrite Hreg. cbn [snd]. unfold report, amplitude.
  rewrite (Reqb_true 1 1 eq_refl), En. unfold of_nat. fold N.
  rewrite fdiv_Fin by lra.
  destruct re; [|reflexivity]. cbn [cisnan isnan re im orb snd].
  assert (Hinv : 0 < / N) by (apply Rinv_0_lt_compat, HN).
  destruct (Req_dec_T EF 0) as [Hz | Hnz].
  - rewrite (Reqb_true _ _ Hz).
    rewrite compute_error_no_amplitude by (rewrite Hz; unfold Rdiv; ring).
    unfold _compute_phasediff, arctan2. cbn [re im lift2].
    rewrite Hz. unfold Rdiv. rewrite Rmult_0_l, Ratan2_origin. reflexivity.
  - rewrite (Reqb_false _ _ Hnz).
    assert (Hc : 0 < EF / N) by (unfold Rdiv; nra).
    rewrite compute_error_value by nra.
    unfold _compute_phasediff, arctan2. cbn [re im lift2].
    rewrite (Ratan2_positive_real _ Hc).
    replace (1 - (EF / N * (EF / N) + 0 * 0) / (EF / N * (EF / N))) with 0
      by (field; split; lra).
    rewrite Rabs_R0, sqrt_0. reflexivity.
Qed.

(** X11.  An image against itself.  Take an image of numbers with at
    least one axis and one element whose cross-correlation with itself has
    its largest magnitude at the origin only, so that the peak is not a tie
    between equal magnitudes (which the rounding of the program may break
    either way).  Registered against itself without masks and without
    upsampling, in either space, it gets the shift zero on every axis; with
    [return_error] the error and the phase difference are zero, for an
    image with some energy. *)
Theorem self_registration
  (masked : masked_registration) (image : ndarray complex)
  (space : string) (overlap_ratio : float) :
  wf image -> Forall finite (data image) ->
  (0 < size image)%nat -> (1 <= ndim image)%nat ->
  lower space = "real"%string \/ lower space = "fourier"%string ->
  (let freq := frequency space image in
   let self := ifftn (amul freq (amap conj freq)) in
   forall m, valid_index m (shape image) -> m <> repeat 0%nat (ndim image) ->
     magnitude (item self m) < magnitude (item self (repeat 0%nat (ndim image)))) ->
  let zeros := repeat (Fin 0) (ndim image) in
  let run := fun return_error =>
    snd (phase_cross_correlation masked image image 1 space return_error
                                 None None overlap_ratio) in
  run false = Return (Shifts zeros) /\
  (sum_energy (frequency space image) <> Fin 0 ->
   run true = Return (ShiftsErrorPhase zeros (Fin 0) (Fin 0))).
Proof.
  intros Hwf Hf Hsz Hn Hsp _ zeros run.
  set (F := frequency space image).
  assert (HwF : wf F) by (apply wf_frequency, Hwf).
  assert (HfF : Forall finite (data F)) by (apply finite_frequency; assumption).
  assert (HsF : shape F = shape image) by apply shape_frequency.
  assert (HszF : (0 < size F)%nat) by (unfold size; rewrite HsF; exact Hsz).
  assert (HnF : (1 <= ndim F)%nat) by (unfold ndim; rewrite HsF; exact Hn).
  assert (Hrun : forall re, run re = snd (register F F 1 re)).
  { intros re. unfold run. rewrite (unmasked_run masked _ _ _ _ _ _ eq_refl Hsp).
    reflexivity. }
  assert (Hz : repeat (Fin 0) (ndim F) = zeros)
    by (unfold zeros, ndim; rewrite HsF; reflexivity).
  pose proof (register_self F false HwF HfF HszF HnF) as Rf.
  pose proof (register_self F true HwF HfF HszF HnF) as Rt.
  cbv zeta in Rf, Rt. rewrite Hz in Rf, Rt.
  rewrite <- energy_sum, (energy_real F HfF).
  rewrite !Hrun, Rf, Rt. split; [reflexivity|].
  intros Hne. rewrite Reqb_false; [reflexivity|]. congruence.
Qed.

Lemma self_registration_witness :
  wf image_2 /\ Forall finite (data image_2) /\
  (0 < size image_2)%nat /\ (1 <= ndim image_2)%nat /\
  (forall m, valid_index m [2%nat] -> m <> [0%nat] ->
     magnitude (item (ifftn (amul (fftn image_2) (amap conj (fftn image_2)))) m)
     < magnitude (item (ifftn (amul (fftn image_2) (amap conj (fftn image_2))))
                       [0%nat])) /\
  sum_energy (fftn image_2) <> Fin 0 /\
  snd (phase_cross_correlation no_masked_registration image_2 image_2 1 "real"
                               false None None (Fin 0.3))
  = Return (Shifts [Fin 0]) /\
  snd (phase_cross_correlation no_masked_registration image_2 image_2 1 "real"
                               true None None (Fin 0.3))
  = Return (ShiftsErrorPhase [Fin 0] (Fin 0) (Fin 0)).
Proof.
  assert (Hwf : wf image_2) by reflexivity.
  assert (Hf : Forall finite (data image_2)) by (repeat constructor).
  assert (Hsz : (0 < size image_2)%nat) by (cbv; lia).
  assert (Hn : (1 <= ndim image_2)%nat) by (cbv; lia).
  assert (Hstrict : forall m, valid_index m [2%nat] -> m <> [0%nat] ->
     magnitude (item (ifftn (amul (fftn image_2) (amap conj (fftn image_2)))) m)
     < magnitude (item (ifftn (amul (fftn image_2) (amap conj (fftn image_2))))
                       [0%nat])).
  { rewrite ifftn_self_2. intros m Hm Hne.
    assert (E : m = [1%nat]).
    { inversion Hm as [|i n mi s Hi Hm']; subst. inversion Hm'; subst.
      destruct i as [|[|i]]; [exfalso; apply Hne; reflexivity | reflexivity | lia]. }
    subst m.
    change (item (NdArray [2%nat] [one; c0]) [1%nat]) with c0.
    change (item (NdArray [2%nat] [one; c0]) [0%nat]) with one.
    cbv [magnitude magnitude2 Rre Rim re im c0 one].
    replace (0 * 0 + 0 * 0) with 0 by ring. replace (1 * 1 + 0 * 0) with 1 by ring.
    rewrite sqrt_0, sqrt_1. lra. }
  assert (He : sum_energy (fftn image_2) <> Fin 0).
  { rewrite <- energy_sum, energy_fftn_image_2. intros H. injection H as H. lra. }
  destruct (self_registration no_masked_registration image_2 "real" (Fin 0.3)
              Hwf Hf Hsz Hn (or_introl eq_refl) Hstrict) as (H1 & H2).
  split; [exact Hwf|]. split; [exact Hf|]. split; [exact Hsz|]. split; [exact Hn|].
  split; [exact Hstrict|]. split; [exact He|]. split; [exact H1 | exact (H2 He)].
Defined.

(** ** The peak is a maximum *)

Lemma better_irrefl x : better x x = false.
Proof. destruct x as [x|]; [apply Rltb_false; lra | reflexivity]. Qed.

Lemma better_le_lt y b x :
  better y b = false -> better x b = true -> better x y = true /\ better y x = false.
Proof.
  destruct b as [b|]; [|destruct x; discriminate].
  destruct y as [y|]; [|discriminate]. cbn [better].
  destruct x as [x|]; [|split; reflexivity]. cbn [better].
  unfold Rltb. repeat destruct Rlt_dec; try discriminate; try lra; split; reflexivity.
Qed.

Lemma better_trans a b c :
  better a b = true -> better b c = true -> better a c = true.
Proof.
  destruct c as [c|]; [|destruct b; discriminate].
  destruct b as [b|]; [|destruct a; discriminate].
  destruct a as [a|]; [|reflexivity]. cbn [better].
  unfold Rltb. repeat destruct Rlt_dec; try discriminate; try lra; reflexivity.
Qed.

(** [argmax_from] keeps the first position of a maximum: no value is better
    than the one it returns, which is better than every value before it. *)
Lemma argmax_from_max d l : forall pre best bv,
  (best < length pre)%nat -> nth best pre d = bv ->
  Forall (fun y => better y bv = false) pre ->
  (forall j, (j < best)%nat -> better bv (nth j pre d) = true) ->
  let r := argmax_from best bv (length pre) l in
  (r < length (pre ++ l))%nat /\
  Forall (fun y => better y (nth r (pre ++ l) d) = false) (pre ++ l) /\
  (forall j, (j < r)%nat -> better (nth r (pre ++ l) d) (nth j (pre ++ l) d) = true).
Proof.
  induction l as [|x l IH]; intros pre best bv Hb Hv Hall Hfirst.
  - cbn [argmax_from]. rewrite app_nil_r, Hv. auto.
  - cbn [argmax_from].
    replace (pre ++ x :: l) with ((pre ++ [x]) ++ l)
      by (rewrite <- app_assoc; reflexivity).
    replace (S (length pre)) with (length (pre ++ [x]))
      by (rewrite length_app; cbn; lia).
    destruct (better x bv) eqn:Hx.
    + apply IH.
      * rewrite length_app. cbn. lia.
      * rewrite app_nth2, Nat.sub_diag by lia. reflexivity.
      * apply Forall_app. split; [|constructor; [apply better_irrefl | constructor]].
        revert Hall. apply Forall_impl. intros y Hy.
        apply (better_le_lt y bv x Hy Hx).
      * intros j Hj. rewrite app_nth1 by exact Hj.
        destruct (Nat.lt_trichotomy j best) as [Hlt | [-> | Hgt]].
        -- apply (better_trans _ bv); [exact Hx | apply Hfirst, Hlt].
        -- rewrite Hv. exact Hx.
        -- rewrite Forall_forall in Hall.
           apply (better_le_lt (nth j pre d) bv x); [|exact Hx].
           apply Hall, nth_In, Hj.
    + apply IH.
      * rewrite length_app. cbn. lia.
      * rewrite app_nth1 by exact Hb. exact Hv.
      * apply Forall_app. split; [exact Hall | constructor; [exact Hx | constructor]].
      * intros j Hj. rewrite app_nth1 by lia. apply Hfirst, Hj.
Qed.

Lemma argmax_max d l i :
  argmax l = Return i ->
  (i < length l)%nat /\
  (forall j, (j < length l)%nat -> better (nth j l d) (nth i l d) = false) /\
  (forall j, (j < i)%nat -> better (nth i l d) (nth j l d) = true).
Proof.
  destruct l as [|x l]; [discriminate|]. cbn [argmax]. intros H. inversion H as [Hi].
  pose proof (argmax_from_max d l [x] 0%nat x) as M. cbn [length app nth] in M.
  destruct M as (M1 & M2 & M3);
    [lia | reflexivity | constructor; [apply better_irrefl | constructor]
     | intros j Hj; inversion Hj |].
  split; [exact M1|]. split; [|exact M3].
  intros j Hj. rewrite Forall_forall in M2. apply M2, nth_In, Hj.
Qed.

Lemma prod_shape_rev s : prod_shape (rev s) = prod_shape s.
Proof.
  induction s as [|n s IH]; [reflexivity|]. cbn [rev].
  rewrite prod_shape_app, prod_shape_cons, IH.
  change (prod_shape [n]) with (n * 1)%nat. rewrite Nat.mul_1_r. apply Nat.mul_comm.
Qed.

Lemma ravel_unravel_rev rs : forall i,
  (i < prod_shape rs)%nat -> ravel (rev rs) (rev (unravel_rev i rs)) = i.
Proof.
  induction rs as [|d rs IH]; intros i H.
  - cbn in *. lia.
  - rewrite prod_shape_cons in H. cbn [unravel_rev rev].
    assert (Hd : d <> 0%nat) by (intros ->; lia).
    rewrite ravel_snoc by (rewrite !length_rev; apply unravel_rev_length).
    rewrite IH by (apply Nat.Div0.div_lt_upper_bound; lia).
    pose proof (Nat.div_mod_eq i d). lia.
Qed.

(** The position in the buffer of the multi-index of a position is that
    position. *)
Lemma ravel_unravel_index s i :
  (i < prod_shape s)%nat -> ravel s (unravel_index i s) = i.
Proof.
  intros H. unfold unravel_index. rewrite <- (rev_involutive s) at 1.
  apply ravel_unravel_rev. rewrite prod_shape_rev. exact H.
Qed.

(** [locate_maximum] finds the first entry of the largest magnitude, a
    not-a-number counting as the largest. *)
Lemma locate_maximum_max (a : ndarray complex) maxima :
  wf a -> locate_maximum a = Return maxima ->
  valid_index maxima (shape a) /\
  (forall k, valid_index k (shape a) ->
             better (cabs (item a k)) (cabs (item a maxima)) = false) /\
  (forall k, valid_index k (shape a) ->
             (ravel (shape a) k < ravel (shape a) maxima)%nat ->
             better (cabs (item a maxima)) (cabs (item a k)) = true).
Proof.
  intros Hwf H. pose proof (locate_maximum_bound a maxima Hwf H) as Hv.
  split; [exact Hv|].
  unfold locate_maximum in H.
  destruct (argmax (map cabs (data a))) as [e|i] eqn:E; [discriminate|].
  cbn [rbind] in H. inversion H as [Hm]. clear H.
  destruct (argmax_max (cabs c0) _ _ E) as (Hi & Hmax & Hfirst).
  rewrite length_map in Hi, Hmax.
  assert (Hr : ravel (shape a) (unravel_index i (shape a)) = i).
  { apply ravel_unravel_index. unfold wf, size in Hwf. rewrite <- Hwf. exact Hi. }
  assert (Hit : forall k, valid_index k (shape a) ->
                  cabs (item a k)
                  = nth (ravel (shape a) k) (map cabs (data a)) (cabs c0)).
  { intros k Hk. unfold item. symmetry. apply map_nth. }
  split.
  - intros k Hk. rewrite !Hit by (try rewrite Hm; assumption). rewrite Hr.
    apply Hmax. rewrite Hwf. apply ravel_lt, Hk.
  - intros k Hk Hlt. rewrite !Hit by (try rewrite Hm; assumption).
    rewrite Hr in *. apply Hfirst, Hlt.
Qed.

(** X12.  The peak is the first maximum.  In every call without masks that
    returns, the peak [maxima] that the shifts are computed from is a
    position in the cross-correlation where the magnitude is the largest,
    and the first such position in the order of the buffer: when the
    magnitude at the peak is a number [M], the magnitude at every position
    is a number of at most [M], below [M] at the positions before the peak;
    when it is not a number, the magnitude at every position before the peak
    is a number. *)
Theorem coarse_peak_is_first_maximum
  (masked : masked_registration)
  (reference_image moving_image : ndarray complex)
  (upsample_factor : R) (space : string) (return_error : bool)
  (overlap_ratio : float) (t : list call) (out : output) :
  phase_cross_correlation masked reference_image moving_image upsample_factor
                          space return_error None None overlap_ratio
  = (t, Return out) ->
  let src_freq := frequency space reference_image in
  let target_freq := frequency space moving_image in
  let cross_correlation := ifftn (amul src_freq (amap conj target_freq)) in
  let before := fun k maxima =>
    (ravel (shape reference_image) k < ravel (shape reference_image) maxima)%nat in
  exists maxima,
    locate_maximum cross_correlation = Return maxima /\
    valid_index maxima (shape reference_image) /\
    (forall M,
       cabs (item cross_correlation maxima) = Fin M ->
       forall k, valid_index k (shape reference_image) ->
         exists v, cabs (item cross_correlation k) = Fin v /\ v <= M /\
                   (before k maxima -> v < M)) /\
    (cabs (item cross_correlation maxima) = NaN ->
     forall k, valid_index k (shape reference_image) -> before k maxima ->
       cabs (item cross_correlation k) <> NaN).
Proof.
  intros H src_freq target_freq cross_correlation before.
  apply unmasked_Return in H as (Hs & t' & H & _).
  apply register_Return in H
    as (maxima & pre & CC & t1 & sh & Hloc & _ & _ & _ & _).
  fold src_freq target_freq cross_correlation in Hloc.
  destruct (locate_maximum_max _ _ (wf_ifftn _) Hloc) as (Hv & Hmax & Hfirst).
  fold cross_correlation in Hv, Hmax, Hfirst.
  change (shape cross_correlation) with (shape src_freq) in Hv, Hmax, Hfirst.
  unfold src_freq in Hv, Hmax, Hfirst. rewrite shape_frequency in Hv, Hmax, Hfirst.
  fold src_freq in Hmax, Hfirst.
  exists maxima. split; [exact Hloc|]. split; [exact Hv|]. split.
  - intros M HM k Hk. specialize (Hmax k Hk). rewrite HM in Hmax.
    destruct (cabs (item cross_correlation k)) as [v|] eqn:Ev; [|discriminate].
    exists v. split; [reflexivity|]. cbn [better] in Hmax.
    unfold Rltb in Hmax. destruct (Rlt_dec M v); [discriminate|].
    split; [lra|]. intros Hb. specialize (Hfirst k Hk Hb).
    rewrite HM, Ev in Hfirst. cbn [better] in Hfirst.
    unfold Rltb in Hfirst. destruct (Rlt_dec v M); [assumption | discriminate].
  - intros HN k Hk Hb E. specialize (Hfirst k Hk Hb).
    rewrite HN, E in Hfirst. discriminate.
Qed.

Lemma coarse_peak_is_first_maximum_witness :
  exists maxima,
    locate_maximum (ifftn product_ab) = Return maxima /\
    valid_index maxima (shape spectrum_a) /\
    (forall M,
       cabs (item (ifftn product_ab) maxima) = Fin M ->
       forall k, valid_index k (shape spectrum_a) ->
         exists v, cabs (item (ifftn product_ab) k) = Fin v /\ v <= M /\
                   ((ravel (shape spectrum_a) k
                     < ravel (shape spectrum_a) maxima)%nat -> v < M)) /\
    (cabs (item (ifftn product_ab) maxima) = NaN ->
     forall k, valid_index k (shape spectrum_a) ->
       (ravel (shape spectrum_a) k < ravel (shape spectrum_a) maxima)%nat ->
       cabs (item (ifftn product_ab) k) <> NaN).
Proof.
  exact (coarse_peak_is_first_maximum no_masked_registration spectrum_a spectrum_b 1
           "Fourier" false (Fin 0.3) _ _ run_ab).
Defined.

(** ** A translated image *)

Lemma unit_root_int x z : unit_root (x + IZR z) = unit_root x.
Proof.
  destruct (Z_le_gt_dec 0 z) as [H | H].
  - rewrite <- (Z2Nat.id z H), <- INR_IZR_INZ.
    rewrite <- (unit_root_period (x + INR (Z.to_nat z)) (Z.to_nat z)).
    f_equal. ring.
  - replace z with (- Z.of_nat (Z.to_nat (- z)))%Z by lia.
    rewrite opp_IZR, <- INR_IZR_INZ.
    replace (x + - INR (Z.to_nat (- z))) with (x - INR (Z.to_nat (- z))) by ring.
    apply unit_root_period.
Qed.

Lemma conj_cmul a b : conj (cmul a b) = cmul (conj a) (conj b).
Proof.
  destruct a as [[x|] [y|]], b as [[u|] [v|]];
    cbv [conj cmul re im fmul fsub fadd fneg lift1 lift2]; try reflexivity.
  apply Cx_Fin_eq; ring.
Qed.

Lemma conj_unit_root x : conj (unit_root x) = unit_root (- x).
Proof.
  unfold unit_root, conj. cbn [re im fneg lift1]. apply Cx_Fin_eq.
  - replace (2 * PI * - x) with (- (2 * PI * x)) by ring. rewrite cos_neg. reflexivity.
  - replace (2 * PI * - x) with (- (2 * PI * x)) by ring. rewrite sin_neg. reflexivity.
Qed.

Lemma wf_translated a d : wf (translated a d).
Proof. unfold wf, size, translated. cbn. rewrite length_map. apply indices_length. Qed.

Lemma item_translated a d j :
  valid_index j (shape a) ->
  item (translated a d) j = cmul (item a j) (unit_root (dft_phase (shape a) d j)).
Proof.
  intros Hj. pose proof (data_items _ (wf_translated a d)) as E.
  cbn [translated shape data] in E. symmetry.
  apply (ext_in_map E). apply valid_indices, Hj.
Qed.

Lemma finite_translated a d :
  wf a -> Forall finite (data a) -> Forall finite (data (translated a d)).
Proof.
  intros Hwf Hf. cbn [translated data]. apply Forall_forall. intros z Hz.
  apply in_map_iff in Hz as (j & <- & Hj).
  apply finite_cmul; [|apply finite_unit_root].
  apply item_finite; [assumption | assumption | apply indices_valid, Hj].
Qed.

(** The phases of a translation and of a position add up to the phase of
    the moved position, up to whole turns. *)
Lemma dft_phase_shift s : forall d k j,
  valid_index j s -> length d = length s -> length k = length s ->
  exists z : Z,
    dft_phase s d j + dft_phase s k j = dft_phase s (shift_index s k d) j + IZR z.
Proof.
  induction s as [|n s IH]; intros d k j Hj Hd Hk.
  - exists 0%Z. destruct d, k; try discriminate. cbn. ring.
  - destruct d as [|d0 d]; [discriminate|]. destruct k as [|k0 k]; [discriminate|].
    inversion Hj as [|j0 n' j' s' Hj0 Hj']; subst.
    destruct (IH d k j' Hj') as (z & E); [cbn in *; lia | cbn in *; lia|].
    unfold shift_index. cbn [combine map fst snd]. fold (shift_index s k d).
    rewrite !dft_phase_cons.
    assert (Hn : INR n <> 0) by (apply not_0_INR; lia).
    pose proof (Nat.div_mod_eq (k0 + d0) n) as Hdm.
    set (q := ((k0 + d0) / n)%nat) in *. set (m := ((k0 + d0) mod n)%nat) in *.
    exists (Z.of_nat (q * j0) + z)%Z.
    rewrite plus_IZR, <- INR_IZR_INZ.
    assert (Hr : INR (d0 * j0) / INR n + INR (k0 * j0) / INR n
                 = INR (m * j0) / INR n + INR (q * j0)).
    { rewrite !mult_INR.
      assert (Hs : INR k0 + INR d0 = INR n * INR q + INR m).
      { rewrite <- plus_INR, <- mult_INR, <- plus_INR. f_equal. exact Hdm. }
      replace (INR d0 * INR j0 / INR n + INR k0 * INR j0 / INR n)
        with ((INR k0 + INR d0) * INR j0 / INR n) by (field; exact Hn).
      rewrite Hs. field. exact Hn. }
    lra.
Qed.

Lemma shift_index_valid s : forall k d,
  length k = length s -> length d = length s ->
  Forall (fun n => 0 < n)%nat s -> valid_index (shift_index s k d) s.
Proof.
  unfold shift_index.
  induction s as [|n s IH]; intros [|k0 k] [|d0 d] Hk Hd Hp; try discriminate.
  - constructor.
  - inversion Hp; subst. cbn [combine map fst snd]. constructor.
    + apply Nat.mod_upper_bound. lia.
    + apply IH; [cbn in *; lia | cbn in *; lia | assumption].
Qed.

(** The cross-correlation of an array with its translation is the
    cross-correlation of the array with itself, moved. *)
Lemma translated_correlation F d k :
  wf F -> Forall finite (data F) ->
  valid_index d (shape F) -> valid_index k (shape F) ->
  item (ifftn (amul F (amap conj (translated F d)))) k
  = item (ifftn (amul F (amap conj F))) (shift_index (shape F) k d).
Proof.
  intros Hwf Hf Hd Hk.
  assert (Hpos : Forall (fun n => 0 < n)%nat (shape F)).
  { apply prod_shape_pos. apply (valid_index_size k), Hk. }
  pose proof (shift_index_valid (shape F) k d (Forall2_length Hk) (Forall2_length Hd)
                Hpos) as Hm.
  rewrite !item_ifftn by assumption.
  change (shape (amul F (amap conj (translated F d)))) with (shape F).
  change (shape (amul F (amap conj F))) with (shape F).
  change (size (amul F (amap conj (translated F d)))) with (size F).
  change (size (amul F (amap conj F))) with (size F).
  f_equal. apply csum_ext. intros j Hj. apply indices_valid in Hj.
  destruct (product_items F (translated F d) j Hwf (wf_translated F d) eq_refl Hf
              (finite_translated F d Hwf Hf) Hj) as (E1 & _ & _).
  destruct (product_items F F j Hwf Hwf eq_refl Hf Hf Hj) as (E2 & _ & _).
  rewrite E1, E2, item_translated by exact Hj.
  rewrite conj_cmul, conj_unit_root, cmul_assoc, <- (cmul_assoc _ (unit_root _)).
  rewrite <- unit_root_add. f_equal.
  destruct (dft_phase_shift (shape F) d k j Hj (Forall2_length Hd) (Forall2_length Hk))
    as (z & E).
  replace (- dft_phase (shape F) d j + - dft_phase (shape F) k j)
    with (- dft_phase (shape F) (shift_index (shape F) k d) j + IZR (- z))
    by (rewrite opp_IZR; lra).
  apply unit_root_int.
Qed.

Lemma translation_peak_valid s : forall d,
  length d = length s -> Forall (fun n => 0 < n)%nat s ->
  valid_index (translation_peak s d) s.
Proof.
  unfold translation_peak.
  induction s as [|n s IH]; intros [|d0 d] Hd Hp; try discriminate.
  - constructor.
  - inversion Hp; subst. cbn [combine map fst snd]. constructor.
    + apply Nat.mod_upper_bound. lia.
    + apply IH; [cbn in *; lia | assumption].
Qed.

Lemma shift_index_peak s : forall k d,
  valid_index k s -> valid_index d s ->
  (shift_index s k d = repeat 0%nat (length s) <-> k = translation_peak s d).
Proof.
  unfold shift_index, translation_peak.
  induction s as [|n s IH]; intros k d Hk Hd;
    inversion Hk as [|k0 n' k' s' Hk0 Hk']; inversion Hd as [|d0 n'' d' s'' Hd0 Hd'];
    subst.
  - split; reflexivity.
  - cbn [combine map fst snd length repeat]. specialize (IH k' d' Hk' Hd').
    assert (Ha : ((k0 + d0) mod n = 0 <-> k0 = (n - d0) mod n)%nat).
    { destruct (Nat.eq_dec d0 0) as [-> | Hd0'].
      - rewrite Nat.add_0_r, Nat.sub_0_r, Nat.Div0.mod_same.
        rewrite Nat.mod_small by exact Hk0. reflexivity.
      - rewrite (Nat.mod_small (n - d0)) by lia.
        split; intros H.
        + destruct (Nat.lt_ge_cases (k0 + d0) n) as [Hlt | Hge].
          * rewrite Nat.mod_small in H by exact Hlt. lia.
          * assert (E : ((k0 + d0) mod n = k0 + d0 - n)%nat).
            { replace (k0 + d0)%nat with ((k0 + d0 - n) + 1 * n)%nat at 1 by lia.
              rewrite Nat.Div0.mod_add. apply Nat.mod_small. lia. }
            lia.
        + subst k0. replace (n - d0 + d0)%nat with n by lia.
          apply Nat.Div0.mod_same. }
    split; intros H.
    + injection H as H0 H1. f_equal; [apply Ha, H0 | apply IH, H1].
    + injection H as H0 H1. f_equal; [apply Ha, H0 | apply IH, H1].
Qed.

Lemma cabs_magnitude z : finite z -> cabs z = Fin (magnitude z).
Proof.
  intros H. destruct (finite_Cx z H) as (x & y & ->). apply cabs_Fin.
Qed.

Lemma finite_item_ifftn (a : ndarray complex) k :
  wf a -> Forall finite (data a) -> valid_index k (shape a) ->
  finite (item (ifftn a) k).
Proof.
  intros Hwf Hf Hk. rewrite item_ifftn by exact Hk.
  rewrite csum_parts.
  - unfold cdiv_real, of_nat. cbn [re im].
    rewrite !fdiv_Fin; [reflexivity | |];
      apply not_0_INR; pose proof (valid_index_size k _ Hk); unfold size; lia.
  - intros j Hj. apply finite_cmul; [|apply finite_unit_root].
    apply item_finite; [assumption | assumption | apply indices_valid, Hj].
Qed.

Lemma finite_amul a b :
  Forall finite (data a) -> Forall finite (data b) -> Forall finite (data (amul a b)).
Proof.
  intros Ha Hb. cbn [amul data]. apply Forall_forall. intros z Hz.
  apply in_map_iff in Hz as ([x y] & <- & Hin). cbn [fst snd].
  rewrite Forall_forall in Ha, Hb.
  apply finite_cmul; [apply Ha, (in_combine_l _ _ _ _ Hin)
                     | apply Hb, (in_combine_r _ _ _ _ Hin)].
Qed.

Lemma finite_amap_conj a : Forall finite (data a) -> Forall finite (data (amap conj a)).
Proof.
  intros H. cbn [amap data]. rewrite Forall_map. revert H. apply Forall_impl.
  intros z. apply finite_conj.
Qed.

(** The peak of the cross-correlation of an array with its translation,
    when the cross-correlation of the array with itself has its largest
    magnitude at the origin only. *)
Lemma locate_maximum_translated F d :
  wf F -> Forall finite (data F) -> valid_index d (shape F) ->
  (forall m, valid_index m (shape F) -> m <> repeat 0%nat (ndim F) ->
     magnitude (item (ifftn (amul F (amap conj F))) m)
     < magnitude (item (ifftn (amul F (amap conj F))) (repeat 0%nat (ndim F)))) ->
  locate_maximum (ifftn (amul F (amap conj (translated F d))))
  = Return (translation_peak (shape F) d).
Proof.
  intros Hwf Hf Hd Hstrict.
  set (P := amul F (amap conj (translated F d))).
  set (A := amul F (amap conj F)) in *.
  assert (Hsz : (0 < size F)%nat) by (apply (valid_index_size d), Hd).
  assert (Hpos : Forall (fun n => 0 < n)%nat (shape F)) by (apply prod_shape_pos, Hsz).
  assert (HfA : Forall finite (data A))
    by (apply finite_amul; [exact Hf | apply finite_amap_conj, Hf]).
  assert (HwA : wf A)
    by (apply wf_amul; [exact Hwf | apply wf_amap, Hwf | reflexivity]).
  pose proof (translation_peak_valid (shape F) d (Forall2_length Hd) Hpos) as Hpk.
  destruct (locate_maximum_total (ifftn P) (wf_ifftn P) Hsz) as (maxima & Hloc & _).
  destruct (locate_maximum_max _ _ (wf_ifftn P) Hloc) as (Hv & Hmax & _).
  change (shape (ifftn P)) with (shape F) in Hv, Hmax.
  rewrite Hloc. f_equal.
  destruct (list_eq_dec Nat.eq_dec maxima (translation_peak (shape F) d)) as [E | E];
    [exact E | exfalso].
  specialize (Hmax _ Hpk). unfold P in Hmax.
  rewrite !translated_correlation in Hmax by assumption. fold A in Hmax.
  rewrite (proj2 (shift_index_peak (shape F) _ d Hpk Hd) eq_refl) in Hmax.
  assert (Hne : shift_index (shape F) maxima d <> repeat 0%nat (length (shape F))).
  { intros H. apply E. apply (shift_index_peak (shape F) maxima d Hv Hd), H. }
  assert (Hm : valid_index (shift_index (shape F) maxima d) (shape F)).
  { apply shift_index_valid; [apply (Forall2_length Hv) | apply (Forall2_length Hd)
                              | exact Hpos]. }
  specialize (Hstrict _ Hm Hne). fold (ndim F) in Hmax.
  rewrite !cabs_magnitude in Hmax
    by (apply finite_item_ifftn; try assumption; apply zeros_valid, Hsz).
  cbn [better] in Hmax. rewrite Rltb_true in Hmax by exact Hstrict. discriminate.
Qed.

Lemma zero_unit_axes_same s l l' :
  zero_unit_axes s l = Return l' ->
  (forall dim, nth_error s dim = Some 1%nat -> nth_error l dim = Some (Fin 0)) ->
  l' = l.
Proof.
  intros H Hz. apply zero_unit_axes_Return in H as (_ & Hn).
  apply nth_error_ext. intros k. destruct (Hn k) as (H1 & H2).
  assert (D : nth_error s k = Some 1%nat \/ nth_error s k <> Some 1%nat).
  { destruct (nth_error s k) as [n|]; [|right; discriminate].
    destruct (Nat.eq_dec n 1) as [-> | Hne];
      [left; reflexivity | right; congruence]. }
  destruct D as [E | E]; [rewrite (H1 E), (Hz k E); reflexivity | apply H2, E].
Qed.

Lemma translation_peak_unit s d dim :
  valid_index d s -> nth_error s dim = Some 1%nat ->
  nth_error (map (fun c => Fin (IZR c)) (coarse_shifts s (translation_peak s d))) dim
  = Some (Fin 0).
Proof.
  unfold coarse_shifts, translation_peak. intros Hd. revert dim.
  induction Hd as [|d0 n d s Hd0 Hd IH]; intros [|dim] H; try discriminate.
  - cbn in H. injection H as ->. cbn [combine map fst snd nth_error].
    assert (d0 = 0)%nat by lia. subst d0. reflexivity.
  - cbn [combine map fst snd nth_error]. apply IH. exact H.
Qed.

Lemma energy_translated F d :
  wf F -> Forall finite (data F) -> energy (translated F d) = energy F.
Proof.
  intros Hwf Hf.
  rewrite (energy_items F Hwf Hf).
  rewrite (energy_items _ (wf_translated F d) (finite_translated F d Hwf Hf)).
  f_equal. apply Rsum_ext. intros j Hj. apply indices_valid in Hj.
  change (shape (translated F d)) with (shape F) in Hj.
  rewrite item_translated by exact Hj. apply magnitude2_unit_root.
  apply item_finite; assumption.
Qed.

Lemma report_perfect re sh EF N :
  0 <= EF -> 0 < N ->
  snd (report re sh (Cx (Fin (EF / N)) (Fin 0)) (Fin (EF / N)) (Fin (EF / N)))
  = if re then
      Return (ShiftsErrorPhase sh (if Reqb EF 0 then NaN else Fin 0) (Fin 0))
    else Return (Shifts sh).
Proof.
  intros PF HN. unfold report. destruct re; [|reflexivity].
  cbn [cisnan isnan re im orb snd].
  assert (Hinv : 0 < / N) by (apply Rinv_0_lt_compat, HN).
  destruct (Req_dec_T EF 0) as [Hz | Hnz].
  - rewrite (Reqb_true _ _ Hz).
    rewrite compute_error_no_amplitude by (rewrite Hz; unfold Rdiv; ring).
    unfold _compute_phasediff, arctan2. cbn [re im lift2].
    rewrite Hz. unfold Rdiv. rewrite Rmult_0_l, Ratan2_origin. reflexivity.
  - rewrite (Reqb_false _ _ Hnz).
    assert (Hc : 0 < EF / N) by (unfold Rdiv; nra).
    rewrite compute_error_value by nra.
    unfold _compute_phasediff, arctan2. cbn [re im lift2].
    rewrite (Ratan2_positive_real _ Hc).
    replace (1 - (EF / N * (EF / N) + 0 * 0) / (EF / N * (EF / N))) with 0
      by (field; split; lra).
    rewrite Rabs_R0, sqrt_0. reflexivity.
Qed.

Lemma coarse_shifts_translation s : forall d,
  map (fun c => Fin (IZR c)) (coarse_shifts s (translation_peak s d))
  = map (fun p => Fin (IZR (wrap_index (fst p) ((fst p - snd p) mod fst p))))
        (combine s d).
Proof.
  unfold coarse_shifts, translation_peak.
  induction s as [|n s IH]; intros [|d0 d]; try reflexivity.
  cbn [combine map fst snd]. rewrite IH. reflexivity.
Qed.

Lemma wrap_translation n d :
  (d < n)%nat ->
  ((wrap_index n ((n - d) mod n) + Z.of_nat d) mod Z.of_nat n = 0)%Z.
Proof.
  intros H. destruct (Nat.eq_dec d 0) as [-> | Hd].
  - rewrite Nat.sub_0_r, Nat.Div0.mod_same. unfold wrap_index. cbn [Nat.leb].
    rewrite Z.add_0_r. apply Z.mod_0_l. lia.
  - rewrite Nat.mod_small by lia. unfold wrap_index.
    destruct (n - d <=? n / 2)%nat.
    + replace (Z.of_nat (n - d) + Z.of_nat d)%Z with (Z.of_nat n) by lia.
      apply Z.mod_same. lia.
    + replace (Z.of_nat (n - d) - Z.of_nat n + Z.of_nat d)%Z with 0%Z by lia.
      apply Z.mod_0_l. lia.
Qed.

(** X13.  A translation is recovered.  Let the moving array be the
    spectrum of the reference image moved by [d] pixels: the reference
    spectrum with every entry [j] turned by
    [exp(-2 pi i * sum_a d_a j_a / n_a)].  When the cross-correlation of
    the reference with itself has its largest magnitude at the origin only,
    the call in the Fourier space without masks and without upsampling
    returns, on every axis of length [n], the shift that undoes the move:
    the representative of [- d] modulo [n] in the range of the shifts.  With
    [return_error], the error and the phase difference are zero, for a
    reference with some energy. *)
Theorem translation_is_recovered
  (masked : masked_registration) (reference : ndarray complex) (d : list nat)
  (space : string) (overlap_ratio : float) :
  wf reference -> Forall finite (data reference) -> (1 <= ndim reference)%nat ->
  valid_index d (shape reference) ->
  lower space = "fourier"%string ->
  (let self := ifftn (amul reference (amap conj reference)) in
   forall m, valid_index m (shape reference) -> m <> repeat 0%nat (ndim reference) ->
     magnitude (item self m) < magnitude (item self (repeat 0%nat (ndim reference)))) ->
  let shifts :=
    map (fun p => Fin (IZR (wrap_index (fst p) ((fst p - snd p) mod fst p))))
        (combine (shape reference) d) in
  let run := fun return_error =>
    snd (phase_cross_correlation masked reference (translated reference d) 1 space
                                 return_error None None overlap_ratio) in
  run false = Return (Shifts shifts) /\
  (sum_energy reference <> Fin 0 ->
   run true = Return (ShiftsErrorPhase shifts (Fin 0) (Fin 0))) /\
  Forall2 (fun d n =>
             ((wrap_index n ((n - d) mod n) + Z.of_nat d) mod Z.of_nat n = 0)%Z)
          d (shape reference).
Proof.
  intros Hwf Hf Hn Hd Hsp Hstrict shifts run. cbv zeta in Hstrict.
  set (F := reference) in *. set (G := translated F d).
  assert (Hsz : (0 < size F)%nat) by (apply (valid_index_size d), Hd).
  assert (HfG : Forall finite (data G)) by (apply finite_translated; assumption).
  pose proof (locate_maximum_translated F d Hwf Hf Hd Hstrict) as Hloc. fold G in Hloc.
  pose proof (energy_items F Hwf Hf) as En.
  pose proof (energy_translated F d Hwf Hf) as EnG. fold G in EnG.
  set (N := INR (size F)) in *.
  set (EF := Rsum (fun j => magnitude2 (item F j)) (indices (shape F))) in *.
  assert (HN : 0 < N) by (unfold N; apply lt_0_INR, Hsz).
  assert (PF : 0 <= EF) by (apply Rsum_nonneg; intros; apply magnitude2_nonneg).
  assert (Hrun : forall re, run re = snd (register F G 1 re)).
  { intros re. unfold run.
    rewrite (unmasked_run masked F G _ _ _ _ eq_refl (or_intror Hsp)).
    unfold frequency. rewrite Hsp.
    change ("fourier" =? "fourier")%string with true. reflexivity. }
  assert (Hreg : forall re,
            snd (register F G 1 re)
            = if re then
                Return (ShiftsErrorPhase shifts (if Reqb EF 0 then NaN else Fin 0)
                                         (Fin 0))
              else Return (Shifts shifts)).
  { destruct (register_core F G 1)
      as (t1 & _ & _ & _ & [(e & He & Hwhy) | (sh & CC & _ & Hone & Hreg)]).
    { exfalso. destruct Hwhy as [(_ & [Hz | (Hne & _)]) | (_ & Hz)];
        [lia | apply Hne; reflexivity | lia]. }
    destruct (Hone eq_refl) as (maxima & Hloc' & HCC & Hz). cbv zeta in Hloc', HCC.
    rewrite Hloc in Hloc'. inversion Hloc'; subst maxima; clear Hloc'.
    apply zero_unit_axes_same in Hz;
      [|intros dim Hdim; apply translation_peak_unit; assumption].
    rewrite coarse_shifts_translation in Hz. fold shifts in Hz.
    unfold G in HCC.
    rewrite translated_correlation in HCC
      by first [assumption
               | apply translation_peak_valid;
                 [apply (Forall2_length Hd) | apply prod_shape_pos, Hsz]].
    rewrite (proj2 (shift_index_peak (shape F) _ d
                      (translation_peak_valid _ _ (Forall2_length Hd)
                         (prod_shape_pos _ Hsz)) Hd) eq_refl) in HCC.
    fold (ndim F) in HCC.
    rewrite (self_correlation_origin F Hwf Hf Hsz) in HCC. fold N EF in HCC.
    intros re. rewrite Hreg. subst sh CC. unfold amplitude.
    rewrite (Reqb_true 1 1 eq_refl), EnG, En.
    change (size G) with (size F). unfold of_nat. fold N.
    rewrite fdiv_Fin by lra. apply report_perfect; assumption. }
  rewrite !Hrun, !Hreg. split; [reflexivity|]. split.
  - intros Hne. rewrite Reqb_false; [reflexivity|].
    intros E. apply Hne. rewrite <- energy_sum, En, E. reflexivity.
  - revert Hd. apply Forall2_impl. intros d0 n H. apply wrap_translation, H.
Qed.

Lemma ifftn_self_a :
  ifftn (amul spectrum_a (amap conj spectrum_a)) = NdArray [1%nat; 2%nat] [one; c0].
Proof.
  cbv [ifftn amul amap spectrum_a data shape dftn indices
       flat_map seq map app size prod_shape fold_right combine fst snd item ravel
       fold_left nth twiddle dft_phase csum Nat.mul Nat.add one conj re
       im cmul cexp cadd c0 fmul fsub fadd fneg lift1 lift2 cdiv_real of_nat].
  replace (1 * (2 * PI * (INR 0 / INR 1 + (INR 0 / INR 2 + 0)))) with 0
    by (simpl; field).
  replace (1 * (2 * PI * (INR 0 / INR 1 + (INR 1 / INR 2 + 0)))) with PI
    by (simpl; field).
  rewrite exp_0, cos_0, sin_0, cos_PI, sin_PI.
  rewrite !fdiv_Fin by (simpl; lra).
  do 2 f_equal; [|f_equal]; apply Cx_Fin_eq; simpl; field.
Qed.

Lemma translation_is_recovered_witness :
  wf spectrum_a /\ Forall finite (data spectrum_a) /\ (1 <= ndim spectrum_a)%nat /\
  valid_index [0%nat; 1%nat] (shape spectrum_a) /\
  lower "Fourier" = "fourier"%string /\
  sum_energy spectrum_a <> Fin 0 /\
  snd (phase_cross_correlation no_masked_registration spectrum_a
         (translated spectrum_a [0%nat; 1%nat]) 1 "Fourier" false None None (Fin 0.3))
  = Return (Shifts [Fin 0; Fin 1]) /\
  snd (phase_cross_correlation no_masked_registration spectrum_a
         (translated spectrum_a [0%nat; 1%nat]) 1 "Fourier" true None None (Fin 0.3))
  = Return (ShiftsErrorPhase [Fin 0; Fin 1] (Fin 0) (Fin 0)).
Proof.
  assert (Hwf : wf spectrum_a) by reflexivity.
  assert (Hf : Forall finite (data spectrum_a)) by (repeat constructor).
  assert (Hn : (1 <= ndim spectrum_a)%nat) by (cbv; lia).
  assert (Hd : valid_index [0%nat; 1%nat] (shape spectrum_a))
    by (repeat constructor).
  assert (Hsp : lower "Fourier" = "fourier"%string) by reflexivity.
  assert (He : sum_energy spectrum_a <> Fin 0).
  { cbv [sum_energy spectrum_a data map squared_magnitude one re im fsum fold_right
         fadd fmul lift2].
    intros H. injection H as H. lra. }
  assert (Hstrict :
    let self := ifftn (amul spectrum_a (amap conj spectrum_a)) in
    forall m, valid_index m (shape spectrum_a) ->
              m <> repeat 0%nat (ndim spectrum_a) ->
              magnitude (item self m)
              < magnitude (item self (repeat 0%nat (ndim spectrum_a)))).
  { cbv zeta. rewrite ifftn_self_a. intros m Hm Hne.
    assert (E : m = [0%nat; 1%nat]).
    { inversion Hm as [|i n mi s Hi Hm']; subst.
      inversion Hm' as [|j n' mj s' Hj Hm'']; subst. inversion Hm''; subst.
      assert (i = 0)%nat by lia. subst i.
      destruct j as [|[|j]]; [exfalso; apply Hne; reflexivity | reflexivity | lia]. }
    subst m.
    change (item (NdArray [1%nat; 2%nat] [one; c0]) [0%nat; 1%nat]) with c0.
    change (item (NdArray [1%nat; 2%nat] [one; c0]) (repeat 0%nat (ndim spectrum_a)))
      with one.
    cbv [magnitude magnitude2 Rre Rim re im c0 one].
    replace (0 * 0 + 0 * 0) with 0 by ring. replace (1 * 1 + 0 * 0) with 1 by ring.
    rewrite sqrt_0, sqrt_1. lra. }
  destruct (translation_is_recovered no_masked_registration spectrum_a
              [0%nat; 1%nat] "Fourier" (Fin 0.3) Hwf Hf Hn Hd Hsp Hstrict)
    as (H1 & H2 & _).
  split; [exact Hwf|]. split; [exact Hf|]. split; [exact Hn|]. split; [exact Hd|].
  split; [exact Hsp|]. split; [exact He|]. split; [exact H1 | exact (H2 He)].
Defined.

(** ** Whole offsets without upsampling *)

Lemma offset_index_valid s : forall k offsets,
  length k = length s -> length offsets = length s ->
  Forall (fun n => 0 < n)%nat s -> valid_index (offset_index s k offsets) s.
Proof.
  unfold offset_index.
  induction s as [|n s IH]; intros [|k0 k] [|o0 o] Hk Ho Hp; try discriminate.
  - constructor.
  - inversion Hp; subst. cbn [combine map fst snd]. constructor.
    + pose proof (Z.mod_pos_bound (Z.of_nat k0 - o0) (Z.of_nat n) ltac:(lia)). lia.
    + apply IH; [cbn in *; lia | cbn in *; lia | assumption].
Qed.

(** The phase of an entry of the upsampled DFT with whole offsets and the
    factor 1 is the phase of the moved entry of the transform, up to whole
    turns. *)
Lemma upsampled_phase_offsets s : forall offsets k j,
  valid_index j s -> length k = length s -> length offsets = length s ->
  exists z : Z,
    upsampled_phase 1 s (map IZR offsets) k j
    = dft_phase s (offset_index s k offsets) j + IZR z.
Proof.
  induction s as [|n s IH]; intros offsets k j Hj Hk Ho.
  - exists 0%Z. destruct offsets, k; try discriminate. inversion Hj; subst.
    cbn. ring.
  - destruct offsets as [|o0 o]; [discriminate|].
    destruct k as [|k0 k]; [discriminate|].
    inversion Hj as [|j0 n' j' s' Hj0 Hj']; subst.
    destruct (IH o k j' Hj') as (z & E); [cbn in *; lia | cbn in *; lia|].
    unfold offset_index. cbn [combine map fst snd]. fold (offset_index s k o).
    rewrite upsampled_phase_cons, dft_phase_cons, E.
    assert (Hn : INR n <> 0) by (apply not_0_INR; lia).
    pose proof (Z.div_mod (Z.of_nat k0 - o0) (Z.of_nat n) ltac:(lia)) as Hdm.
    pose proof (Z.mod_pos_bound (Z.of_nat k0 - o0) (Z.of_nat n) ltac:(lia)) as Hb.
    set (q := ((Z.of_nat k0 - o0) / Z.of_nat n)%Z) in *.
    set (m := ((Z.of_nat k0 - o0) mod Z.of_nat n)%Z) in *.
    assert (HD : INR k0 - IZR o0 = INR n * IZR q + IZR m).
    { rewrite !INR_IZR_INZ, <- minus_IZR, <- mult_IZR, <- plus_IZR. f_equal.
      exact Hdm. }
    assert (Hm : INR (Z.to_nat m * j0) = IZR m * INR j0).
    { rewrite mult_INR, (INR_IZR_INZ (Z.to_nat m)), Z2Nat.id by lia. reflexivity. }
    rewrite Hm, HD.
    destruct (freq_index_cases n j0) as [-> | ->].
    + exists (q * Z.of_nat j0 + z)%Z.
      rewrite plus_IZR, mult_IZR, <- !INR_IZR_INZ. field. exact Hn.
    + exists (q * Z.of_nat j0 - (Z.of_nat n * q + m) + z)%Z.
      rewrite plus_IZR, !minus_IZR, plus_IZR, !mult_IZR, <- !INR_IZR_INZ.
      field. exact Hn.
Qed.

(** X14.  Whole offsets without upsampling move the transform.  With the
    factor 1 and whole offsets, the entry [k] of the upsampled DFT of an
    array with elements is the entry of its transform [fftn] at
    [(k - offset) mod n] on every axis of length [n], whatever the region
    sizes are: the region starts [offset] entries before the origin of the
    transform and goes around its axes. *)
Theorem upsampled_dft_whole_offsets
  (data_ : ndarray complex) (region : list Z) (offsets : list Z) :
  wf data_ -> (0 < size data_)%nat ->
  (1 <= ndim data_)%nat \/ Forall finite (data data_) ->
  length region = ndim data_ -> length offsets = ndim data_ ->
  exists w,
    _upsampled_dft data_ (Sizes region) 1
                   (Some (map (fun o => Fin (IZR o)) offsets))
    = Return w /\
    shape w = map Z.to_nat region /\
    forall k, valid_index k (shape w) ->
      valid_index (offset_index (shape data_) k offsets) (shape data_) /\
      item w k = item (fftn data_) (offset_index (shape data_) k offsets).
Proof.
  intros Hwf Hsz Hor Hr Ho.
  assert (Hor' : shape data_ <> [] \/ Forall finite (data data_)).
  { destruct Hor as [Hn | Hf]; [left | right; exact Hf].
    unfold ndim in Hn. destruct (shape data_); [cbn in Hn; lia | discriminate]. }
  assert (Ho' : length (map IZR offsets) = ndim data_)
    by (rewrite length_map; exact Ho).
  destruct (contract_region_items 1 data_ ltac:(lra) Hwf (shape data_) region
              (map IZR offsets) [] Hr Ho' eq_refl Hor') as ((Hsh & Hw) & Hit).
  cbv zeta in Hsh, Hw, Hit. rewrite app_nil_r in Hsh.
  eexists. split; [|split; [exact Hsh|]].
  - unfold _upsampled_dft. rewrite Hr, Nat.eqb_refl. cbn [negb rbind].
    rewrite length_map, Ho, Nat.eqb_refl. cbn [negb rbind].
    rewrite <- (map_map IZR Fin). reflexivity.
  - intros k Hk. rewrite Hsh in Hk.
    assert (Hkl : length k = length (shape data_)).
    { rewrite (Forall2_length Hk), length_map. exact Hr. }
    assert (Hv : valid_index (offset_index (shape data_) k offsets) (shape data_)).
    { apply offset_index_valid; [exact Hkl | exact Ho | apply prod_shape_pos, Hsz]. }
    split; [exact Hv|].
    specialize (Hit k [] Hk (Forall2_nil _)). rewrite app_nil_r in Hit.
    rewrite Hit. unfold fftn. rewrite item_dftn by exact Hv.
    apply csum_ext. intros j Hj. apply indices_valid in Hj. cbn [app]. f_equal.
    rewrite twiddle_unit_root.
    destruct (upsampled_phase_offsets (shape data_) offsets k j Hj Hkl Ho) as (z & E).
    rewrite E. apply unit_root_int.
Qed.

Lemma upsampled_dft_whole_offsets_witness :
  wf image_2 /\ (0 < size image_2)%nat /\ (1 <= ndim image_2)%nat /\
  exists w,
    _upsampled_dft image_2 (Sizes [3%Z]) 1 (Some [Fin 1]) = Return w /\
    shape w = [3%nat] /\
    forall k, valid_index k [3%nat] ->
      valid_index (offset_index [2%nat] k [1%Z]) [2%nat] /\
      item w k = item (fftn image_2) (offset_index [2%nat] k [1%Z]).
Proof.
  assert (Hwf : wf image_2) by reflexivity.
  assert (Hsz : (0 < size image_2)%nat) by (cbv; lia).
  assert (Hn : (1 <= ndim image_2)%nat) by (cbv; lia).
  split; [exact Hwf|]. split; [exact Hsz|]. split; [exact Hn|].
  destruct (upsampled_dft_whole_offsets image_2 [3%Z] [1%Z] Hwf Hsz (or_introl Hn)
              eq_refl eq_refl) as (w & Hw & Hs & Hit).
  exists w. split; [exact Hw|]. split; [exact Hs|].
  intros k Hk. apply Hit. rewrite Hs. exact Hk.
Defined.

